(** * word-lock: the cryptographic operations layer and the LSB codec

    A shallow embedding of the crypto utilities of the application
    (encryptAES256, decryptAES256, hashMD5, generateHMAC,
    analyzePasswordStrength, generateRSAKeyPair, encryptRSA, decryptRSA,
    hybridEncrypt, hybridDecrypt) and of the codec of its [Steganography]
    component (textToBinary, binaryToText, hideTextInImage,
    revealTextFromImage), with the properties of the specification proved
    or refuted on it.

    JavaScript strings are sequences of UTF-16 code units and are modelled
    as [list Z]; the pixel bytes of a canvas are a [list Z] as well; the
    [Uint8Array]s of the crypto module are lists of [Byte.byte]. *)

From Stdlib Require Import String Ascii ZArith List Bool Lia.
From Stdlib Require Import Reals Lra.
Close Scope R_scope.
Import ListNotations.
Open Scope Z_scope.

(** ** JavaScript strings *)

Module Js.

Definition jsstring := list Z.
Definition bytes := list Z.

(** An ASCII string literal of the source, as code units. *)
Definition lit (s : string) : jsstring :=
  map (fun a => Z.of_N (N_of_ascii a)) (list_ascii_of_string s).

(** [s.padStart(n, fill)] for a one-character [fill]. *)
Definition padStart (n : nat) (fill : Z) (s : jsstring) : jsstring :=
  repeat fill (n - length s) ++ s.

(** The digit characters of [Number.prototype.toString(radix)]:
    '0'..'9' then 'a'..'z'. *)
Definition digitChar (d : Z) : Z :=
  if d <? 10 then 48 + d else 87 + d.

Fixpoint toDigits (fuel : nat) (radix n : Z) (acc : jsstring) : jsstring :=
  match fuel with
  | O => acc
  | S f =>
      let acc' := digitChar (n mod radix) :: acc in
      if n / radix =? 0 then acc' else toDigits f radix (n / radix) acc'
  end.

(** [n.toString(radix)] for an integer [n >= 0]; a number below [2^k] has at
    most [k] digits in any radix, which bounds the recursion. *)
Definition toStringRadix (radix n : Z) : jsstring :=
  toDigits (S (Z.to_nat (Z.log2 n))) radix n [].

(** [n.toString()] for an integer; only the sign is added to the digits. *)
Definition toString (n : Z) : jsstring :=
  if n <? 0 then 45 :: toStringRadix 10 (- n) else toStringRadix 10 n.

(** [s.startsWith(pat)] as a boolean function on code units. *)
Fixpoint startsWith (pat s : jsstring) : bool :=
  match pat, s with
  | [], _ => true
  | _ :: _, [] => false
  | p :: pat', c :: s' => (p =? c) && startsWith pat' s'
  end.

Fixpoint indexOf_from (i : Z) (pat s : jsstring) : Z :=
  if startsWith pat s then i
  else match s with
       | [] => -1
       | _ :: s' => indexOf_from (i + 1) pat s'
       end.

(** [s.indexOf(pat)]: the first position where [pat] occurs, or [-1]. *)
Definition indexOf (s pat : jsstring) : Z := indexOf_from 0 pat s.

(** [parseInt(s, 2)] on a string of binary digits (the only use in the
    source is on 8-character groups of '0' and '1'). *)
Definition parseInt2 (s : jsstring) : Z :=
  fold_left (fun acc c => 2 * acc + (c - 48)) s 0.

(** [parseInt(ch)] on a one-character string holding a decimal digit. *)
Definition parseInt_digit (c : Z) : Z := c - 48.

(** In-place array store [a[i] = v]; typed arrays ignore a store out of
    range. *)
Fixpoint store (i : nat) (v : Z) (a : list Z) : list Z :=
  match a, i with
  | [], _ => []
  | _ :: a', O => v :: a'
  | x :: a', S i' => x :: store i' v a'
  end.

End Js.

Import Js.

(** ** The steganography codec *)

Module Stego.

Definition endMarker : jsstring := lit "1111111111111110".

(** [char.charCodeAt(0).toString(2).padStart(8, '0')] for one character. *)
Definition charBits (c : Z) : jsstring :=
  padStart 8 48 (toStringRadix 2 c).

(** The bitstream of the characters alone:
    [text.split('').map(...).join('')]. *)
Definition textBits (text : jsstring) : jsstring :=
  flat_map charBits text.

Definition textToBinary (text : jsstring) : jsstring :=
  textBits text ++ endMarker.

(** The loop of [binaryToText]: [i] runs over 0, 8, 16, ... below the
    length; [substr(i, 8)] is the next (at most) 8 characters, kept only
    when there are 8 of them. *)
Fixpoint decodeGroups (fuel : nat) (textBinary : jsstring) : jsstring :=
  match fuel, textBinary with
  | O, _ => []
  | _, [] => []
  | S f, _ =>
      let byte := firstn 8 textBinary in
      let rest := decodeGroups f (skipn 8 textBinary) in
      if (length byte =? 8)%nat then parseInt2 byte :: rest else rest
  end.

Definition binaryToText (binary : jsstring) : jsstring :=
  let endIndex := indexOf binary endMarker in
  if endIndex =? -1 then []
  else
    let textBinary := firstn (Z.to_nat endIndex) binary in
    decodeGroups (length textBinary) textBinary.

(** The loop of [hideTextInImage] on the pixel bytes [data]:
    [for (i = 0; i < data.length && binaryIndex < binary.length; i += 4)].
    The inner [if] repeats the loop condition and is always taken. *)
Fixpoint hideLoop (fuel : nat) (binary : jsstring) (i binaryIndex : nat)
    (data : bytes) : bytes :=
  match fuel with
  | O => data
  | S f =>
      if (i <? length data)%nat && (binaryIndex <? length binary)%nat then
        let bit := parseInt_digit (nth binaryIndex binary 0) in
        let data' := store i (Z.lor (Z.land (nth i data 0) 254) bit) data in
        hideLoop f binary (i + 4) (binaryIndex + 1) data'
      else data
  end.

(** [hideTextInImage], on the image data of the canvas: the data read by
    [getImageData] is modified in place and written back. [i] grows by 4
    at each turn, so [length data] turns are more than the loop can make. *)
Definition hideTextInImage (data : bytes) (text : jsstring) : bytes :=
  hideLoop (S (length data)) (textToBinary text) 0 0 data.

(** The loop of [revealTextFromImage]: the least significant bit of every
    fourth byte, as the characters '0' and '1'. *)
Fixpoint lsbBits (fuel : nat) (i : nat) (data : bytes) : jsstring :=
  match fuel with
  | O => []
  | S f =>
      if (i <? length data)%nat
      then toString (Z.land (nth i data 0) 1) ++ lsbBits f (i + 4) data
      else []
  end.

Definition revealTextFromImage (data : bytes) : jsstring :=
  binaryToText (lsbBits (S (length data)) 0 data).

(** The number of samples the loops visit: indices 0, 4, 8, ... below the
    length. *)
Definition samples (data : bytes) : nat := Nat.div (length data + 3) 4.

End Stego.

(** ** 32-bit integer operations of JavaScript *)

Module Int32.

(** [ToInt32]: the value modulo [2^32], as a signed 32-bit integer. *)
Definition toInt32 (x : Z) : Z := (x + 2 ^ 31) mod 2 ^ 32 - 2 ^ 31.

(** [a << n]: the left operand is converted with [ToInt32], the result
    wraps to 32 bits. *)
Definition shl (a n : Z) : Z := toInt32 (Z.shiftl (toInt32 a) n).

(** [a & b]: both operands are converted with [ToInt32]. *)
Definition bitand (a b : Z) : Z := Z.land (toInt32 a) (toInt32 b).

End Int32.

(** ** The legacy checksum *)

Module Checksum.

(** One turn of the loop of [hashMD5], on the code unit [char]. *)
Definition hashStep (hash char : Z) : Z :=
  let hash := (Int32.shl hash 5 - hash) + char in
  Int32.bitand hash hash.

(** The value of [hash] after the loop over [text]. *)
Definition hashLoop (text : jsstring) : Z := fold_left hashStep text 0.

Definition hashMD5 (text : jsstring) : jsstring :=
  if (length text =? 0)%nat then toString 0
  else padStart 8 48 (toStringRadix 16 (Z.abs (hashLoop text))).

(** The rolling hash in the usual form: [h <- 31 * h + c] on 32 bits. *)
Definition rolling31 (text : jsstring) : Z :=
  fold_left (fun h c => Int32.toInt32 (31 * h + c)) text 0.

(** The value of a digit character, and of a string of digits. *)
Definition digitVal (c : Z) : Z := if c <? 58 then c - 48 else c - 87.

Definition parseRadix (radix : Z) (s : jsstring) : Z :=
  fold_left (fun acc c => radix * acc + digitVal c) s 0.

(** '0'..'9' or 'a'..'f'. *)
Definition isHexDigit (c : Z) : Prop :=
  48 <= c <= 57 \/ 97 <= c <= 102.

End Checksum.

(** ** JavaScript numbers with the IEEE special values

    The entropy estimate is the only floating-point value of the layer.
    Numbers are modelled with the special values of IEEE 754 (the
    infinities and NaN) as constructors and with finite values as real
    numbers: the special cases of [Math.log2] and of [*] are those of the
    language, rounding of finite results is not modelled. *)

Module Num.

Inductive number : Type :=
| Fin (r : R)
| PosInf
| NegInf
| NaN.

(** [Math.log2(x)] on an integer: NaN below zero, -Infinity at zero. *)
Definition log2 (x : Z) : number :=
  if x <? 0 then NaN
  else if x =? 0 then NegInf
  else Fin (ln (IZR x) / ln 2)%R.

(** [n * x] for an integer [n]: zero times an infinity is NaN. *)
Definition mulInt (n : Z) (x : number) : number :=
  match x with
  | Fin r => Fin (IZR n * r)%R
  | NaN => NaN
  | PosInf => if n =? 0 then NaN else if 0 <? n then PosInf else NegInf
  | NegInf => if n =? 0 then NaN else if 0 <? n then NegInf else PosInf
  end.

End Num.

(** ** Password strength analysis *)

Module Password.
Import Num.

Inductive Strength : Type := weak | fair | good | strong | excellent.

Record Report : Type := {
  score : Z;
  strength : Strength;
  entropy : number;
  feedback : list jsstring
}.

Definition isLower (c : Z) : bool := (97 <=? c) && (c <=? 122).
Definition isUpper (c : Z) : bool := (65 <=? c) && (c <=? 90).
Definition isDigit (c : Z) : bool := (48 <=? c) && (c <=? 57).

(** [/[a-z]/.test(s)], [/[A-Z]/.test(s)], [/[0-9]/.test(s)] and
    [/[^A-Za-z0-9]/.test(s)]: some code unit is in the class. *)
Definition hasLower (s : jsstring) : bool := existsb isLower s.
Definition hasUpper (s : jsstring) : bool := existsb isUpper s.
Definition hasDigit (s : jsstring) : bool := existsb isDigit s.
Definition hasSymbol (s : jsstring) : bool :=
  existsb (fun c => negb (isUpper c || isLower c || isDigit c)) s.

Definition charSetSize (password : jsstring) : Z :=
  (if hasLower password then 26 else 0) +
  (if hasUpper password then 26 else 0) +
  (if hasDigit password then 10 else 0) +
  (if hasSymbol password then 32 else 0).

(** The statements of [analyzePasswordStrength] in order; [score] and
    [feedback] are threaded through the tests. *)
Definition analyzePasswordStrength (password : jsstring) : Report :=
  let len := Z.of_nat (length password) in
  let score := 0 in
  let feedback := @nil jsstring in
  let '(score, feedback) :=
    if 8 <=? len then (score + 1, feedback)
    else (score, feedback ++ [lit "Use at least 8 characters"]) in
  let score := if 12 <=? len then score + 1 else score in
  let score := if 16 <=? len then score + 1 else score in
  let '(score, feedback) :=
    if hasLower password then (score + 1, feedback)
    else (score, feedback ++ [lit "Include lowercase letters"]) in
  let '(score, feedback) :=
    if hasUpper password then (score + 1, feedback)
    else (score, feedback ++ [lit "Include uppercase letters"]) in
  let '(score, feedback) :=
    if hasDigit password then (score + 1, feedback)
    else (score, feedback ++ [lit "Include numbers"]) in
  let '(score, feedback) :=
    if hasSymbol password then (score + 1, feedback)
    else (score, feedback ++ [lit "Include special characters"]) in
  let entropy := mulInt len (log2 (charSetSize password)) in
  let strength :=
    if score <=? 2 then weak
    else if score <=? 4 then fair
    else if score <=? 5 then good
    else if score <=? 6 then strong
    else excellent in
  {| score := score; strength := strength; entropy := entropy;
     feedback := feedback |}.

(** The score and the tiers as the specification words them. *)
Definition b2z (b : bool) : Z := if b then 1 else 0.

Definition scoreSum (password : jsstring) : Z :=
  let len := Z.of_nat (length password) in
  b2z (8 <=? len) + b2z (12 <=? len) + b2z (16 <=? len) +
  b2z (hasLower password) + b2z (hasUpper password) +
  b2z (hasDigit password) + b2z (hasSymbol password).

Definition tier (score : Z) : Strength :=
  if score <=? 2 then weak
  else if score <=? 4 then fair
  else if score =? 5 then good
  else if score =? 6 then strong
  else excellent.

Definition classSum (password : jsstring) : Z :=
  26 * b2z (hasLower password) + 26 * b2z (hasUpper password) +
  10 * b2z (hasDigit password) + 32 * b2z (hasSymbol password).

End Password.

(** ** The platform: byte arrays, exceptions, randomness

    The functions of the crypto module work on [Uint8Array]s, call the
    platform ([btoa], [atob], [TextEncoder], [TextDecoder],
    [crypto.getRandomValues], [crypto.subtle]) and are [async]: they
    return normally or reject with an exception. *)

Module Web.

(** A [Uint8Array] as a list of bytes. *)
Definition octets := list Byte.byte.

Definition Z_of_byte (b : Byte.byte) : Z := Z.of_N (Byte.to_N b).

(** Storing a number into a [Uint8Array] keeps it modulo 256. *)
Definition byte_of_Z (z : Z) : Byte.byte :=
  match Byte.of_N (Z.to_N (z mod 256)) with
  | Some b => b
  | None => Byte.x00
  end.

(** The string that [String.fromCharCode(...bytes)] gives when the call
    returns: one code unit per byte. The call itself is
    [spreadFromCharCode] below. *)
Definition fromCharCode (bs : octets) : jsstring := map Z_of_byte bs.

(** [new Uint8Array(s.split('').map(c => c.charCodeAt(0)))]. *)
Definition charCodes (s : jsstring) : octets := map byte_of_Z s.

(** [a.slice(start, end)] and [a.slice(start)] for indices within
    [0, infinity): both are clamped to the length. *)
Definition slice (start stop : nat) (a : octets) : octets :=
  firstn (stop - start) (skipn start a).

Definition sliceFrom (start : nat) (a : octets) : octets := skipn start a.

(** [target.set(source, offset)] on a typed array, when [source] fits
    (otherwise a RangeError; the source only stores within bounds). *)
Definition setAt (target source : octets) (offset : nat) : octets :=
  firstn offset target ++ source ++ skipn (offset + length source) target.

(** [new Uint8Array(n)]: [n] zero bytes. *)
Definition newUint8Array (n : nat) : octets := repeat Byte.x00 n.

(** The exceptions the layer can meet: the [DOMException]s of [atob], of
    [crypto.subtle] and of [crypto.getRandomValues], the [RangeError] of
    the engine (a call with too many arguments, a typed array that cannot
    be created), and the [Error] thrown by the source itself. *)
Inductive exn : Type :=
| InvalidCharacterError
| OperationError
| DataError
| InvalidAccessError
| QuotaExceededError
| RangeError
| Error (message : jsstring).

(** The outcome of a call: an exception or a value. *)
Definition result (A : Type) : Type := (exn + A)%type.

Definition ok {A} (a : A) : result A := inr a.
Definition throw {A} (e : exn) : result A := inl e.

Definition bindR {A B} (r : result A) (k : A -> result B) : result B :=
  match r with
  | inl e => inl e
  | inr a => k a
  end.

(** The limits of the engine that runs the code: the largest number of
    arguments that a call can take (a spread call with more is a
    RangeError; the number depends on the engine and its stack, around
    10^5 for the common ones) and the largest length of a typed array that
    it creates. *)
Class Engine : Type := {
  maxArguments : Z;
  maxByteLength : Z
}.

(** [String.fromCharCode(...bytes)]: every byte is an argument of the
    call, so the call throws a RangeError when there are more bytes than
    the engine takes arguments. *)
Definition spreadFromCharCode {E : Engine} (bs : octets) : result jsstring :=
  if Z.of_nat (length bs) <=? maxArguments then ok (fromCharCode bs)
  else throw RangeError.

(** [new Uint8Array(length)] for an integer [length]: a negative length,
    a length of [2^53] or more, and a length above what the engine
    creates are a RangeError. *)
Definition newUint8ArrayOf {E : Engine} (n : Z) : result octets :=
  if (n <? 0) || (Z.min maxByteLength (2 ^ 53 - 1) <? n)
  then throw RangeError
  else ok (newUint8Array (Z.to_nat n)).

(** The source of [crypto.getRandomValues]: an unbounded supply of bytes,
    read in order. *)
Definition Entropy : Type := nat -> Byte.byte.

(** Calls that draw randomness and may reject. *)
Definition M (A : Type) : Type := Entropy -> result A * Entropy.

Definition ret {A} (a : A) : M A := fun e => (inr a, e).

Definition bind {A B} (m : M A) (k : A -> M B) : M B :=
  fun e => match m e with
           | (inl x, e') => (inl x, e')
           | (inr a, e') => k a e'
           end.

Definition lift {A} (r : result A) : M A := fun e => (r, e).

(** [crypto.getRandomValues(new Uint8Array(n))] for a length [n] fixed in
    the source (16, 12 and 32 bytes). *)
Definition getRandomValues (n : nat) : M octets :=
  fun e => (inr (map e (seq 0 n)), fun i => e (n + i)%nat).

(** [crypto.getRandomValues(array)] on an array of any length: more than
    65536 bytes are a QuotaExceededError. *)
Definition getRandomValuesInto (array : octets) : M octets :=
  if 65536 <? Z.of_nat (length array) then lift (throw QuotaExceededError)
  else getRandomValues (length array).

End Web.

Declare Scope web_scope.
Delimit Scope web_scope with web.
Notation "x <- m ;; k" := (Web.bind m (fun x => k))
  (at level 61, m at next level, right associativity) : web_scope.
Notation "x <-- r ;; k" := (Web.bindR r (fun x => k))
  (at level 61, r at next level, right associativity) : web_scope.

(** ** Base64: [btoa] and [atob] *)

Module Base64.
Import Web.

(** The character of a 6-bit value: A-Z, a-z, 0-9, '+', '/'. *)
Definition b64char (v : Z) : Z :=
  if v <? 26 then 65 + v
  else if v <? 52 then 71 + v
  else if v <? 62 then v - 4
  else if v =? 62 then 43
  else 47.

(** The 6-bit value of a character of the alphabet. *)
Definition b64val (c : Z) : option Z :=
  if (65 <=? c) && (c <=? 90) then Some (c - 65)
  else if (97 <=? c) && (c <=? 122) then Some (c - 71)
  else if (48 <=? c) && (c <=? 57) then Some (c + 4)
  else if c =? 43 then Some 62
  else if c =? 47 then Some 63
  else None.

Definition sextet (v : Z) : Prop := 0 <= v < 64.

(** The 6-bit groups of a byte sequence, three bytes to four groups; the
    last group of an incomplete triple is filled with zero bits. *)
Fixpoint sextets (bs : list Z) : list Z :=
  match bs with
  | [] => []
  | [a] => [Z.shiftr a 2; Z.shiftl (Z.land a 3) 4]
  | [a; b] =>
      [Z.shiftr a 2;
       Z.lor (Z.shiftl (Z.land a 3) 4) (Z.shiftr b 4);
       Z.shiftl (Z.land b 15) 2]
  | a :: b :: c :: rest =>
      Z.shiftr a 2
      :: Z.lor (Z.shiftl (Z.land a 3) 4) (Z.shiftr b 4)
      :: Z.lor (Z.shiftl (Z.land b 15) 2) (Z.shiftr c 6)
      :: Z.land c 63
      :: sextets rest
  end.

(** The '=' characters that complete the last group of four: two after
    one remaining byte, one after two. *)
Fixpoint padding (bs : list Z) : jsstring :=
  match bs with
  | [] => []
  | [_] => [61; 61]
  | [_; _] => [61]
  | _ :: _ :: _ :: rest => padding rest
  end.

Definition encode (bs : list Z) : jsstring :=
  map b64char (sextets bs) ++ padding bs.

(** [btoa(s)]: the code units of [s] are taken as bytes; a code unit above
    0xFF is an InvalidCharacterError. *)
Definition btoa (s : jsstring) : result jsstring :=
  if forallb (fun c => c <=? 255) s then ok (encode s)
  else throw InvalidCharacterError.

(** The bytes of a sequence of 6-bit values: four values to three bytes;
    of two or three remaining values the incomplete trailing bits are
    dropped. *)
Fixpoint bytesOf (vs : list Z) : list Z :=
  match vs with
  | a :: b :: c :: d :: rest =>
      Z.lor (Z.shiftl a 2) (Z.shiftr b 4)
      :: Z.lor (Z.shiftl (Z.land b 15) 4) (Z.shiftr c 2)
      :: Z.lor (Z.shiftl (Z.land c 3) 6) d
      :: bytesOf rest
  | [a; b; c] =>
      [Z.lor (Z.shiftl a 2) (Z.shiftr b 4);
       Z.lor (Z.shiftl (Z.land b 15) 4) (Z.shiftr c 2)]
  | [a; b] => [Z.lor (Z.shiftl a 2) (Z.shiftr b 4)]
  | _ => []
  end.

(** TAB, LF, FF, CR and SPACE. *)
Definition isAsciiWhitespace (c : Z) : bool :=
  (c =? 9) || (c =? 10) || (c =? 12) || (c =? 13) || (c =? 32).

(** On the reversed string: the rest after a leading '='. *)
Definition dropEq (r : jsstring) : option jsstring :=
  match r with
  | c :: r' => if c =? 61 then Some r' else None
  | [] => None
  end.

(** Removes one or two '=' at the end. *)
Definition stripPadding (s : jsstring) : jsstring :=
  match dropEq (rev s) with
  | None => s
  | Some r1 =>
      match dropEq r1 with
      | None => rev r1
      | Some r2 => rev r2
      end
  end.

Fixpoint values (s : jsstring) : option (list Z) :=
  match s with
  | [] => Some []
  | c :: s' =>
      match b64val c, values s' with
      | Some v, Some vs => Some (v :: vs)
      | _, _ => None
      end
  end.

(** [atob(s)], the forgiving-base64 decode of the platform: whitespace is
    removed, the padding of a string of length 0 modulo 4 is removed, a
    length of 1 modulo 4 or a character outside the alphabet is an
    InvalidCharacterError; the result has one code unit per byte. *)
Definition atob (s : jsstring) : result jsstring :=
  let s := filter (fun c => negb (isAsciiWhitespace c)) s in
  let s := if (length s mod 4 =? 0)%nat then stripPadding s else s in
  if (length s mod 4 =? 1)%nat then throw InvalidCharacterError
  else match values s with
       | None => throw InvalidCharacterError
       | Some vs => ok (bytesOf vs)
       end.

End Base64.

(** ** UTF-8: [TextEncoder] and [TextDecoder]

    [new TextEncoder().encode(s)] converts the code units of [s] to scalar
    values (a surrogate without its partner becomes U+FFFD) and writes
    their UTF-8 bytes. [new TextDecoder().decode(bytes)] runs the UTF-8
    decoder of the platform with replacement of errors and, as the decoder
    is created without [ignoreBOM], drops one leading U+FEFF from the
    result. *)

Module Utf8.
Import Web.

Definition isLead (c : Z) : bool := (55296 <=? c) && (c <=? 56319).
Definition isTrail (c : Z) : bool := (56320 <=? c) && (c <=? 57343).

Definition replacement : Z := 65533.
Definition BOM : Z := 65279.

(** Code units to scalar values. *)
Fixpoint toScalarValues (s : jsstring) : list Z :=
  match s with
  | [] => []
  | c :: s' =>
      if isLead c then
        match s' with
        | [] => [replacement]
        | d :: s'' =>
            if isTrail d
            then (Z.shiftl (c - 55296) 10 + (d - 56320) + 65536)
                 :: toScalarValues s''
            else replacement :: toScalarValues s'
        end
      else if isTrail c then replacement :: toScalarValues s'
      else c :: toScalarValues s'
  end.

(** The UTF-8 bytes of one scalar value. *)
Definition encodeCodePoint (cp : Z) : list Z :=
  if cp <? 128 then [cp]
  else if cp <? 2048 then
    [Z.shiftr cp 6 + 192; Z.lor 128 (Z.land cp 63)]
  else if cp <? 65536 then
    [Z.shiftr cp 12 + 224;
     Z.lor 128 (Z.land (Z.shiftr cp 6) 63);
     Z.lor 128 (Z.land cp 63)]
  else
    [Z.shiftr cp 18 + 240;
     Z.lor 128 (Z.land (Z.shiftr cp 12) 63);
     Z.lor 128 (Z.land (Z.shiftr cp 6) 63);
     Z.lor 128 (Z.land cp 63)].

Definition encodeUtf8 (s : jsstring) : list Z :=
  flat_map encodeCodePoint (toScalarValues s).

Definition TextEncoder_encode (s : jsstring) : octets :=
  map byte_of_Z (encodeUtf8 s).

(** The state of the UTF-8 decoder. *)
Record decoder : Type := {
  codePoint : Z;
  bytesSeen : Z;
  bytesNeeded : Z;
  lower : Z;
  upper : Z
}.

Definition initial : decoder :=
  {| codePoint := 0; bytesSeen := 0; bytesNeeded := 0;
     lower := 128; upper := 191 |}.

(** A byte read when no sequence is open: an ASCII byte is emitted, a
    lead byte opens a sequence, any other byte is an error. *)
Definition start (b : Z) : decoder * list Z :=
  if b <=? 127 then (initial, [b])
  else if (194 <=? b) && (b <=? 223) then
    ({| codePoint := Z.land b 31; bytesSeen := 0; bytesNeeded := 1;
        lower := 128; upper := 191 |}, [])
  else if (224 <=? b) && (b <=? 239) then
    ({| codePoint := Z.land b 15; bytesSeen := 0; bytesNeeded := 2;
        lower := if b =? 224 then 160 else 128;
        upper := if b =? 237 then 159 else 191 |}, [])
  else if (240 <=? b) && (b <=? 244) then
    ({| codePoint := Z.land b 7; bytesSeen := 0; bytesNeeded := 3;
        lower := if b =? 240 then 144 else 128;
        upper := if b =? 244 then 143 else 191 |}, [])
  else (initial, [replacement]).

(** One byte through the decoder: the new state and the scalar values
    emitted. A byte that cannot continue the open sequence ends it with
    U+FFFD and is read again with no sequence open. *)
Definition step (st : decoder) (b : Z) : decoder * list Z :=
  if bytesNeeded st =? 0 then start b
  else if (b <? lower st) || (upper st <? b) then
    let '(st', out) := start b in (st', replacement :: out)
  else
    let cp := Z.lor (Z.shiftl (codePoint st) 6) (Z.land b 63) in
    if bytesSeen st + 1 =? bytesNeeded st then (initial, [cp])
    else ({| codePoint := cp; bytesSeen := bytesSeen st + 1;
             bytesNeeded := bytesNeeded st;
             lower := 128; upper := 191 |}, []).

(** The decoder over a byte sequence; an open sequence at the end is an
    error. *)
Fixpoint run (st : decoder) (bs : list Z) : list Z :=
  match bs with
  | [] => if bytesNeeded st =? 0 then [] else [replacement]
  | b :: bs' => let '(st', out) := step st b in out ++ run st' bs'
  end.

Definition decodeUtf8 (bs : list Z) : list Z := run initial bs.

(** The code units of a scalar value: a surrogate pair above U+FFFF. *)
Definition codeUnits (cp : Z) : jsstring :=
  if cp <? 65536 then [cp]
  else [55296 + Z.shiftr (cp - 65536) 10; 56320 + Z.land (cp - 65536) 1023].

(** The first scalar value of the output is dropped when it is U+FEFF. *)
Definition stripBOM (cps : list Z) : list Z :=
  match cps with
  | c :: rest => if c =? BOM then rest else cps
  | [] => []
  end.

Definition TextDecoder_decode (bs : octets) : jsstring :=
  flat_map codeUnits (stripBOM (decodeUtf8 (map Z_of_byte bs))).

(** Text that UTF-8 can carry: code units in range, every surrogate in a
    lead-trail pair. *)
Fixpoint wellFormed (s : jsstring) : Prop :=
  match s with
  | [] => True
  | c :: s' =>
      0 <= c < 65536 /\
      if isLead c then
        match s' with
        | d :: s'' => isTrail d = true /\ wellFormed s''
        | [] => False
        end
      else isTrail c = false /\ wellFormed s'
  end.

(** Scalar values: code points that are not surrogates. *)
Definition scalar (cp : Z) : Prop :=
  0 <= cp < 1114112 /\ ~ (55296 <= cp <= 57343).

Definition ascii (c : Z) : Prop := 0 <= c < 128.

End Utf8.

(** ** The primitives behind [crypto.subtle]

    AES-GCM, PBKDF2, HMAC and RSA-OAEP are supplied by the platform and
    are not reimplemented by the layer; they are an interface here. The
    checks that [crypto.subtle] performs around them (key usages, empty
    HMAC key, ciphertext shorter than the tag) are written out below. *)

Module Subtle.
Import Web.

Class Primitives : Type := {
  (** PBKDF2 with SHA-256: password, salt, iterations, length in bytes. *)
  pbkdf2 : octets -> octets -> Z -> nat -> octets;
  (** AES-GCM with a 128-bit tag: key, iv, plaintext; the result is the
      ciphertext followed by the tag. *)
  gcm_seal : octets -> octets -> octets -> octets;
  (** AES-GCM decryption: [None] when the tag does not verify. *)
  gcm_open : octets -> octets -> octets -> option octets;
  (** HMAC with SHA-256: key, message. *)
  hmac_sha256 : octets -> octets -> octets;
  rsa_public : Type;
  rsa_private : Type;
  (** RSA key generation for a modulus length in bits. *)
  rsa_generate : Z -> Entropy -> (rsa_public * rsa_private) * Entropy;
  spki_export : rsa_public -> octets;
  spki_import : octets -> option rsa_public;
  pkcs8_export : rsa_private -> octets;
  pkcs8_import : octets -> option rsa_private;
  (** RSA-OAEP with SHA-256: key, 32-byte seed, message; [None] when the
      message is too long for the modulus. *)
  oaep_encrypt : rsa_public -> octets -> octets -> option octets;
  oaep_decrypt : rsa_private -> octets -> option octets
}.

(** What the round trips rely on: authenticated decryption inverts
    encryption under the same 256-bit key and 96-bit iv, the tag adds 16
    bytes, exported keys import back, and RSA-OAEP decryption with the
    private key of a generated pair inverts encryption with its public key
    for messages within the ceiling of [k - 2 * 32 - 2] bytes. *)
Class PrimitiveLaws (P : Primitives) : Prop := {
  pbkdf2_length : forall pw salt it n, length (pbkdf2 pw salt it n) = n;
  gcm_seal_length : forall k iv pt,
    length (gcm_seal k iv pt) = (length pt + 16)%nat;
  gcm_open_seal : forall k iv pt,
    length k = 32%nat -> length iv = 12%nat ->
    gcm_open k iv (gcm_seal k iv pt) = Some pt;
  spki_import_export : forall pk, spki_import (spki_export pk) = Some pk;
  pkcs8_import_export : forall sk, pkcs8_import (pkcs8_export sk) = Some sk;
  oaep_decrypt_encrypt : forall bits e pk sk e' seed m,
    bits = 2048 \/ bits = 4096 ->
    rsa_generate bits e = ((pk, sk), e') ->
    length seed = 32%nat ->
    Z.of_nat (length m) <= bits / 8 - 66 ->
    exists c, oaep_encrypt pk seed m = Some c /\ c <> [] /\
              oaep_decrypt sk c = Some m
}.

Inductive usage : Type :=
| Uencrypt | Udecrypt | UderiveKey | Usign.

Definition usage_eqb (a b : usage) : bool :=
  match a, b with
  | Uencrypt, Uencrypt | Udecrypt, Udecrypt
  | UderiveKey, UderiveKey | Usign, Usign => true
  | _, _ => false
  end.

Section WithPrimitives.
Context {P : Primitives}.

Inductive keyMaterial : Type :=
| Pbkdf2Key (password : octets)
| AesGcmKey (key : octets)
| HmacKey (key : octets)
| RsaPublicKey (pk : rsa_public)
| RsaPrivateKey (sk : rsa_private).

Record CryptoKey : Type := {
  material : keyMaterial;
  usages : list usage
}.

Definition allows (u : usage) (k : CryptoKey) : bool :=
  existsb (usage_eqb u) (usages k).

(** [importKey('raw', data, {name: 'PBKDF2'}, false, usages)]. *)
Definition importKey_PBKDF2 (data : octets) (us : list usage)
  : result CryptoKey :=
  ok {| material := Pbkdf2Key data; usages := us |}.

(** [deriveKey({name: 'PBKDF2', salt, iterations, hash: 'SHA-256'}, base,
    {name: 'AES-GCM', length}, false, usages)]. *)
Definition deriveKey_PBKDF2_AES_GCM (salt : octets) (iterations : Z)
    (base : CryptoKey) (lengthBits : Z) (us : list usage)
  : result CryptoKey :=
  if allows UderiveKey base then
    match material base with
    | Pbkdf2Key pw =>
        ok {| material :=
                AesGcmKey (pbkdf2 pw salt iterations
                             (Z.to_nat (lengthBits / 8)));
              usages := us |}
    | _ => throw InvalidAccessError
    end
  else throw InvalidAccessError.

(** [encrypt({name: 'AES-GCM', iv}, key, data)]. *)
Definition encrypt_AES_GCM (iv : octets) (key : CryptoKey) (data : octets)
  : result octets :=
  if allows Uencrypt key then
    match material key with
    | AesGcmKey k => ok (gcm_seal k iv data)
    | _ => throw InvalidAccessError
    end
  else throw InvalidAccessError.

(** [decrypt({name: 'AES-GCM', iv}, key, data)]: data shorter than the
    128-bit tag and a tag that does not verify both reject with an
    OperationError. *)
Definition decrypt_AES_GCM (iv : octets) (key : CryptoKey) (data : octets)
  : result octets :=
  if allows Udecrypt key then
    match material key with
    | AesGcmKey k =>
        if (length data <? 16)%nat then throw OperationError
        else match gcm_open k iv data with
             | Some pt => ok pt
             | None => throw OperationError
             end
    | _ => throw InvalidAccessError
    end
  else throw InvalidAccessError.

(** [importKey('raw', data, {name: 'HMAC', hash: 'SHA-256'}, false,
    usages)]: key data of length zero is a DataError. *)
Definition importKey_HMAC (data : octets) (us : list usage)
  : result CryptoKey :=
  if (length data =? 0)%nat then throw DataError
  else ok {| material := HmacKey data; usages := us |}.

(** [sign('HMAC', key, data)]. *)
Definition sign_HMAC (key : CryptoKey) (data : octets) : result octets :=
  if allows Usign key then
    match material key with
    | HmacKey k => ok (hmac_sha256 k data)
    | _ => throw InvalidAccessError
    end
  else throw InvalidAccessError.

(** [generateKey({name: 'RSA-OAEP', modulusLength, ...}, true,
    ['encrypt', 'decrypt'])]: the public key gets the usage [encrypt],
    the private key the usage [decrypt]. *)
Definition generateKey_RSA_OAEP (modulusLength : Z)
  : M (CryptoKey * CryptoKey) :=
  fun e =>
    let '((pk, sk), e') := rsa_generate modulusLength e in
    (inr ({| material := RsaPublicKey pk; usages := [Uencrypt] |},
          {| material := RsaPrivateKey sk; usages := [Udecrypt] |}), e').

Definition exportKey_spki (key : CryptoKey) : result octets :=
  match material key with
  | RsaPublicKey pk => ok (spki_export pk)
  | _ => throw InvalidAccessError
  end.

Definition exportKey_pkcs8 (key : CryptoKey) : result octets :=
  match material key with
  | RsaPrivateKey sk => ok (pkcs8_export sk)
  | _ => throw InvalidAccessError
  end.

(** [importKey('spki', data, {name: 'RSA-OAEP', hash: 'SHA-256'}, false,
    usages)]: data that is not a key is a DataError. *)
Definition importKey_spki (data : octets) (us : list usage)
  : result CryptoKey :=
  match spki_import data with
  | Some pk => ok {| material := RsaPublicKey pk; usages := us |}
  | None => throw DataError
  end.

Definition importKey_pkcs8 (data : octets) (us : list usage)
  : result CryptoKey :=
  match pkcs8_import data with
  | Some sk => ok {| material := RsaPrivateKey sk; usages := us |}
  | None => throw DataError
  end.

(** [encrypt({name: 'RSA-OAEP'}, key, data)]: a fresh 32-byte seed; a
    message above the ceiling is an OperationError. *)
Definition encrypt_RSA_OAEP (key : CryptoKey) (data : octets) : M octets :=
  if allows Uencrypt key then
    match material key with
    | RsaPublicKey pk =>
        (seed <- getRandomValues 32 ;;
         match oaep_encrypt pk seed data with
         | Some c => ret c
         | None => lift (throw OperationError)
         end)%web
    | _ => lift (throw InvalidAccessError)
    end
  else lift (throw InvalidAccessError).

(** [decrypt({name: 'RSA-OAEP'}, key, data)]. *)
Definition decrypt_RSA_OAEP (key : CryptoKey) (data : octets)
  : result octets :=
  if allows Udecrypt key then
    match material key with
    | RsaPrivateKey sk =>
        match oaep_decrypt sk data with
        | Some m => ok m
        | None => throw OperationError
        end
    | _ => throw InvalidAccessError
    end
  else throw InvalidAccessError.

End WithPrimitives.

End Subtle.

(** ** The crypto module of the application *)

Module Crypto.
Import Web Base64 Utf8 Subtle.
Local Open Scope web_scope.

Record Metadata : Type := {
  encryptedKey : option jsstring;
  algorithm : option jsstring
}.

Record EncryptionResult : Type := {
  encrypted : jsstring;
  iv : option jsstring;
  salt : option jsstring;
  metadata : option Metadata
}.

Record KeyPair : Type := {
  publicKey : jsstring;
  privateKey : jsstring;
  keySize : Z;
  created : jsstring
}.

(** The three slices of [decryptAES256]. *)
Definition envelopeSalt (combined : octets) : octets := slice 0 16 combined.
Definition envelopeIv (combined : octets) : octets := slice 16 28 combined.
Definition envelopeData (combined : octets) : octets := sliceFrom 28 combined.

(** The number of bytes of the envelope of a text: salt, iv, the UTF-8
    bytes of the text and the tag. It is the number of arguments of the
    spread call of [encryptAES256] on [combined]. *)
Definition envelopeLength (text : jsstring) : Z :=
  16 + 12 + Z.of_nat (length (TextEncoder_encode text)) + 16.

(** [b.toString(16).padStart(2, '0')] over the bytes, joined. *)
Definition hexOf (bs : octets) : jsstring :=
  flat_map (fun b => padStart 2 48 (toStringRadix 16 (Z_of_byte b))) bs.

Section WithPrimitives.
Context {P : Primitives} {E : Engine}.

(** The buffer [combined] of [encryptAES256]: allocated with the three
    lengths, then filled by three [set] calls. *)
Definition combine (salt iv encrypted : octets) : octets :=
  let combined :=
    newUint8Array (length salt + length iv + length encrypted) in
  let combined := setAt combined salt 0 in
  let combined := setAt combined iv (length salt) in
  setAt combined encrypted (length salt + length iv).

(** The values of one [encryptAES256] call on the entropy [e]: the salt
    is its first 16 bytes, the iv its next 12, the key is derived from
    the password and the salt, and the sealed data is the ciphertext with
    its tag. *)
Definition saltOf (e : Entropy) : octets := map e (seq 0 16).
Definition ivOf (e : Entropy) : octets :=
  map (fun i => e (16 + i)%nat) (seq 0 12).
Definition keyOf (password : jsstring) (salt : octets) : octets :=
  pbkdf2 (TextEncoder_encode password) salt 100000 32.
Definition sealedOf (text password : jsstring) (e : Entropy) : octets :=
  gcm_seal (keyOf password (saltOf e)) (ivOf e) (TextEncoder_encode text).

Definition encryptAES256 (text password : jsstring) : M EncryptionResult :=
  let data := TextEncoder_encode text in
  salt <- getRandomValues 16 ;;
  keyMaterial <-
    lift (importKey_PBKDF2 (TextEncoder_encode password) [UderiveKey]) ;;
  key <-
    lift (deriveKey_PBKDF2_AES_GCM salt 100000 keyMaterial 256 [Uencrypt]) ;;
  iv <- getRandomValues 12 ;;
  encrypted <- lift (encrypt_AES_GCM iv key data) ;;
  let combined := combine salt iv encrypted in
  e <- lift (chars <-- spreadFromCharCode combined ;; btoa chars) ;;
  s <- lift (chars <-- spreadFromCharCode salt ;; btoa chars) ;;
  i <- lift (chars <-- spreadFromCharCode iv ;; btoa chars) ;;
  ret {| encrypted := e; iv := Some i; salt := Some s; metadata := None |}.

Definition decryptAES256 (encryptedData password : jsstring)
  : result jsstring :=
  bin <-- atob encryptedData ;;
  let combined := charCodes bin in
  let salt := envelopeSalt combined in
  let iv := envelopeIv combined in
  let encrypted := envelopeData combined in
  keyMaterial <--
    importKey_PBKDF2 (TextEncoder_encode password) [UderiveKey] ;;
  key <-- deriveKey_PBKDF2_AES_GCM salt 100000 keyMaterial 256 [Udecrypt] ;;
  decrypted <-- decrypt_AES_GCM iv key encrypted ;;
  ok (TextDecoder_decode decrypted).

(** [now] is the value of [new Date().toISOString()] at the call. The two
    spread calls are on the exported keys, whose sizes are fixed by the
    modulus (a few hundred to a few thousand bytes): they are taken to be
    within the argument limit of the engine, as is the spread call of
    [encryptRSA] on one RSA block. *)
Definition generateRSAKeyPair (keySize : Z) (now : jsstring) : M KeyPair :=
  keyPair <- generateKey_RSA_OAEP keySize ;;
  publicKey <- lift (exportKey_spki (fst keyPair)) ;;
  privateKey <- lift (exportKey_pkcs8 (snd keyPair)) ;;
  pub <- lift (btoa (fromCharCode publicKey)) ;;
  priv <- lift (btoa (fromCharCode privateKey)) ;;
  ret {| publicKey := pub; privateKey := priv; keySize := keySize;
         created := now |}.

Definition encryptRSA (text publicKeyB64 : jsstring) : M jsstring :=
  let data := TextEncoder_encode text in
  bin <- lift (atob publicKeyB64) ;;
  let publicKeyBuffer := charCodes bin in
  publicKey <- lift (importKey_spki publicKeyBuffer [Uencrypt]) ;;
  encrypted <- encrypt_RSA_OAEP publicKey data ;;
  lift (btoa (fromCharCode encrypted)).

Definition decryptRSA (encryptedData privateKeyB64 : jsstring)
  : result jsstring :=
  bin <-- atob privateKeyB64 ;;
  let privateKeyBuffer := charCodes bin in
  privateKey <-- importKey_pkcs8 privateKeyBuffer [Udecrypt] ;;
  bin' <-- atob encryptedData ;;
  let encryptedBuffer := charCodes bin' in
  decrypted <-- decrypt_RSA_OAEP privateKey encryptedBuffer ;;
  ok (TextDecoder_decode decrypted).

Definition generateHMAC (text secret : jsstring) : result jsstring :=
  let keyData := TextEncoder_encode secret in
  let messageData := TextEncoder_encode text in
  key <-- importKey_HMAC keyData [Usign] ;;
  signature <-- sign_HMAC key messageData ;;
  ok (hexOf signature).

Definition hybridEncrypt (text publicKeyB64 : jsstring)
  : M EncryptionResult :=
  aesKey <- getRandomValues 32 ;;
  aesKeyB64 <- lift (chars <-- spreadFromCharCode aesKey ;; btoa chars) ;;
  aesResult <- encryptAES256 text aesKeyB64 ;;
  encryptedKey <- encryptRSA aesKeyB64 publicKeyB64 ;;
  ret {| encrypted := encrypted aesResult;
         iv := iv aesResult;
         salt := salt aesResult;
         metadata := Some {| encryptedKey := Some encryptedKey;
                             algorithm := Some (lit "hybrid") |} |}.

(** [!metadata?.encryptedKey]: no metadata, no key in it, or an empty
    string. *)
Definition missingKey (metadata : option Metadata) : bool :=
  match metadata with
  | Some {| encryptedKey := Some (_ :: _) |} => false
  | _ => true
  end.

Definition hybridDecrypt (encryptedData privateKeyB64 : jsstring)
    (metadata : option Metadata) : result jsstring :=
  if missingKey metadata
  then throw (Error (lit "Missing encrypted key in metadata"))
  else
    match metadata with
    | Some {| encryptedKey := Some key |} =>
        aesKey <-- decryptRSA key privateKeyB64 ;;
        decryptAES256 encryptedData aesKey
    | _ => throw (Error (lit "Missing encrypted key in metadata"))
    end.

End WithPrimitives.

(** *** A reference instance of the primitives

    A small instance with the shape of the real primitives (16-byte tag
    that depends on key and iv, keys that export to bytes) shows that the
    laws can be met and lets the functions be evaluated. It has no
    security. *)

Fixpoint octets_eqb (a b : octets) : bool :=
  match a, b with
  | [], [] => true
  | x :: a', y :: b' => Byte.eqb x y && octets_eqb a' b'
  | _, _ => false
  end.

Definition refTag (k iv : octets) : octets :=
  firstn 16 (iv ++ k ++ repeat Byte.x00 16).

Definition refPrimitives : Primitives := {|
  pbkdf2 := fun pw salt _ n => firstn n (pw ++ salt ++ repeat Byte.x00 n);
  gcm_seal := fun k iv pt => pt ++ refTag k iv;
  gcm_open := fun k iv ct =>
    let n := (length ct - 16)%nat in
    if octets_eqb (skipn n ct) (refTag k iv) then Some (firstn n ct)
    else None;
  hmac_sha256 := fun k m => firstn 32 (k ++ m ++ repeat Byte.x00 32);
  rsa_public := octets;
  rsa_private := octets;
  rsa_generate := fun bits e =>
    let k := map e (seq 0 4) in ((k, k), fun i => e (4 + i)%nat);
  spki_export := fun pk => pk;
  spki_import := fun bs => Some bs;
  pkcs8_export := fun sk => sk;
  pkcs8_import := fun bs => Some bs;
  oaep_encrypt := fun pk seed m => Some (firstn 1 seed ++ m ++ pk);
  oaep_decrypt := fun sk c =>
    let n := (length c - length sk)%nat in
    if octets_eqb (skipn n c) sk then Some (skipn 1 (firstn n c)) else None
|}.

(** An engine for the examples, with limits of the size of the common
    ones. *)
Definition refEngine : Engine :=
  {| maxArguments := 100000; maxByteLength := 2 ^ 32 - 1 |}.

(** A fixed entropy source for the examples. *)
Definition countingEntropy : Entropy :=
  fun i => byte_of_Z (Z.of_nat (7 * i + 3)).

(** A key pair of the reference instance, as [generateRSAKeyPair]
    returns it. *)
Definition refKeyPair : KeyPair :=
  match fst (generateRSAKeyPair (P := refPrimitives) 2048
               (lit "2026-01-01T00:00:00.000Z") countingEntropy) with
  | inr K => K
  | inl _ => {| publicKey := []; privateKey := []; keySize := 0;
                created := [] |}
  end.

End Crypto.

(** ** The handlers of the steganography component

    [handleHideText] and [handleRevealText] wrap the codec with the
    optional password: the text written to the image is
    [btoa(secretText + '|' + password)] when a password is set. The image
    is its pixel bytes here: the canvas is drawn from the loaded image and
    saved as PNG, and the PNG that one handler writes and the other loads
    is taken to carry the same bytes (as it does for opaque pixels). The
    toasts are kept as the outcome of the handler. *)

Module StegoUi.
Import Web Base64 Stego.

(** The characters '0' and '1'. *)
Definition bitChar (c : Z) : Prop := c = 48 \/ c = 49.

(** The code units that [String.prototype.trim] removes: the white space
    and line terminator characters of the language. *)
Definition isWhiteSpace (c : Z) : bool :=
  (c =? 9) || (c =? 10) || (c =? 11) || (c =? 12) || (c =? 13) ||
  (c =? 32) || (c =? 160) || (c =? 5760) ||
  ((8192 <=? c) && (c <=? 8202)) ||
  (c =? 8232) || (c =? 8233) || (c =? 8239) || (c =? 8287) ||
  (c =? 12288) || (c =? 65279).

(** [!s.trim()]: nothing is left after trimming. *)
Definition isBlank (s : jsstring) : bool := forallb isWhiteSpace s.

(** [s.split(sep)] for a one-character separator. *)
Fixpoint split (sep : Z) (s : jsstring) : list jsstring :=
  match s with
  | [] => [[]]
  | c :: s' =>
      if c =? sep then [] :: split sep s'
      else match split sep s' with
           | p :: ps => (c :: p) :: ps
           | [] => [[c]]
           end
  end.

(** [a === b] on strings. *)
Fixpoint strEq (a b : jsstring) : bool :=
  match a, b with
  | [], [] => true
  | x :: a', y :: b' => (x =? y) && strEq a' b'
  | _, _ => false
  end.

(** [password ? btoa(secretText + '|' + password) : secretText]. *)
Definition textToHide (secretText password : jsstring) : result jsstring :=
  match password with
  | [] => ok secretText
  | _ :: _ => btoa (secretText ++ lit "|" ++ password)
  end.

Inductive HideOutcome : Type :=
| MissingData
| HideFailed
| TextHidden (image : bytes) (characters : Z).

(** [handleHideText]: [originalImage] is [None] when no image is loaded;
    an exception of [btoa] is caught and reported as a failure. *)
Definition handleHideText (originalImage : option bytes)
    (secretText password : jsstring) : HideOutcome :=
  match originalImage with
  | None => MissingData
  | Some data =>
      if isBlank secretText then MissingData
      else match textToHide secretText password with
           | inl _ => HideFailed
           | inr text =>
               TextHidden (hideTextInImage data text)
                          (Z.of_nat (length secretText))
           end
  end.

Inductive RevealOutcome : Type :=
| NoImage
| TextRevealed (text : jsstring)
| TextRevealedUnprotected (text : jsstring)
| WrongPassword
| NoHiddenText.

(** The branches of [handleRevealText] on the extracted text: with a
    password the text is decoded and split at '|'; when [atob] throws, the
    extracted text is shown as it is ("no password protection
    detected"). *)
Definition revealDecision (hiddenText password : jsstring) : RevealOutcome :=
  match hiddenText with
  | [] => NoHiddenText
  | _ :: _ =>
      match password with
      | [] => TextRevealed hiddenText
      | _ :: _ =>
          match atob hiddenText with
          | inr decoded =>
              let parts := split 124 decoded in
              if (length parts =? 2)%nat && strEq (nth 1 parts []) password
              then TextRevealed (nth 0 parts [])
              else WrongPassword
          | inl _ => TextRevealedUnprotected hiddenText
          end
      end
  end.

Definition handleRevealText (originalImage : option bytes)
    (password : jsstring) : RevealOutcome :=
  match originalImage with
  | None => NoImage
  | Some data => revealDecision (revealTextFromImage data) password
  end.

End StegoUi.

(** ** The rest of the crypto module

    The digests, the functions named after ChaCha20 (which use AES-GCM
    with the padded password as the raw key) and the password
    generator. *)

Module CryptoRest.
Import Js Web Base64 Utf8 Subtle Crypto Password.
Local Open Scope web_scope.

(** [s.padEnd(n, fill)] for a one-character [fill]. *)
Definition padEnd (n : nat) (fill : Z) (s : jsstring) : jsstring :=
  s ++ repeat fill (n - length s).

(** A code unit of a string: [0 .. 0xFFFF]. *)
Definition codeUnit (c : Z) : Prop := 0 <= c < 65536.

(** [crypto.subtle.digest] for SHA-256 and SHA-512. *)
Class Digests : Type := {
  sha256 : octets -> octets;
  sha512 : octets -> octets
}.

Class DigestLaws (D : Digests) : Prop := {
  sha256_length : forall m, length (sha256 m) = 32%nat;
  sha512_length : forall m, length (sha512 m) = 64%nat
}.

Definition hashSHA256 {D : Digests} (text : jsstring) : jsstring :=
  let data := TextEncoder_encode text in
  let hashBuffer := sha256 data in
  hexOf hashBuffer.

Definition hashSHA512 {D : Digests} (text : jsstring) : jsstring :=
  let data := TextEncoder_encode text in
  let hashBuffer := sha512 data in
  hexOf hashBuffer.

(** A digest instance with the output lengths of the real ones, for
    evaluation; it has no security. *)
Definition refDigests : Digests := {|
  sha256 := fun m => firstn 32 (m ++ repeat Byte.x00 32);
  sha512 := fun m => firstn 64 (m ++ repeat Byte.x00 64)
|}.

Section WithPrimitives.
Context {P : Primitives} {E : Engine}.

(** [importKey('raw', data, {name: 'AES-GCM'}, false, usages)]: key data
    that is not 128, 192 or 256 bits long is a DataError. *)
Definition importKey_AES_GCM (data : octets) (us : list usage)
  : result CryptoKey :=
  if ((length data =? 16) || (length data =? 24) || (length data =? 32))%nat
  then ok {| material := AesGcmKey data; usages := us |}
  else throw DataError.

(** The key data of both functions: [encoder.encode(password.padEnd(32,
    '0'))]. *)
Definition paddedKey (password : jsstring) : octets :=
  TextEncoder_encode (padEnd 32 48 password).

(** The salt is generated and returned, and used for nothing. The spread
    call on the ciphertext has as many arguments as the text has UTF-8
    bytes, and 16 for the tag. *)
Definition encryptChaCha20 (text password : jsstring) : M EncryptionResult :=
  let data := TextEncoder_encode text in
  salt <- getRandomValues 16 ;;
  key <- lift (importKey_AES_GCM (paddedKey password) [Uencrypt]) ;;
  iv <- getRandomValues 12 ;;
  encrypted <- lift (encrypt_AES_GCM iv key data) ;;
  e <- lift (chars <-- spreadFromCharCode encrypted ;; btoa chars) ;;
  i <- lift (chars <-- spreadFromCharCode iv ;; btoa chars) ;;
  s <- lift (chars <-- spreadFromCharCode salt ;; btoa chars) ;;
  ret {| encrypted := e; iv := Some i; salt := Some s; metadata := None |}.

Definition decryptChaCha20 (encryptedData password iv salt : jsstring)
  : result jsstring :=
  key <-- importKey_AES_GCM (paddedKey password) [Udecrypt] ;;
  bin <-- atob iv ;;
  let ivArray := charCodes bin in
  bin' <-- atob encryptedData ;;
  let encryptedArray := charCodes bin' in
  decrypted <-- decrypt_AES_GCM ivArray key encryptedArray ;;
  ok (TextDecoder_decode decrypted).

End WithPrimitives.

(** *** The password generator *)

(** The [options] argument: a field that is absent is [None] and
    defaults to [true]. *)
Record Options : Type := {
  includeLowercase : option bool;
  includeUppercase : option bool;
  includeNumbers : option bool;
  includeSymbols : option bool
}.

Definition noOptions : Options :=
  {| includeLowercase := None; includeUppercase := None;
     includeNumbers := None; includeSymbols := None |}.

Definition orTrue (o : option bool) : bool :=
  match o with
  | Some b => b
  | None => true
  end.

Definition lowercase : jsstring := lit "abcdefghijklmnopqrstuvwxyz".
Definition uppercase : jsstring := lit "ABCDEFGHIJKLMNOPQRSTUVWXYZ".
Definition numbers : jsstring := lit "0123456789".
Definition symbols : jsstring := lit "!@#$%^&*()_+-=[]{}|;:,.<>?".

Definition charsetOf (o : Options) : jsstring :=
  let charset := [] in
  let charset :=
    if orTrue (includeLowercase o) then charset ++ lowercase else charset in
  let charset :=
    if orTrue (includeUppercase o) then charset ++ uppercase else charset in
  let charset :=
    if orTrue (includeNumbers o) then charset ++ numbers else charset in
  if orTrue (includeSymbols o) then charset ++ symbols else charset.

(** [charset[byte % charset.length]]. *)
Definition pickIndex (charset : jsstring) (byte : Byte.byte) : nat :=
  Z.to_nat (Z_of_byte byte mod Z.of_nat (length charset)).

Definition pick (charset : jsstring) (byte : Byte.byte) : Z :=
  nth (pickIndex charset byte) charset 0.

(** [generateSecurePassword(length, options)] for an integer [length]
    (the default is 16): the [Error] of the source when no character is
    selected, then [new Uint8Array(length)], then
    [crypto.getRandomValues] on it, then one character for each byte. *)
Definition generateSecurePassword {E : Engine} (length : Z)
    (options : Options) : M jsstring :=
  let charset := charsetOf options in
  match charset with
  | [] =>
      lift (throw
              (Error (lit "At least one character type must be selected")))
  | _ :: _ =>
      array <- lift (newUint8ArrayOf length) ;;
      randomValues <- getRandomValuesInto array ;;
      ret (map (pick charset) randomValues)
  end.

(** The 256 byte values, and the number of them that select the
    character at [index]. *)
Definition allBytes : octets := map (fun n => byte_of_Z (Z.of_nat n)) (seq 0 256).

Definition preimages (charset : jsstring) (index : nat) : nat :=
  List.length (filter (fun b => (pickIndex charset b =? index)%nat) allBytes).

End CryptoRest.

(** ** The encryption card

    The legacy ciphers of the [EncryptionCard] component and its
    [processText], which dispatches on the selected algorithm and shows
    the result or an error text. *)

Module Card.
Import Js Web Base64 Utf8 Subtle Crypto StegoUi.
Local Open Scope web_scope.

(** The class [[a-zA-Z]]. *)
Definition isLetter (c : Z) : bool :=
  ((97 <=? c) && (c <=? 122)) || ((65 <=? c) && (c <=? 90)).

(** [text.replace(/[a-zA-Z]/g, f)] for an [f] that returns one code
    unit. *)
Definition replaceLetters (f : Z -> Z) (text : jsstring) : jsstring :=
  map (fun char => if isLetter char then f char else char) text.

(** [String.fromCharCode(n)] for an integer: the value modulo [2^16]. *)
Definition fromCharCode1 (n : Z) : Z := n mod 65536.

(** The number that holds an integer: a double has 53 significant bits,
    and an integer with more is rounded to 53 bits, to the nearest and on
    a tie to the even one. *)
Definition roundDouble (z : Z) : Z :=
  let a := Z.abs z in
  if a <? 2 ^ 53 then z
  else
    let e := Z.log2 a - 52 in
    let q := a / 2 ^ e in
    let r := a mod 2 ^ e in
    let half := 2 ^ (e - 1) in
    let q := if (half <? r) || ((r =? half) && Z.odd q) then q + 1 else q in
    Z.sgn z * (q * 2 ^ e).

(** [a + b] on two numbers that hold integers: the sum, rounded. *)
Definition addNumber (a b : Z) : Z := roundDouble (a + b).

(** The shift is the value of a number that holds a finite integer (it
    comes from [parseInt(e.target.value) || 0]); the two additions of the
    shift and of 26 round as the numbers of the language do, the
    difference [charCode - start], the negation, the remainder and the
    last addition are exact. [%] truncates towards zero: [Z.rem]. *)
Definition caesarCipher (text : jsstring) (shift : Z) (decrypt : bool)
  : jsstring :=
  let actualShift := if decrypt then - shift else shift in
  replaceLetters
    (fun char =>
       let start := if 97 <=? char then 97 else 65 in
       fromCharCode1
         (Z.rem (addNumber (addNumber (char - start) actualShift) 26) 26
          + start))
    text.

Definition base64Process (text : jsstring) (decrypt : bool) : jsstring :=
  match (if decrypt then atob text else btoa text) with
  | inr r => r
  | inl _ => lit "Invalid Base64 input"
  end.

Definition rot13Process (text : jsstring) : jsstring :=
  replaceLetters
    (fun char =>
       let start := if 97 <=? char then 97 else 65 in
       fromCharCode1 (Z.rem (char - start + 13) 26 + start))
    text.

(** The loop of both XOR functions, from index [i]: the code unit at [i]
    is combined with [password.charCodeAt(i % password.length)]. *)
Fixpoint xorFrom (i : nat) (text password : jsstring) : jsstring :=
  match text with
  | [] => []
  | c :: text' =>
      fromCharCode1 (Z.lxor c (nth (i mod length password) password 0))
      :: xorFrom (S i) text' password
  end.

(** [btoa] throws when a combined code unit is above 0xFF; the function
    has no handler of its own. *)
Definition xorCipher (text password : jsstring) : result jsstring :=
  match password with
  | [] => ok (lit "Password required for XOR cipher")
  | _ :: _ => btoa (xorFrom 0 text password)
  end.

Definition xorDecipher (text password : jsstring) : jsstring :=
  match password with
  | [] => lit "Password required for XOR cipher"
  | _ :: _ =>
      match atob text with
      | inr decoded => xorFrom 0 decoded password
      | inl _ => lit "Invalid encrypted text"
      end
  end.

Inductive Mode : Type := encrypt | decrypt.

(** The ids of the [algorithms] list; [otherAlgorithm] is any other
    string, the [default] case of the [switch]. *)
Inductive AlgorithmId : Type :=
| aes256 | rsa | caesar | base64 | rot13 | xor | otherAlgorithm.

(** The state that [processText] reads. *)
Record CardState : Type := {
  inputText : jsstring;
  mode : Mode;
  algorithm : AlgorithmId;
  caesarShift : Z;
  xorPassword : jsstring;
  aesPassword : jsstring;
  rsaPublicKey : jsstring;
  rsaPrivateKey : jsstring
}.

Definition isDecrypt (m : Mode) : bool :=
  match m with
  | decrypt => true
  | encrypt => false
  end.

Section WithPrimitives.
Context {P : Primitives} {E : Engine}.

(** The body of the [try] block after the guards: the value of [result],
    or the exception that reaches the [catch]. *)
Definition processResult (st : CardState) : M jsstring :=
  match algorithm st with
  | aes256 =>
      match mode st with
      | encrypt =>
          encrypted <- encryptAES256 (inputText st) (aesPassword st) ;;
          ret (Crypto.encrypted encrypted)
      | decrypt => lift (decryptAES256 (inputText st) (aesPassword st))
      end
  | rsa =>
      match mode st with
      | encrypt => encryptRSA (inputText st) (rsaPublicKey st)
      | decrypt => lift (decryptRSA (inputText st) (rsaPrivateKey st))
      end
  | caesar =>
      ret (caesarCipher (inputText st) (caesarShift st) (isDecrypt (mode st)))
  | base64 => ret (base64Process (inputText st) (isDecrypt (mode st)))
  | rot13 => ret (rot13Process (inputText st))
  | xor =>
      if isDecrypt (mode st)
      then ret (xorDecipher (inputText st) (xorPassword st))
      else lift (xorCipher (inputText st) (xorPassword st))
  | otherAlgorithm => ret (inputText st)
  end.

(** [processText]: the text given to [setOutputText]. *)
Definition processText (st : CardState) : Entropy -> jsstring * Entropy :=
  fun e =>
    if isBlank (inputText st) then ([], e)
    else
      match algorithm st, mode st, aesPassword st, rsaPublicKey st,
            rsaPrivateKey st with
      | aes256, _, [], _, _ =>
          (lit "Password required for AES-256 encryption", e)
      | rsa, encrypt, _, [], _ =>
          (lit "Public key required for RSA encryption", e)
      | rsa, decrypt, _, _, [] =>
          (lit "Private key required for RSA decryption", e)
      | _, _, _, _, _ =>
          match processResult st e with
          | (inr result, e') => (result, e')
          | (inl _, e') => (lit "Error: Invalid input or operation failed", e')
          end
      end.

End WithPrimitives.

End Card.

(** ** The hash suite

    [processHash] of the [HashSuite] component: two guards, the dispatch
    to the four hash functions, and the history of the last results. *)

Module HashSuite.
Import Js Web Utf8 Subtle Crypto Checksum CryptoRest StegoUi.
Local Open Scope web_scope.

(** The type [HashAlgorithm]: 'sha256', 'sha512', 'md5' or 'hmac'. *)
Inductive HashAlgorithm : Type := SHA256 | SHA512 | MD5 | HMAC.

Record HashResult : Type := {
  algorithm : HashAlgorithm;
  input : jsstring;
  output : jsstring;
  timestamp : jsstring
}.

(** What a call of [processHash] ends in: one of the two toasts of the
    guards, the new [hashResult] and [hashHistory], or the toast of the
    [catch] block. *)
Inductive Outcome : Type :=
| InputRequired
| SecretRequired
| HashGenerated (hashResult : jsstring) (hashHistory : list HashResult)
| HashGenerationFailed.

(** [inputText.substring(0, 100) + (inputText.length > 100 ? '...' :
    '')]. *)
Definition abbreviate (inputText : jsstring) : jsstring :=
  firstn 100 inputText
  ++ (if (100 <? length inputText)%nat then lit "..." else []).

Section WithPrimitives.
Context {P : Primitives} {D : Digests}.

(** The [switch]: the value of [result], or the exception thrown. *)
Definition hashOf (selectedAlgorithm : HashAlgorithm)
    (inputText hmacSecret : jsstring) : result jsstring :=
  match selectedAlgorithm with
  | SHA256 => ok (hashSHA256 inputText)
  | SHA512 => ok (hashSHA512 inputText)
  | MD5 => ok (hashMD5 inputText)
  | HMAC => generateHMAC inputText hmacSecret
  end.

(** [now] is the value of [new Date().toISOString()] at the call. *)
Definition processHash (inputText : jsstring)
    (selectedAlgorithm : HashAlgorithm) (hmacSecret : jsstring)
    (hashHistory : list HashResult) (now : jsstring) : Outcome :=
  if isBlank inputText then InputRequired
  else if (match selectedAlgorithm with HMAC => true | _ => false end)
          && isBlank hmacSecret
  then SecretRequired
  else
    match hashOf selectedAlgorithm inputText hmacSecret with
    | inr result =>
        let newResult :=
          {| algorithm := selectedAlgorithm;
             input := abbreviate inputText;
             output := result;
             timestamp := now |} in
        HashGenerated result (newResult :: firstn 9 hashHistory)
    | inl _ => HashGenerationFailed
    end.

End WithPrimitives.

End HashSuite.

(** ** The batch operation of the file handler

    [startBatchOperation] of the [AdvancedFileHandler] component: two
    guards, then the loop over the uploaded files, each in its own [try]
    block; the files that were processed replace the list of files. The
    bookkeeping of [batchOperations] (progress and times) is left out. *)

Module FileHandler.
Import Js Web Subtle StegoUi.
Local Open Scope web_scope.

Inductive OperationType : Type := encrypt | decrypt.

Record FileItem : Type := {
  id : jsstring;
  name : jsstring;
  size : Z;
  type : jsstring;
  content : jsstring;
  encrypted : bool;
  processedAt : jsstring
}.

(** What a call ends in: one of the toasts of the guards, or the new list
    of files with the names of the files that failed (one toast each). *)
Inductive Outcome : Type :=
| NoFiles
| PasswordRequired
| BatchComplete (files : list FileItem) (failed : list jsstring).

(** [type === 'encrypt']. *)
Definition isEncrypt (t : OperationType) : bool :=
  match t with
  | encrypt => true
  | decrypt => false
  end.

Section WithPrimitives.
Context {P : Primitives} {E : Engine}.

(** The value of [processedContent] for one file: only 'aes256' changes
    the content. *)
Definition processContent (t : OperationType)
    (selectedAlgorithm batchPassword fileContent : jsstring) : M jsstring :=
  let processedContent := fileContent in
  if strEq selectedAlgorithm (lit "aes256") then
    match t with
    | encrypt =>
        encrypted <- Crypto.encryptAES256 fileContent batchPassword ;;
        ret (Crypto.encrypted encrypted)
    | decrypt => lift (Crypto.decryptAES256 fileContent batchPassword)
    end
  else ret processedContent.

(** The loop from index [i]; [clock i] is the value of
    [new Date().toISOString()] when file [i] is processed. A file whose
    processing throws is reported and left out of [processedFiles]. *)
Fixpoint processFiles (t : OperationType)
    (selectedAlgorithm batchPassword : jsstring) (clock : nat -> jsstring)
    (i : nat) (files : list FileItem) (e : Entropy)
  : (list FileItem * list jsstring) * Entropy :=
  match files with
  | [] => (([], []), e)
  | file :: rest =>
      match processContent t selectedAlgorithm batchPassword (content file) e
      with
      | (inr processedContent, e') =>
          let processedFile :=
            {| id := id file; name := name file; size := size file;
               type := type file; content := processedContent;
               encrypted := isEncrypt t; processedAt := clock i |} in
          let '((processedFiles, failed), e'') :=
            processFiles t selectedAlgorithm batchPassword clock (S i) rest
              e' in
          ((processedFile :: processedFiles, failed), e'')
      | (inl _, e') =>
          let '((processedFiles, failed), e'') :=
            processFiles t selectedAlgorithm batchPassword clock (S i) rest
              e' in
          ((processedFiles, name file :: failed), e'')
      end
  end.

Definition startBatchOperation (t : OperationType) (files : list FileItem)
    (selectedAlgorithm batchPassword : jsstring) (clock : nat -> jsstring)
  : Entropy -> Outcome * Entropy :=
  fun e =>
    match files with
    | [] => (NoFiles, e)
    | _ :: _ =>
        if match batchPassword with [] => true | _ :: _ => false end
           && strEq selectedAlgorithm (lit "aes256")
        then (PasswordRequired, e)
        else
          let '((processedFiles, failed), e') :=
            processFiles t selectedAlgorithm batchPassword clock 0 files e in
          (BatchComplete processedFiles failed, e')
    end.

(** Whether [decryptAES256] returns on the content of a file. *)
Definition decrypts (batchPassword : jsstring) (file : FileItem) : bool :=
  match Crypto.decryptAES256 (content file) batchPassword with
  | inr _ => true
  | inl _ => false
  end.

End WithPrimitives.

End FileHandler.

(** * Shared lemmas: finite checks and bit operations as arithmetic *)

Module Util.

(** Checking a boolean property of numbers on all of [0, n). *)
Lemma forallb_below (P : Z -> bool) (n : nat) :
  forallb P (map Z.of_nat (seq 0 n)) = true ->
  forall c, 0 <= c < Z.of_nat n -> P c = true.
Proof.
  intros H c Hc. rewrite forallb_forall in H. apply H.
  apply in_map_iff. exists (Z.to_nat c). split; [lia|].
  apply in_seq. lia.
Qed.

(** [x * 2^n | y] is [x * 2^n + y] when [y] fits in the low [n] bits. *)
Lemma lor_disjoint (x y n : Z) :
  0 <= n -> 0 <= y < 2 ^ n -> Z.lor (x * 2 ^ n) y = x * 2 ^ n + y.
Proof.
  intros Hn Hy.
  assert (Hl : Z.land (x * 2 ^ n) y = 0).
  { apply Z.bits_inj'. intros i Hi. rewrite Z.land_spec, Z.bits_0.
    destruct (Z_lt_le_dec i n) as [Hlt|Hge].
    - rewrite Z.mul_pow2_bits_low by lia. reflexivity.
    - destruct (Z.eq_dec y 0) as [->|Hy0];
        [rewrite Z.bits_0; apply andb_false_r|].
      rewrite (Z.bits_above_log2 y i); [apply andb_false_r|lia|].
      apply Z.log2_lt_pow2; [lia|].
      apply Z.lt_le_trans with (2 ^ n); [lia|].
      apply Z.pow_le_mono_r; lia. }
  rewrite <- (Z.lxor_lor _ _ Hl). symmetry.
  apply Z.add_nocarry_lxor. exact Hl.
Qed.

Lemma shiftr_div (a n : Z) : 0 <= n -> Z.shiftr a n = a / 2 ^ n.
Proof. intros. apply Z.shiftr_div_pow2; lia. Qed.

Lemma shiftl_mul (a n : Z) : 0 <= n -> Z.shiftl a n = a * 2 ^ n.
Proof. intros. apply Z.shiftl_mul_pow2; lia. Qed.

Lemma land_3 (a : Z) : Z.land a 3 = a mod 2 ^ 2.
Proof. apply (Z.land_ones a 2); lia. Qed.

Lemma land_7 (a : Z) : Z.land a 7 = a mod 2 ^ 3.
Proof. apply (Z.land_ones a 3); lia. Qed.

Lemma land_15 (a : Z) : Z.land a 15 = a mod 2 ^ 4.
Proof. apply (Z.land_ones a 4); lia. Qed.

Lemma land_31 (a : Z) : Z.land a 31 = a mod 2 ^ 5.
Proof. apply (Z.land_ones a 5); lia. Qed.

Lemma land_63 (a : Z) : Z.land a 63 = a mod 2 ^ 6.
Proof. apply (Z.land_ones a 6); lia. Qed.

Lemma land_1023 (a : Z) : Z.land a 1023 = a mod 2 ^ 10.
Proof. apply (Z.land_ones a 10); lia. Qed.

(** [128 | y] on a 6-bit [y]. *)
Lemma lor_128 (y : Z) : 0 <= y < 64 -> Z.lor 128 y = 128 + y.
Proof. intros H. apply (lor_disjoint 2 y 6); simpl; lia. Qed.

End Util.

(** Shifts and masks by constants as division and remainder. *)
Ltac bits_to_arith :=
  rewrite ?Util.shiftr_div, ?Util.shiftl_mul, ?Util.land_3, ?Util.land_7,
    ?Util.land_15, ?Util.land_31, ?Util.land_63, ?Util.land_1023 by lia.

(** Linear arithmetic with division and remainder by constants. *)
Ltac divmod := Z.div_mod_to_equations; lia.
(** * Properties of the steganography codec *)

Module StegoFacts.
Import Js Stego Util.

Lemma store_length (i : nat) (v : Z) (a : list Z) :
  length (store i v a) = length a.
Proof.
  revert i; induction a as [|x a IH]; intros [|i]; simpl; auto.
Qed.

Lemma nth_store_same (i : nat) (v : Z) (a : list Z) :
  (i < length a)%nat -> nth i (store i v a) 0 = v.
Proof.
  revert i; induction a as [|x a IH]; intros [|i] H; simpl in *;
    try lia; auto.
  apply IH; lia.
Qed.

Lemma nth_store_other (i j : nat) (v : Z) (a : list Z) :
  i <> j -> nth j (store i v a) 0 = nth j a 0.
Proof.
  revert i j; induction a as [|x a IH]; intros [|i] [|j] H; simpl;
    try congruence; auto.
Qed.

Lemma hideLoop_length fuel binary : forall i bi data,
  length (hideLoop fuel binary i bi data) = length data.
Proof.
  induction fuel as [|f IH]; intros i bi data; simpl; auto.
  destruct (_ && _); auto.
  rewrite IH; apply store_length.
Qed.

(** A byte whose index is not [i + 4k] for any [k] is never stored to. *)
Lemma hideLoop_untouched fuel binary : forall i bi data j,
  (forall k : nat, j <> (i + 4 * k)%nat) ->
  nth j (hideLoop fuel binary i bi data) 0 = nth j data 0.
Proof.
  induction fuel as [|f IH]; intros i bi data j Hj; simpl; auto.
  destruct (_ && _); auto.
  rewrite IH.
  - apply nth_store_other. specialize (Hj O). lia.
  - intros k. specialize (Hj (S k)). lia.
Qed.

(** The sample at [i + 4k] receives payload bit [bi + k], when the loop
    gets that far. *)
Lemma hideLoop_sample fuel binary : forall k i bi data,
  (k < fuel)%nat ->
  (i + 4 * k < length data)%nat ->
  (bi + k < length binary)%nat ->
  nth (i + 4 * k) (hideLoop fuel binary i bi data) 0 =
  Z.lor (Z.land (nth (i + 4 * k) data 0) 254)
        (parseInt_digit (nth (bi + k) binary 0)).
Proof.
  induction fuel as [|f IH]; intros k i bi data Hk Hi Hb; [lia|].
  cbn [hideLoop].
  assert (Hc1 : (i <? length data)%nat = true) by (apply Nat.ltb_lt; lia).
  assert (Hc2 : (bi <? length binary)%nat = true) by (apply Nat.ltb_lt; lia).
  rewrite Hc1, Hc2; cbn [andb].
  destruct k as [|k].
  - replace (i + 4 * 0)%nat with i by lia.
    replace (bi + 0)%nat with bi by lia.
    rewrite hideLoop_untouched by (intros k; lia).
    apply nth_store_same. apply Nat.ltb_lt; exact Hc1.
  - replace (i + 4 * S k)%nat with (i + 4 + 4 * k)%nat by lia.
    replace (bi + S k)%nat with (bi + 1 + k)%nat by lia.
    rewrite IH; try lia.
    + rewrite nth_store_other by lia. reflexivity.
    + rewrite store_length. lia.
Qed.

(** C5, the claim as stated, fails: one opaque white pixel is one sample,
    the bitstream of "a" has 24 bits, and the red byte 255 becomes 254 (the
    first bit of "a" is 0). *)
Lemma hideTextInImage_short_buffer_modified :
  (samples [255; 255; 255; 255]%Z < length (textToBinary (lit "a")))%nat /\
  hideTextInImage [255; 255; 255; 255] (lit "a") = [254; 255; 255; 255] /\
  hideTextInImage [255; 255; 255; 255] (lit "a") <> [255; 255; 255; 255].
Proof.
  split; [vm_compute; lia|].
  split; [reflexivity|]. vm_compute. discriminate.
Qed.

(** C5, amended: when the buffer has fewer stride-4 samples than the
    bitstream has bits, [hideTextInImage] still returns normally and writes
    the leading bits: the buffer keeps its length, every byte at an index
    [4k] has its least significant bit replaced by payload bit [k] (its
    upper seven bits kept), and every byte at an index [4k + r] with
    [r = 1, 2, 3] is unchanged. The bits beyond the last sample are
    dropped. *)
Theorem hideTextInImage_short_buffer (data : bytes) (text : jsstring) :
  (samples data < length (textToBinary text))%nat ->
  let out := hideTextInImage data text in
  length out = length data /\
  (forall k : nat, (4 * k < length data)%nat ->
     nth (4 * k) out 0 =
     Z.lor (Z.land (nth (4 * k) data 0) 254)
           (parseInt_digit (nth k (textToBinary text) 0))) /\
  (forall k r : nat, (1 <= r <= 3)%nat ->
     nth (4 * k + r) out 0 = nth (4 * k + r) data 0).
Proof.
  intros Hcap out; subst out; unfold hideTextInImage.
  split; [apply hideLoop_length|]. split.
  - intros k Hk.
    assert (Hs : (k < samples data)%nat).
    { unfold samples. apply (Nat.div_le_lower_bound _ 4 (S k)); lia. }
    apply (hideLoop_sample (S (length data)) (textToBinary text) k 0 0 data);
      simpl; lia.
  - intros k r Hr. apply hideLoop_untouched. intros k'. lia.
Qed.

Lemma hideTextInImage_short_buffer_witness :
  let out := hideTextInImage [6; 7; 8; 9] (lit "a") in
  length out = length [6; 7; 8; 9] /\
  (forall k : nat, (4 * k < length [6; 7; 8; 9]%Z)%nat ->
     nth (4 * k) out 0 =
     Z.lor (Z.land (nth (4 * k) [6; 7; 8; 9] 0) 254)
           (parseInt_digit (nth k (textToBinary (lit "a")) 0))) /\
  (forall k r : nat, (1 <= r <= 3)%nat ->
     nth (4 * k + r) out 0 = nth (4 * k + r) [6; 7; 8; 9] 0).
Proof.
  apply (hideTextInImage_short_buffer [6; 7; 8; 9] (lit "a")).
  vm_compute. lia.
Defined.

(** *** The end marker inside the character bitstream *)

Lemma charBits_length (c : Z) : 0 <= c < 256 -> length (charBits c) = 8%nat.
Proof.
  intros Hc.
  apply Nat.eqb_eq.
  apply (forallb_below (fun c => (length (charBits c) =? 8)%nat) 256);
    [vm_compute; reflexivity | exact Hc].
Qed.

(** A character below 0xFF has a '0' among its 8 bits. *)
Lemma charBits_has_zero (c : Z) :
  0 <= c < 255 -> exists j, (j < 8)%nat /\ nth j (charBits c) 0 = 48.
Proof.
  intros Hc.
  assert (H : existsb (Z.eqb 48) (charBits c) = true).
  { apply (forallb_below (fun c => existsb (Z.eqb 48) (charBits c)) 255);
      [vm_compute; reflexivity | exact Hc]. }
  apply existsb_exists in H. destruct H as (x & Hin & Hx).
  apply Z.eqb_eq in Hx. subst x.
  destruct (In_nth _ _ 0 Hin) as (j & Hj & Hnth).
  exists j. rewrite charBits_length in Hj by lia. auto.
Qed.

Lemma textBits_length (text : jsstring) :
  Forall (fun c => 0 <= c < 256) text ->
  length (textBits text) = (8 * length text)%nat.
Proof.
  induction 1 as [|c t Hc _ IH]; [reflexivity|].
  unfold textBits in *; simpl. rewrite length_app, IH, charBits_length; lia.
Qed.

(** Bit [j] of group [g] of the bitstream is bit [j] of character [g]. *)
Lemma textBits_nth (text : jsstring) :
  Forall (fun c => 0 <= c < 256) text ->
  forall g j : nat, (g < length text)%nat -> (j < 8)%nat ->
  nth (8 * g + j) (textBits text) 0 = nth j (charBits (nth g text 0)) 0.
Proof.
  induction 1 as [|c t Hc _ IH]; intros g j Hg Hj; simpl in Hg; [lia|].
  unfold textBits in *; cbn [flat_map].
  destruct g as [|g].
  - replace (8 * 0 + j)%nat with j by lia.
    rewrite app_nth1 by (rewrite charBits_length; lia). reflexivity.
  - rewrite app_nth2 by (rewrite charBits_length; lia).
    rewrite charBits_length by lia.
    replace (8 * S g + j - 8)%nat with (8 * g + j)%nat by lia.
    rewrite IH by lia. reflexivity.
Qed.

Lemma startsWith_true (pat s : jsstring) :
  startsWith pat s = true -> exists rest, s = pat ++ rest.
Proof.
  revert s; induction pat as [|p pat IH]; intros s H.
  - exists s; reflexivity.
  - destruct s as [|c s]; [discriminate|]. simpl in H.
    apply andb_prop in H. destruct H as [Hp Hs].
    apply Z.eqb_eq in Hp. subst c.
    destruct (IH s Hs) as [rest ->]. exists rest; reflexivity.
Qed.

Lemma indexOf_from_absent (pat s : jsstring) : forall i,
  (forall pre rest, s <> pre ++ pat ++ rest) ->
  indexOf_from i pat s = -1.
Proof.
  induction s as [|c s IH]; intros i H.
  - simpl. destruct (startsWith pat []) eqn:E; [|reflexivity].
    apply startsWith_true in E. destruct E as [rest E].
    exfalso. apply (H [] rest). exact E.
  - cbn [indexOf_from]. destruct (startsWith pat (c :: s)) eqn:E.
    + apply startsWith_true in E. destruct E as [rest E].
      exfalso. apply (H [] rest). exact E.
    + apply IH. intros pre rest Hs. apply (H (c :: pre) rest).
      rewrite Hs. reflexivity.
Qed.

Lemma endMarker_ones (j : nat) : (j < 15)%nat -> nth j endMarker 0 = 49.
Proof.
  intros Hj. do 15 (destruct j as [|j]; [reflexivity|]). lia.
Qed.

(** No run of 15 ones fits between the '0's of consecutive 8-bit groups. *)
Lemma textBits_no_endMarker (text : jsstring) :
  Forall (fun c => 0 <= c < 255) text ->
  forall pre rest, textBits text <> pre ++ endMarker ++ rest.
Proof.
  intros Hlt pre rest Heq.
  assert (Hb : Forall (fun c => 0 <= c < 256) text).
  { eapply Forall_impl; [|exact Hlt]. simpl; intros; lia. }
  pose proof (textBits_length text Hb) as Hlen.
  rewrite Heq in Hlen. rewrite !length_app in Hlen.
  change (length endMarker) with 16%nat in Hlen.
  set (p := length pre) in *.
  (* the first group that starts at or after [p] *)
  set (g := ((p + 7) / 8)%nat).
  assert (Hg : (p <= 8 * g /\ 8 * g <= p + 7)%nat).
  { subst g. pose proof (Nat.div_mod_eq (p + 7) 8) as Hd.
    pose proof (Nat.mod_upper_bound (p + 7) 8). lia. }
  assert (Hgt : (g < length text)%nat) by lia.
  assert (Hc : 0 <= nth g text 0 < 255).
  { rewrite Forall_forall in Hlt. apply Hlt. apply nth_In. exact Hgt. }
  destruct (charBits_has_zero _ Hc) as (j & Hj & Hz).
  rewrite <- (textBits_nth text Hb g j Hgt Hj) in Hz.
  rewrite Heq in Hz.
  replace (8 * g + j)%nat with (length pre + (8 * g + j - p))%nat in Hz
    by (fold p; lia).
  rewrite app_nth2_plus in Hz.
  rewrite app_nth1 in Hz by (change (length endMarker) with 16%nat; lia).
  rewrite endMarker_ones in Hz by lia. discriminate.
Qed.

(** C6, the claim as stated, fails: the two characters U+00FF U+00FE give
    the 16 bits of the end marker themselves, so [binaryToText] finds the
    marker at position 0 and returns the empty text. *)
Lemma endMarker_inside_textBits :
  indexOf (textBits [255; 254]) endMarker = 0 /\
  textBits [255; 254] = endMarker /\
  binaryToText (textToBinary [255; 254]) = [].
Proof. repeat split; reflexivity. Qed.

(** C6, amended: for every text whose code units are all below 0xFF (all
    ASCII text in particular), the 16-bit end marker occurs nowhere inside
    the bitstream of the characters, group boundaries included:
    [indexOf] finds no occurrence. *)
Theorem textBits_indexOf_endMarker (text : jsstring) :
  Forall (fun c => 0 <= c < 255) text ->
  indexOf (textBits text) endMarker = -1.
Proof.
  intros H. apply indexOf_from_absent. apply textBits_no_endMarker. exact H.
Qed.

Lemma textBits_indexOf_endMarker_witness :
  indexOf (textBits (lit "hello world")) endMarker = -1.
Proof.
  apply (textBits_indexOf_endMarker (lit "hello world")).
  repeat constructor; vm_compute; intuition discriminate.
Defined.

End StegoFacts.

(** * Properties of the legacy checksum *)

Module ChecksumFacts.
Import Js Int32 Checksum.

Lemma toInt32_range (x : Z) : - 2 ^ 31 <= toInt32 x < 2 ^ 31.
Proof.
  unfold toInt32. pose proof (Z.mod_pos_bound (x + 2 ^ 31) (2 ^ 32)). lia.
Qed.

Lemma toInt32_id (x : Z) : - 2 ^ 31 <= x < 2 ^ 31 -> toInt32 x = x.
Proof.
  intros H. unfold toInt32. rewrite Z.mod_small; lia.
Qed.

Lemma toInt32_congr (x y : Z) :
  (x - y) mod 2 ^ 32 = 0 -> toInt32 x = toInt32 y.
Proof.
  intros H. unfold toInt32. f_equal.
  apply Z.mod_divide in H; [|lia]. destruct H as [k Hk].
  replace (x + 2 ^ 31) with (y + 2 ^ 31 + k * 2 ^ 32) by lia.
  apply Z.mod_add. lia.
Qed.

Lemma toInt32_mod (x : Z) : (toInt32 x - x) mod 2 ^ 32 = 0.
Proof.
  unfold toInt32.
  pose proof (Z.div_mod (x + 2 ^ 31) (2 ^ 32)) as H.
  replace ((x + 2 ^ 31) mod 2 ^ 32 - 2 ^ 31 - x)
    with (- ((x + 2 ^ 31) / 2 ^ 32) * 2 ^ 32) by lia.
  apply Z.mod_mul. lia.
Qed.

(** One turn of the loop is [h <- 31 * h + c] on 32 bits. *)
Lemma hashStep_rolling (h c : Z) :
  - 2 ^ 31 <= h < 2 ^ 31 -> hashStep h c = toInt32 (31 * h + c).
Proof.
  intros Hh. unfold hashStep, bitand, shl.
  rewrite Z.land_diag, (toInt32_id h Hh), Z.shiftl_mul_pow2 by lia.
  apply toInt32_congr.
  pose proof (toInt32_mod (h * 2 ^ 5)) as H.
  apply Z.mod_divide in H; [|lia]. destruct H as [k Hk].
  replace (toInt32 (h * 2 ^ 5) - h + c - (31 * h + c)) with (k * 2 ^ 32)
    by lia.
  apply Z.mod_mul. lia.
Qed.

Lemma hashStep_range (h c : Z) : - 2 ^ 31 <= hashStep h c < 2 ^ 31.
Proof.
  unfold hashStep, bitand. rewrite Z.land_diag. apply toInt32_range.
Qed.

Lemma hashLoop_from (text : jsstring) : forall h,
  - 2 ^ 31 <= h < 2 ^ 31 ->
  fold_left hashStep text h =
  fold_left (fun h c => toInt32 (31 * h + c)) text h /\
  - 2 ^ 31 <= fold_left hashStep text h < 2 ^ 31.
Proof.
  induction text as [|c t IH]; intros h Hh; cbn [fold_left];
    [split; [reflexivity|lia]|].
  rewrite <- (hashStep_rolling h c Hh).
  apply IH. apply hashStep_range.
Qed.

Lemma hashLoop_rolling31 (text : jsstring) : hashLoop text = rolling31 text.
Proof. apply (hashLoop_from text 0). lia. Qed.

Lemma hashLoop_range (text : jsstring) : - 2 ^ 31 <= hashLoop text < 2 ^ 31.
Proof. apply (hashLoop_from text 0). lia. Qed.

(** *** Digits of a number *)

Lemma digitVal_digitChar (d : Z) : 0 <= d < 36 -> digitVal (digitChar d) = d.
Proof.
  intros H. unfold digitVal, digitChar.
  destruct (d <? 10) eqn:E.
  - apply Z.ltb_lt in E. destruct (48 + d <? 58) eqn:E'; [lia|].
    apply Z.ltb_ge in E'. lia.
  - apply Z.ltb_ge in E. destruct (87 + d <? 58) eqn:E'; [|lia].
    apply Z.ltb_lt in E'. lia.
Qed.

Lemma digitChar_hex (d : Z) : 0 <= d < 16 -> isHexDigit (digitChar d).
Proof.
  intros H. unfold isHexDigit, digitChar.
  destruct (d <? 10) eqn:E; [apply Z.ltb_lt in E | apply Z.ltb_ge in E]; lia.
Qed.

(** The digits written by [toDigits] read back as the number. *)
Lemma toDigits_value (radix : Z) (Hr : 2 <= radix <= 36) :
  forall (fuel : nat) (n : Z) (acc : jsstring),
  0 <= n < 2 ^ Z.of_nat fuel ->
  fold_left (fun a c => radix * a + digitVal c) (toDigits fuel radix n acc) 0
  = fold_left (fun a c => radix * a + digitVal c) acc n.
Proof.
  induction fuel as [|f IH]; intros n acc Hn.
  - simpl in *. replace n with 0 by lia. reflexivity.
  - cbn [toDigits].
    pose proof (Z.div_mod n radix ltac:(lia)) as Hdm.
    pose proof (Z.mod_pos_bound n radix ltac:(lia)) as Hm.
    destruct (n / radix =? 0) eqn:E.
    + apply Z.eqb_eq in E. simpl.
      rewrite digitVal_digitChar by lia. f_equal. lia.
    + apply Z.eqb_neq in E.
      assert (Hq : 0 <= n / radix < 2 ^ Z.of_nat f).
      { split; [apply Z.div_pos; lia|].
        apply Z.div_lt_upper_bound; [lia|].
        rewrite Nat2Z.inj_succ, Z.pow_succ_r in Hn by lia.
        assert (0 < 2 ^ Z.of_nat f) by (apply Z.pow_pos_nonneg; lia). nia. }
      rewrite IH by exact Hq. simpl.
      rewrite digitVal_digitChar by lia. f_equal. lia.
Qed.

(** A number below [radix ^ k] is written with at most [k] digits. *)
Lemma toDigits_length (radix : Z) (Hr : 2 <= radix) :
  forall (fuel k : nat) (n : Z) (acc : jsstring),
  (1 <= k)%nat -> 0 <= n < radix ^ Z.of_nat k ->
  (length (toDigits fuel radix n acc) <= length acc + k)%nat.
Proof.
  induction fuel as [|f IH]; intros k n acc Hk Hn; simpl; [lia|].
  destruct (n / radix =? 0) eqn:E; [simpl; lia|].
  apply Z.eqb_neq in E.
  destruct k as [|[|k]]; [lia| |].
  - exfalso. apply E. apply Z.div_small. simpl in Hn. lia.
  - specialize (IH (S k) (n / radix) (digitChar (n mod radix) :: acc)).
    simpl length in IH. etransitivity; [apply IH; [lia|]|lia].
    split; [apply Z.div_pos; lia|].
    apply Z.div_lt_upper_bound; [lia|].
    rewrite (Nat2Z.inj_succ (S k)), Z.pow_succ_r in Hn by lia. lia.
Qed.

Lemma toDigits_hex (radix : Z) (Hr : 2 <= radix <= 16) :
  forall (fuel : nat) (n : Z) (acc : jsstring),
  Forall isHexDigit acc -> Forall isHexDigit (toDigits fuel radix n acc).
Proof.
  induction fuel as [|f IH]; intros n acc Hacc; simpl; [exact Hacc|].
  assert (Hd : isHexDigit (digitChar (n mod radix))).
  { apply digitChar_hex. pose proof (Z.mod_pos_bound n radix). lia. }
  destruct (n / radix =? 0); [|apply IH]; constructor; assumption.
Qed.

Lemma toStringRadix_value (radix n : Z) :
  2 <= radix <= 36 -> 0 <= n -> parseRadix radix (toStringRadix radix n) = n.
Proof.
  intros Hr Hn. unfold parseRadix, toStringRadix.
  rewrite toDigits_value; [reflexivity|exact Hr|].
  split; [exact Hn|].
  rewrite Nat2Z.inj_succ, Z2Nat.id by apply Z.log2_nonneg.
  destruct (Z.eq_dec n 0) as [->|Hz]; [reflexivity|].
  apply Z.log2_spec. lia.
Qed.

(** Left padding with '0' does not change the value. *)
Lemma parseRadix_padStart (radix : Z) (w : nat) (s : jsstring) :
  parseRadix radix (padStart w 48 s) = parseRadix radix s.
Proof.
  unfold parseRadix, padStart. rewrite fold_left_app. f_equal.
  induction (w - length s)%nat as [|m IH]; [reflexivity|].
  simpl. replace (radix * 0 + digitVal 48) with 0; [exact IH|].
  unfold digitVal; simpl; lia.
Qed.

Lemma padStart_length (w : nat) (fill : Z) (s : jsstring) :
  (length s <= w)%nat -> length (padStart w fill s) = w.
Proof.
  intros H. unfold padStart. rewrite length_app, repeat_length. lia.
Qed.

(** C8, the claim as stated, fails on the empty text: the early return
    gives the one-character string "0". *)
Lemma hashMD5_empty_width :
  hashMD5 [] = lit "0" /\ length (hashMD5 []) <> 8%nat.
Proof. split; [reflexivity | vm_compute; lia]. Qed.

(** C8, amended: for the empty text [hashMD5] returns the one-character
    string "0"; for every non-empty text it returns exactly eight lowercase
    hexadecimal digits, left-padded with '0', whose value is the absolute
    value of the signed 32-bit rolling hash [h <- 31 * h + c] of the code
    units. *)
Theorem hashMD5_width :
  hashMD5 [] = lit "0" /\
  forall text : jsstring, text <> [] ->
    length (hashMD5 text) = 8%nat /\
    Forall isHexDigit (hashMD5 text) /\
    parseRadix 16 (hashMD5 text) = Z.abs (rolling31 text) /\
    - 2 ^ 31 <= rolling31 text < 2 ^ 31.
Proof.
  split; [reflexivity|].
  intros text Hne. unfold hashMD5.
  destruct text as [|c t]; [congruence|]. cbn [length Nat.eqb].
  set (text := c :: t). pose proof (hashLoop_range text) as Hr.
  rewrite <- (hashLoop_rolling31 text).
  repeat split; try lia.
  - apply padStart_length. unfold toStringRadix.
    apply (toDigits_length 16 ltac:(lia) _ 8 _ []); [lia|]. simpl. lia.
  - unfold padStart. apply Forall_app. split.
    + apply Forall_forall. intros x Hx. apply repeat_spec in Hx. subst x.
      left; lia.
    + apply toDigits_hex; [lia|constructor].
  - rewrite parseRadix_padStart. apply toStringRadix_value; lia.
Qed.

Lemma hashMD5_width_witness :
  length (hashMD5 (lit "hello world")) = 8%nat /\
  Forall isHexDigit (hashMD5 (lit "hello world")) /\
  parseRadix 16 (hashMD5 (lit "hello world")) =
    Z.abs (rolling31 (lit "hello world")) /\
  - 2 ^ 31 <= rolling31 (lit "hello world") < 2 ^ 31.
Proof.
  apply (proj2 hashMD5_width (lit "hello world")). discriminate.
Defined.

Example hashMD5_hello_world : hashMD5 (lit "hello world") = lit "6aefe2c4".
Proof. reflexivity. Qed.

End ChecksumFacts.

(** * Properties of the password strength analysis *)

Module PasswordFacts.
Import Js Num Password.

Lemma ln_2_pos : (0 < ln 2)%R.
Proof. pose proof ln_lt_2. lra. Qed.

(** [a ^ m < b ^ n] on integers gives [m * ln a < n * ln b]. *)
Lemma ln_pow_lt (a b m n : Z) :
  0 < a -> 0 < b -> 0 <= m -> 0 <= n -> a ^ m < b ^ n ->
  (IZR m * ln (IZR a) < IZR n * ln (IZR b))%R.
Proof.
  intros Ha Hb Hm Hn Hlt.
  rewrite <- (Z2Nat.id m Hm), <- (Z2Nat.id n Hn) in Hlt |- *.
  rewrite <- !INR_IZR_INZ.
  rewrite <- !ln_pow by (apply IZR_lt; assumption).
  rewrite !pow_IZR.
  apply ln_increasing.
  - apply IZR_lt. apply Z.pow_pos_nonneg; lia.
  - apply IZR_lt. exact Hlt.
Qed.

(** [72.10 < 11 * log2 94 < 72.11], from [2^7210 < 94^1100 < 2^7211]. *)
Lemma entropy_94_11 :
  (7210 / 100 < 11 * (ln 94 / ln 2) < 7211 / 100)%R.
Proof.
  pose proof ln_2_pos as H2.
  assert (Hlo : (7210 * ln 2 < 1100 * ln 94)%R).
  { apply (ln_pow_lt 2 94 7210 1100); [lia|lia|lia|lia|]. vm_compute. reflexivity. }
  assert (Hhi : (1100 * ln 94 < 7211 * ln 2)%R).
  { apply (ln_pow_lt 94 2 1100 7211); [lia|lia|lia|lia|]. vm_compute. reflexivity. }
  split.
  - apply (Rmult_lt_reg_r (100 * ln 2)); [lra|].
    replace (11 * (ln 94 / ln 2) * (100 * ln 2))%R with (1100 * ln 94)%R
      by (field; lra).
    replace (7210 / 100 * (100 * ln 2))%R with (7210 * ln 2)%R by field.
    exact Hlo.
  - apply (Rmult_lt_reg_r (100 * ln 2)); [lra|].
    replace (11 * (ln 94 / ln 2) * (100 * ln 2))%R with (1100 * ln 94)%R
      by (field; lra).
    replace (7211 / 100 * (100 * ln 2))%R with (7211 * ln 2)%R by field.
    exact Hhi.
Qed.

Lemma charSetSize_classSum (password : jsstring) :
  charSetSize password = classSum password.
Proof.
  unfold charSetSize, classSum.
  destruct (hasLower password), (hasUpper password), (hasDigit password),
    (hasSymbol password); reflexivity.
Qed.

Lemma analyzePasswordStrength_entropy (password : jsstring) :
  entropy (analyzePasswordStrength password) =
  mulInt (Z.of_nat (length password)) (log2 (charSetSize password)).
Proof.
  unfold analyzePasswordStrength.
  destruct (8 <=? Z.of_nat (length password)),
    (hasLower password), (hasUpper password), (hasDigit password),
    (hasSymbol password); reflexivity.
Qed.

(** C9: the score is the sum of the seven unit contributions, the entropy
    is the length times the base-2 logarithm of the summed class sizes
    26/26/10/32, the strength is the tier of the score (at most 2 weak,
    3 or 4 fair, 5 good, 6 strong, 7 or more excellent); and the password
    "Tr0ub4dor&3" has score 5, strength good and an entropy of
    11 * log2 94, between 72.10 and 72.11 bits. *)
Theorem analyzePasswordStrength_report :
  (forall password : jsstring,
     let r := analyzePasswordStrength password in
     score r = scoreSum password /\
     entropy r =
       mulInt (Z.of_nat (length password)) (log2 (classSum password)) /\
     strength r = tier (score r)) /\
  (let r := analyzePasswordStrength (lit "Tr0ub4dor&3") in
   score r = 5 /\ strength r = good /\
   classSum (lit "Tr0ub4dor&3") = 94 /\
   exists e : R, entropy r = Fin e /\ e = (11 * (ln 94 / ln 2))%R /\
                 (7210 / 100 < e < 7211 / 100)%R).
Proof.
  split.
  - intros password r; subst r.
    unfold analyzePasswordStrength, scoreSum.
    rewrite charSetSize_classSum.
    destruct (8 <=? Z.of_nat (length password)),
      (12 <=? Z.of_nat (length password)),
      (16 <=? Z.of_nat (length password)),
      (hasLower password), (hasUpper password), (hasDigit password),
      (hasSymbol password); repeat split; reflexivity.
  - cbv zeta. repeat split; try reflexivity.
    exists (11 * (ln 94 / ln 2))%R. split; [|split; [reflexivity|]].
    + rewrite analyzePasswordStrength_entropy.
      change (charSetSize (lit "Tr0ub4dor&3")) with 94.
      reflexivity.
    + apply entropy_94_11.
Qed.

(** A non-empty password has a character in one of the four classes. *)
Lemma charSetSize_pos (password : jsstring) :
  password <> [] -> 10 <= charSetSize password.
Proof.
  intros Hne. destruct password as [|c s]; [congruence|].
  unfold charSetSize, hasLower, hasUpper, hasDigit, hasSymbol.
  cbn [existsb].
  destruct (isLower c), (isUpper c), (isDigit c); cbn [orb negb];
    repeat match goal with
           | |- context [if (if ?b then _ else _) then _ else _] => destruct b
           | |- context [if existsb ?f ?l then _ else _] =>
               destruct (existsb f l)
           end; lia.
Qed.

(** C10: every character is in one of the four classes (the symbol class
    is the complement of the other three), so a non-empty password has a
    strictly positive charset size and a finite entropy; the empty password
    has charset size 0 and the entropy [0 * log2 0], which is NaN. *)
Theorem analyzePasswordStrength_entropy_defined :
  (forall c : Z,
     isLower c || isUpper c || isDigit c ||
     negb (isUpper c || isLower c || isDigit c) = true) /\
  (forall password : jsstring, password <> [] ->
     0 < charSetSize password /\
     exists e : R, entropy (analyzePasswordStrength password) = Fin e) /\
  charSetSize [] = 0 /\
  entropy (analyzePasswordStrength []) = NaN.
Proof.
  split; [|split; [|split; reflexivity]].
  { intros c. destruct (isLower c), (isUpper c), (isDigit c); reflexivity. }
  intros password Hne.
  pose proof (charSetSize_pos password Hne) as Hc.
  split; [lia|].
  rewrite analyzePasswordStrength_entropy. unfold log2.
  destruct (charSetSize password <? 0) eqn:E1;
    [apply Z.ltb_lt in E1; lia|].
  destruct (charSetSize password =? 0) eqn:E2;
    [apply Z.eqb_eq in E2; lia|].
  cbn [mulInt]. eexists; reflexivity.
Qed.

Lemma analyzePasswordStrength_entropy_defined_witness :
  0 < charSetSize (lit "a") /\
  exists e : R, entropy (analyzePasswordStrength (lit "a")) = Fin e.
Proof.
  apply (proj1 (proj2 analyzePasswordStrength_entropy_defined) (lit "a")).
  discriminate.
Defined.

End PasswordFacts.

(** * Bytes and base64 *)

Module WebFacts.
Import Js Web Util.

Lemma Z_of_byte_range (b : Byte.byte) : 0 <= Z_of_byte b < 256.
Proof.
  unfold Z_of_byte. pose proof (Byte.to_N_bounded b). lia.
Qed.

Lemma byte_of_Z_of_byte (b : Byte.byte) : byte_of_Z (Z_of_byte b) = b.
Proof.
  unfold byte_of_Z. rewrite Z.mod_small by apply Z_of_byte_range.
  unfold Z_of_byte. rewrite N2Z.id, Byte.of_to_N. reflexivity.
Qed.

Lemma Z_of_byte_of_Z (z : Z) : 0 <= z < 256 -> Z_of_byte (byte_of_Z z) = z.
Proof.
  intros Hz. unfold byte_of_Z, Z_of_byte. rewrite Z.mod_small by exact Hz.
  destruct (Byte.of_N (Z.to_N z)) as [b|] eqn:E.
  - apply Byte.to_of_N in E. rewrite E. lia.
  - apply Byte.of_N_None_iff in E. lia.
Qed.

Lemma charCodes_fromCharCode (bs : octets) : charCodes (fromCharCode bs) = bs.
Proof.
  unfold charCodes, fromCharCode. rewrite map_map.
  rewrite <- (map_id bs) at 2. apply map_ext. apply byte_of_Z_of_byte.
Qed.

Lemma fromCharCode_bytes (bs : octets) :
  Forall (fun c => 0 <= c < 256) (fromCharCode bs).
Proof.
  unfold fromCharCode. apply Forall_forall. intros c Hc.
  apply in_map_iff in Hc. destruct Hc as (b & <- & _). apply Z_of_byte_range.
Qed.

Lemma map_Z_of_byte_of_Z (zs : list Z) :
  Forall (fun z => 0 <= z < 256) zs -> map Z_of_byte (map byte_of_Z zs) = zs.
Proof.
  induction 1 as [|z zs Hz _ IH]; simpl; [reflexivity|].
  rewrite Z_of_byte_of_Z, IH by exact Hz. reflexivity.
Qed.

Lemma fromCharCode_length (bs : octets) : length (fromCharCode bs) = length bs.
Proof. apply length_map. Qed.

Lemma getRandomValues_length (n : nat) (e : Entropy) :
  exists bs, fst (getRandomValues n e) = inr bs /\ length bs = n.
Proof.
  eexists; split; [reflexivity|]. rewrite length_map, length_seq. reflexivity.
Qed.

(** Sequencing of calls that return. *)
Lemma bind_lift_ok {A B : Type} (a : A) (k : A -> M B) (e : Entropy) :
  bind (lift (ok a)) k e = k a e.
Proof. reflexivity. Qed.

Lemma bind_returns {A B : Type} (m : M A) (k : A -> M B) (e e' : Entropy)
    (a : A) :
  m e = (inr a, e') -> bind m k e = k a e'.
Proof. intros H. unfold bind. rewrite H. reflexivity. Qed.

Lemma bind_getRandomValues {B : Type} (n : nat) (k : octets -> M B)
    (e : Entropy) :
  bind (getRandomValues n) k e
  = k (map e (seq 0 n)) (fun i => e (n + i)%nat).
Proof. reflexivity. Qed.

End WebFacts.

Module Base64Facts.
Import Js Web Base64 Util WebFacts.

(** Induction over a list three elements at a time. *)
Lemma list_ind3 {A : Type} (Q : list A -> Prop) :
  Q [] -> (forall a, Q [a]) -> (forall a b, Q [a; b]) ->
  (forall a b c rest, Q rest -> Q (a :: b :: c :: rest)) ->
  forall l, Q l.
Proof.
  intros H0 H1 H2 H3.
  assert (H : forall l, Q l /\ (forall a, Q (a :: l)) /\
                        (forall a b, Q (a :: b :: l))).
  { induction l as [|x l (IH0 & IH1 & IH2)].
    - auto.
    - split; [apply IH1|]. split; [intros a; apply IH2|].
      intros a b. apply H3. exact IH0. }
  intros l. apply H.
Qed.

Lemma b64val_b64char (v : Z) : 0 <= v < 64 -> b64val (b64char v) = Some v.
Proof.
  intros Hv.
  assert (H : (match b64val (b64char v) with
               | Some w => w =? v
               | None => false
               end) = true).
  { apply (forallb_below
             (fun v => match b64val (b64char v) with
                       | Some w => w =? v
                       | None => false
                       end) 64); [vm_compute; reflexivity|exact Hv]. }
  destruct (b64val (b64char v)) as [w|]; [|discriminate].
  apply Z.eqb_eq in H. congruence.
Qed.

(** The characters of the alphabet are neither whitespace nor '='. *)
Lemma b64char_plain (v : Z) :
  0 <= v < 64 ->
  isAsciiWhitespace (b64char v) = false /\ (b64char v =? 61) = false.
Proof.
  intros Hv.
  assert (H : negb (isAsciiWhitespace (b64char v)) &&
              negb (b64char v =? 61) = true).
  { apply (forallb_below
             (fun v => negb (isAsciiWhitespace (b64char v)) &&
                       negb (b64char v =? 61)) 64);
      [vm_compute; reflexivity|exact Hv]. }
  apply andb_prop in H. destruct H as [H1 H2].
  apply negb_true_iff in H1, H2. auto.
Qed.

Lemma sextets_range (bs : list Z) :
  Forall (fun b => 0 <= b < 256) bs -> Forall sextet (sextets bs).
Proof.
  unfold sextet.
  induction bs as [| a | a b | a b c rest IH] using list_ind3; intros H;
    cbn [sextets].
  - constructor.
  - inversion_clear H as [|? ? Ha _].
    repeat constructor; bits_to_arith; divmod.
  - inversion_clear H as [|? ? Ha H']. inversion_clear H' as [|? ? Hb _].
    bits_to_arith. rewrite lor_disjoint by (try lia; divmod).
    repeat constructor; divmod.
  - inversion_clear H as [|? ? Ha H']. inversion_clear H' as [|? ? Hb H''].
    inversion_clear H'' as [|? ? Hc Hrest].
    bits_to_arith. rewrite !lor_disjoint by (try lia; divmod).
    repeat (constructor; [divmod|]). apply IH. exact Hrest.
Qed.

(** Decoding the 6-bit groups of a byte sequence gives the bytes back. *)
Lemma bytesOf_sextets (bs : list Z) :
  Forall (fun b => 0 <= b < 256) bs -> bytesOf (sextets bs) = bs.
Proof.
  induction bs as [| a | a b | a b c rest IH] using list_ind3; intros H;
    cbn [sextets bytesOf].
  - reflexivity.
  - inversion_clear H as [|? ? Ha _]. f_equal.
    bits_to_arith. rewrite lor_disjoint by (try lia; divmod). divmod.
  - inversion_clear H as [|? ? Ha H']. inversion_clear H' as [|? ? Hb _].
    bits_to_arith.
    rewrite (lor_disjoint (a mod 2 ^ 2) _ 4) by (try lia; divmod).
    rewrite !lor_disjoint by (try lia; divmod).
    f_equal; [|f_equal]; divmod.
  - inversion_clear H as [|? ? Ha H']. inversion_clear H' as [|? ? Hb H''].
    inversion_clear H'' as [|? ? Hc Hrest].
    rewrite (IH Hrest).
    bits_to_arith.
    rewrite (lor_disjoint (a mod 2 ^ 2) _ 4) by (try lia; divmod).
    rewrite (lor_disjoint (b mod 2 ^ 4) _ 2) by (try lia; divmod).
    rewrite !lor_disjoint by (try lia; divmod).
    f_equal; [|f_equal; [|f_equal]]; divmod.
Qed.

Lemma values_b64char (vs : list Z) :
  Forall sextet vs -> values (map b64char vs) = Some vs.
Proof.
  induction 1 as [|v vs Hv _ IH]; simpl; [reflexivity|].
  rewrite (b64val_b64char v Hv), IH. reflexivity.
Qed.

Lemma filter_b64char (vs : list Z) (pad : jsstring) :
  Forall sextet vs -> Forall (fun c => c = 61) pad ->
  filter (fun c => negb (isAsciiWhitespace c)) (map b64char vs ++ pad)
  = map b64char vs ++ pad.
Proof.
  intros Hvs Hpad. apply forallb_filter_id. apply forallb_forall.
  intros c Hc. apply in_app_or in Hc. destruct Hc as [Hc|Hc].
  - apply in_map_iff in Hc. destruct Hc as (v & <- & Hin).
    rewrite Forall_forall in Hvs.
    rewrite (proj1 (b64char_plain v (Hvs v Hin))). reflexivity.
  - rewrite Forall_forall in Hpad. rewrite (Hpad c Hc). reflexivity.
Qed.

(** The shape of the encoding: complete groups of four, then 0, 2 or 3
    characters and their padding. *)
Lemma encode_shape (bs : list Z) :
  exists q : nat,
    (length (sextets bs) = (4 * q)%nat /\ padding bs = []) \/
    (length (sextets bs) = (4 * q + 2)%nat /\ padding bs = [61; 61]) \/
    (length (sextets bs) = (4 * q + 3)%nat /\ padding bs = [61]).
Proof.
  induction bs as [| a | a b | a b c rest IH] using list_ind3;
    cbn [sextets padding length].
  - exists O. auto.
  - exists O. auto.
  - exists O. auto.
  - destruct IH as [q [[H1 H2]|[[H1 H2]|[H1 H2]]]]; exists (S q);
      rewrite H1, H2; [left|right; left|right; right]; split;
      (lia || reflexivity).
Qed.

Lemma stripPadding_encode (vs : list Z) (pad : jsstring) :
  Forall sextet vs -> pad = [] \/ pad = [61; 61] \/ pad = [61] ->
  stripPadding (map b64char vs ++ pad) = map b64char vs.
Proof.
  intros Hvs Hpad. unfold stripPadding.
  assert (Hcore : dropEq (rev (map b64char vs)) = None).
  { destruct (rev (map b64char vs)) as [|c r] eqn:E; [reflexivity|].
    simpl.
    assert (Hin : In c (map b64char vs)).
    { apply in_rev. rewrite E. left; reflexivity. }
    apply in_map_iff in Hin. destruct Hin as (v & <- & Hin).
    rewrite Forall_forall in Hvs.
    rewrite (proj2 (b64char_plain v (Hvs v Hin))). reflexivity. }
  destruct Hpad as [->|[->| ->]].
  - rewrite app_nil_r, Hcore. reflexivity.
  - rewrite rev_app_distr. cbn [rev app dropEq].
    change (61 =? 61) with true. cbv iota. apply rev_involutive.
  - rewrite rev_app_distr. cbn [rev app dropEq].
    change (61 =? 61) with true. cbv iota. rewrite Hcore.
    apply rev_involutive.
Qed.

(** [atob] inverts the base64 encoding of a byte sequence. *)
Lemma atob_encode (bs : list Z) :
  Forall (fun b => 0 <= b < 256) bs -> atob (encode bs) = ok bs.
Proof.
  intros Hbs. unfold atob, encode.
  pose proof (sextets_range bs Hbs) as Hsx.
  destruct (encode_shape bs) as [q Hshape].
  assert (Hpad : padding bs = [] \/ padding bs = [61; 61] \/
                 padding bs = [61]) by intuition.
  assert (Hpad' : Forall (fun c => c = 61) (padding bs)).
  { destruct Hpad as [->|[->| ->]]; repeat constructor. }
  rewrite (filter_b64char _ _ Hsx Hpad').
  assert (Hlen : (length (map b64char (sextets bs) ++ padding bs) mod 4
                  =? 0)%nat = true).
  { rewrite length_app, length_map. apply Nat.eqb_eq.
    destruct Hshape as [[H1 H2]|[[H1 H2]|[H1 H2]]]; rewrite H1, H2; simpl length.
    - rewrite Nat.add_0_r, Nat.mul_comm. apply Nat.Div0.mod_mul.
    - replace (4 * q + 2 + 2)%nat with (S q * 4)%nat by lia.
      apply Nat.Div0.mod_mul.
    - replace (4 * q + 3 + 1)%nat with (S q * 4)%nat by lia.
      apply Nat.Div0.mod_mul. }
  rewrite Hlen, (stripPadding_encode _ _ Hsx Hpad).
  assert (Hlen1 : (length (map b64char (sextets bs)) mod 4 =? 1)%nat = false).
  { rewrite length_map. apply Nat.eqb_neq.
    destruct Hshape as [[H1 _]|[[H1 _]|[H1 _]]]; rewrite H1.
    - rewrite Nat.mul_comm, Nat.Div0.mod_mul. lia.
    - rewrite Nat.add_comm, Nat.mul_comm, Nat.Div0.mod_add. simpl. lia.
    - rewrite Nat.add_comm, Nat.mul_comm, Nat.Div0.mod_add. simpl. lia. }
  rewrite Hlen1, (values_b64char _ Hsx), (bytesOf_sextets bs Hbs).
  reflexivity.
Qed.

(** [btoa(String.fromCharCode(...bytes))] always succeeds, and [atob]
    followed by the conversion to a [Uint8Array] gives the bytes back. *)
Lemma btoa_fromCharCode (bs : octets) :
  btoa (fromCharCode bs) = ok (encode (fromCharCode bs)).
Proof.
  unfold btoa.
  assert (H : forallb (fun c => c <=? 255) (fromCharCode bs) = true).
  { apply forallb_forall. intros c Hc.
    pose proof (fromCharCode_bytes bs) as Hb. rewrite Forall_forall in Hb.
    specialize (Hb c Hc). apply Z.leb_le. lia. }
  rewrite H. reflexivity.
Qed.

Lemma atob_encode_bytes (bs : octets) :
  atob (encode (fromCharCode bs)) = ok (fromCharCode bs).
Proof. apply atob_encode. apply fromCharCode_bytes. Qed.

End Base64Facts.

(** * UTF-8: decoding inverts encoding *)

Module Utf8Facts.
Import Js Web Utf8 Util WebFacts.

Lemma start_ascii (b : Z) : 0 <= b <= 127 -> start b = (initial, [b]).
Proof.
  intros H. unfold start.
  destruct (b <=? 127) eqn:E; [reflexivity|]. apply Z.leb_gt in E. lia.
Qed.

Ltac decide_tests :=
  repeat match goal with
         | |- context [?a <=? ?b] =>
             first [ replace (a <=? b) with true
                       by (symmetry; apply Z.leb_le; lia)
                   | replace (a <=? b) with false
                       by (symmetry; apply Z.leb_gt; lia) ]
         | |- context [?a <? ?b] =>
             first [ replace (a <? b) with true
                       by (symmetry; apply Z.ltb_lt; lia)
                   | replace (a <? b) with false
                       by (symmetry; apply Z.ltb_ge; lia) ]
         end; cbn [andb orb].

Lemma start_lead2 (b : Z) :
  194 <= b <= 223 ->
  start b = ({| codePoint := b mod 2 ^ 5; bytesSeen := 0; bytesNeeded := 1;
                lower := 128; upper := 191 |}, []).
Proof.
  intros H. unfold start. decide_tests. rewrite land_31. reflexivity.
Qed.

Lemma start_lead3 (b : Z) :
  224 <= b <= 239 ->
  start b = ({| codePoint := b mod 2 ^ 4; bytesSeen := 0; bytesNeeded := 2;
                lower := if b =? 224 then 160 else 128;
                upper := if b =? 237 then 159 else 191 |}, []).
Proof.
  intros H. unfold start. decide_tests. rewrite land_15. reflexivity.
Qed.

Lemma start_lead4 (b : Z) :
  240 <= b <= 244 ->
  start b = ({| codePoint := b mod 2 ^ 3; bytesSeen := 0; bytesNeeded := 3;
                lower := if b =? 240 then 144 else 128;
                upper := if b =? 244 then 143 else 191 |}, []).
Proof.
  intros H. unfold start. decide_tests. rewrite land_7. reflexivity.
Qed.

(** A continuation byte within the bounds, on an open sequence. *)
Lemma step_continue (st : decoder) (b : Z) :
  bytesNeeded st <> 0 -> lower st <= b <= upper st -> 0 <= b ->
  step st b =
  let cp := codePoint st * 2 ^ 6 + b mod 2 ^ 6 in
  if bytesSeen st + 1 =? bytesNeeded st then (initial, [cp])
  else ({| codePoint := cp; bytesSeen := bytesSeen st + 1;
           bytesNeeded := bytesNeeded st; lower := 128; upper := 191 |}, []).
Proof.
  intros Hn Hb Hb0. unfold step.
  replace (bytesNeeded st =? 0) with false
    by (symmetry; apply Z.eqb_neq; exact Hn).
  decide_tests.
  rewrite shiftl_mul, land_63 by lia.
  rewrite lor_disjoint by (try lia; divmod). reflexivity.
Qed.

Lemma encodeCodePoint_bytes (cp : Z) :
  scalar cp -> Forall (fun b => 0 <= b < 256) (encodeCodePoint cp).
Proof.
  intros [Hr Hs]. unfold encodeCodePoint.
  destruct (cp <? 128) eqn:E1; [apply Z.ltb_lt in E1|apply Z.ltb_ge in E1].
  { repeat constructor; lia. }
  destruct (cp <? 2048) eqn:E2; [apply Z.ltb_lt in E2|apply Z.ltb_ge in E2].
  { bits_to_arith. rewrite !lor_128 by divmod.
    repeat constructor; divmod. }
  destruct (cp <? 65536) eqn:E3; [apply Z.ltb_lt in E3|apply Z.ltb_ge in E3].
  { bits_to_arith. rewrite !lor_128 by divmod.
    repeat constructor; divmod. }
  bits_to_arith. rewrite !lor_128 by divmod.
  repeat constructor; divmod.
Qed.

(** After a continuation byte: the count of bytes seen against the count
    needed is a closed test. *)
Ltac open_sequence :=
  cbn [bytesNeeded bytesSeen codePoint lower upper];
  repeat match goal with
         | |- context [?a =? ?b] =>
             let v := eval vm_compute in (a =? b) in
             change (a =? b) with v
         end;
  cbv beta zeta iota; cbn [app].

(** The decoder reads the bytes of one scalar value back as that value and
    is again in its initial state. *)
Lemma run_encodeCodePoint (cp : Z) (rest : list Z) :
  scalar cp ->
  run initial (encodeCodePoint cp ++ rest) = cp :: run initial rest.
Proof.
  intros [Hr Hs]. unfold encodeCodePoint.
  destruct (cp <? 128) eqn:E1; [apply Z.ltb_lt in E1|apply Z.ltb_ge in E1].
  { cbn [app run]. unfold step. cbn [bytesNeeded initial Z.eqb].
    rewrite start_ascii by lia. reflexivity. }
  destruct (cp <? 2048) eqn:E2; [apply Z.ltb_lt in E2|apply Z.ltb_ge in E2].
  { bits_to_arith. rewrite !lor_128 by divmod.
    cbn [app run]. unfold step at 1. cbn [bytesNeeded initial Z.eqb].
    rewrite start_lead2 by divmod.
    rewrite step_continue by (cbn [bytesNeeded lower upper]; divmod).
    open_sequence.
    f_equal. divmod. }
  destruct (cp <? 65536) eqn:E3; [apply Z.ltb_lt in E3|apply Z.ltb_ge in E3].
  { bits_to_arith. rewrite !lor_128 by divmod.
    cbn [app run]. unfold step at 1. cbn [bytesNeeded initial Z.eqb].
    rewrite start_lead3 by divmod.
    rewrite step_continue.
    2: cbn [bytesNeeded]; lia.
    2: { cbn [lower upper].
         destruct (cp / 2 ^ 12 + 224 =? 224) eqn:Ea;
           [apply Z.eqb_eq in Ea|apply Z.eqb_neq in Ea];
           (destruct (cp / 2 ^ 12 + 224 =? 237) eqn:Eb;
            [apply Z.eqb_eq in Eb|apply Z.eqb_neq in Eb]); divmod. }
    2: divmod.
    open_sequence.
    rewrite step_continue by (cbn [bytesNeeded lower upper]; divmod).
    open_sequence.
    f_equal. divmod. }
  bits_to_arith. rewrite !lor_128 by divmod.
  cbn [app run]. unfold step at 1. cbn [bytesNeeded initial Z.eqb].
  rewrite start_lead4 by divmod.
  rewrite step_continue.
  2: cbn [bytesNeeded]; lia.
  2: { cbn [lower upper].
       destruct (cp / 2 ^ 18 + 240 =? 240) eqn:Ea;
         [apply Z.eqb_eq in Ea|apply Z.eqb_neq in Ea];
         (destruct (cp / 2 ^ 18 + 240 =? 244) eqn:Eb;
          [apply Z.eqb_eq in Eb|apply Z.eqb_neq in Eb]); divmod. }
  2: divmod.
  open_sequence.
  rewrite step_continue by (cbn [bytesNeeded lower upper]; divmod).
  open_sequence.
  rewrite step_continue by (cbn [bytesNeeded lower upper]; divmod).
  open_sequence.
  f_equal. divmod.
Qed.

Lemma decodeUtf8_encode (cps : list Z) :
  Forall scalar cps -> decodeUtf8 (flat_map encodeCodePoint cps) = cps.
Proof.
  unfold decodeUtf8.
  induction 1 as [|cp cps Hcp _ IH]; [reflexivity|].
  cbn [flat_map]. rewrite run_encodeCodePoint by exact Hcp.
  rewrite IH. reflexivity.
Qed.

Lemma encodeUtf8_bytes (cps : list Z) :
  Forall scalar cps ->
  Forall (fun b => 0 <= b < 256) (flat_map encodeCodePoint cps).
Proof.
  induction 1 as [|cp cps Hcp _ IH]; [constructor|].
  cbn [flat_map]. apply Forall_app. split; [|exact IH].
  apply encodeCodePoint_bytes. exact Hcp.
Qed.

Lemma isLead_spec (c : Z) : isLead c = true <-> 55296 <= c <= 56319.
Proof. unfold isLead. rewrite andb_true_iff, !Z.leb_le. tauto. Qed.

Lemma isTrail_spec (c : Z) : isTrail c = true <-> 56320 <= c <= 57343.
Proof. unfold isTrail. rewrite andb_true_iff, !Z.leb_le. tauto. Qed.

Lemma isLead_false (c : Z) : isLead c = false <-> ~ (55296 <= c <= 56319).
Proof. rewrite <- isLead_spec. destruct (isLead c); intuition congruence. Qed.

Lemma isTrail_false (c : Z) : isTrail c = false <-> ~ (56320 <= c <= 57343).
Proof.
  rewrite <- isTrail_spec. destruct (isTrail c); intuition congruence.
Qed.

(** The two ways a well-formed text can begin. *)
Lemma wellFormed_cons (c : Z) (s : jsstring) :
  wellFormed (c :: s) ->
  (0 <= c < 65536 /\ isLead c = false /\ isTrail c = false /\ wellFormed s) \/
  (exists d s', s = d :: s' /\ isLead c = true /\ isTrail d = true /\
                wellFormed s').
Proof.
  cbn [wellFormed]. intros [Hc H].
  destruct (isLead c) eqn:E.
  - right. destruct s as [|d s']; [contradiction|].
    destruct H as [Hd Hs]. exists d, s'. auto.
  - left. tauto.
Qed.

(** The scalar value of a surrogate pair, and its code units. *)
Lemma pair_scalar (c d : Z) :
  isLead c = true -> isTrail d = true ->
  scalar (Z.shiftl (c - 55296) 10 + (d - 56320) + 65536) /\
  codeUnits (Z.shiftl (c - 55296) 10 + (d - 56320) + 65536) = [c; d] /\
  Z.shiftl (c - 55296) 10 + (d - 56320) + 65536 <> BOM.
Proof.
  intros Hc Hd. apply isLead_spec in Hc. apply isTrail_spec in Hd.
  rewrite shiftl_mul by lia. unfold scalar, codeUnits, BOM.
  split; [lia|]. split; [|lia].
  destruct (_ <? 65536) eqn:E; [apply Z.ltb_lt in E; lia|].
  bits_to_arith. f_equal; [|f_equal]; divmod.
Qed.

(** On well-formed text the conversion to scalar values loses nothing. *)
Lemma toScalarValues_wellFormed (n : nat) : forall s : jsstring,
  (length s <= n)%nat -> wellFormed s ->
  Forall scalar (toScalarValues s) /\
  flat_map codeUnits (toScalarValues s) = s.
Proof.
  induction n as [|n IH]; intros s Hn Hwf.
  - destruct s; [split; [constructor|reflexivity]|simpl in Hn; lia].
  - destruct s as [|c s]; [split; [constructor|reflexivity]|].
    simpl in Hn.
    destruct (wellFormed_cons c s Hwf)
      as [(Hc & Hl & Ht & Hs)|(d & s' & -> & Hl & Ht & Hs)].
    + cbn [toScalarValues]. rewrite Hl, Ht.
      destruct (IH s ltac:(lia) Hs) as [IH1 IH2].
      apply isLead_false in Hl. apply isTrail_false in Ht.
      split.
      * constructor; [unfold scalar; lia|exact IH1].
      * cbn [flat_map]. rewrite IH2. unfold codeUnits.
        destruct (c <? 65536) eqn:E; [reflexivity|].
        apply Z.ltb_ge in E. lia.
    + cbn [toScalarValues]. rewrite Hl, Ht.
      simpl in Hn.
      destruct (IH s' ltac:(lia) Hs) as [IH1 IH2].
      destruct (pair_scalar c d Hl Ht) as (Hsc & Hcu & _).
      split.
      * constructor; assumption.
      * cbn [flat_map]. rewrite IH2, Hcu. reflexivity.
Qed.

(** The first scalar value of a well-formed text is U+FEFF only when its
    first code unit is. *)
Lemma toScalarValues_head (c : Z) (s : jsstring) :
  wellFormed (c :: s) -> c <> BOM ->
  stripBOM (toScalarValues (c :: s)) = toScalarValues (c :: s).
Proof.
  intros Hwf Hc.
  destruct (wellFormed_cons c s Hwf)
    as [(_ & Hl & Ht & _)|(d & s' & -> & Hl & Ht & _)];
    cbn [toScalarValues]; rewrite Hl, Ht; cbn [stripBOM].
  - destruct (c =? BOM) eqn:E; [apply Z.eqb_eq in E; contradiction|].
    reflexivity.
  - destruct (pair_scalar c d Hl Ht) as (_ & _ & Hne).
    destruct (_ =? BOM) eqn:E; [apply Z.eqb_eq in E; contradiction|].
    reflexivity.
Qed.

Lemma wellFormed_BOM (s : jsstring) :
  wellFormed (BOM :: s) -> wellFormed s /\
  toScalarValues (BOM :: s) = BOM :: toScalarValues s.
Proof.
  intros H. cbn [wellFormed] in H.
  change (isLead BOM) with false in H. tauto.
Qed.

(** What [TextDecoder] returns on the bytes of [TextEncoder], for any
    well-formed text: the text without one leading U+FEFF. *)
Lemma decode_encode_stripBOM (s : jsstring) :
  wellFormed s ->
  TextDecoder_decode (TextEncoder_encode s) =
  flat_map codeUnits (stripBOM (toScalarValues s)).
Proof.
  intros Hwf. unfold TextDecoder_decode, TextEncoder_encode, encodeUtf8.
  destruct (toScalarValues_wellFormed (length s) s (Nat.le_refl _) Hwf)
    as [Hsc _].
  rewrite map_Z_of_byte_of_Z by (apply encodeUtf8_bytes; exact Hsc).
  rewrite decodeUtf8_encode by exact Hsc. reflexivity.
Qed.

(** Decoding inverts encoding on well-formed text that does not begin with
    U+FEFF. *)
Lemma decode_encode (s : jsstring) :
  wellFormed s -> hd 0 s <> BOM ->
  TextDecoder_decode (TextEncoder_encode s) = s.
Proof.
  intros Hwf Hhd. rewrite decode_encode_stripBOM by exact Hwf.
  destruct s as [|c s]; [reflexivity|].
  rewrite toScalarValues_head by assumption.
  apply (toScalarValues_wellFormed (length (c :: s))); [lia|exact Hwf].
Qed.

(** A leading U+FEFF is lost. *)
Lemma decode_encode_BOM (s : jsstring) :
  wellFormed (BOM :: s) ->
  TextDecoder_decode (TextEncoder_encode (BOM :: s)) = s.
Proof.
  intros Hwf. rewrite decode_encode_stripBOM by exact Hwf.
  destruct (wellFormed_BOM s Hwf) as [Hs ->].
  cbn [stripBOM]. change (BOM =? BOM) with true. cbv iota.
  apply (toScalarValues_wellFormed (length s)); [lia|exact Hs].
Qed.

End Utf8Facts.

(** * The symmetric envelope *)

Module EnvelopeFacts.
Import Js Web Base64 Utf8 Subtle Crypto Util WebFacts Base64Facts Utf8Facts.

Lemma setAt_app (pre mid post source : octets) (offset : nat) :
  length pre = offset -> length mid = length source ->
  setAt (pre ++ mid ++ post) source offset = pre ++ source ++ post.
Proof.
  intros Hpre Hmid. unfold setAt. subst offset.
  rewrite firstn_app, firstn_all, Nat.sub_diag, firstn_O, app_nil_r.
  rewrite skipn_app, (skipn_all2 pre) by lia. cbn [app].
  replace (length pre + length source - length pre)%nat with (length mid)
    by lia.
  rewrite skipn_app, skipn_all, Nat.sub_diag, skipn_O. reflexivity.
Qed.

(** The three [set] calls fill the buffer with the three fields in order. *)
Lemma combine_concat (salt iv encrypted : octets) :
  combine salt iv encrypted = salt ++ iv ++ encrypted.
Proof.
  unfold combine, newUint8Array.
  rewrite !repeat_app, <- app_assoc.
  pose proof (setAt_app [] (repeat Byte.x00 (length salt))
                (repeat Byte.x00 (length iv) ++
                 repeat Byte.x00 (length encrypted)) salt 0 eq_refl
                (repeat_length _ _)) as H0.
  cbn [app] in H0. rewrite H0.
  rewrite (setAt_app salt _ _ iv) by (try rewrite repeat_length; reflexivity).
  rewrite <- (app_nil_r (repeat _ (length encrypted))).
  rewrite (app_assoc salt iv).
  rewrite (setAt_app (salt ++ iv) _ [] encrypted)
    by (try rewrite length_app; try rewrite repeat_length; reflexivity).
  rewrite app_nil_r, <- app_assoc. reflexivity.
Qed.

Lemma envelope_slices (salt iv data : octets) :
  length salt = 16%nat -> length iv = 12%nat ->
  envelopeSalt (salt ++ iv ++ data) = salt /\
  envelopeIv (salt ++ iv ++ data) = iv /\
  envelopeData (salt ++ iv ++ data) = data.
Proof.
  intros Hs Hi. unfold envelopeSalt, envelopeIv, envelopeData, slice, sliceFrom.
  change (16 - 0)%nat with 16%nat. change (28 - 16)%nat with 12%nat.
  repeat split.
  - rewrite skipn_O, firstn_app, Hs, Nat.sub_diag, firstn_O, app_nil_r.
    apply firstn_all2. lia.
  - rewrite skipn_app, Hs, Nat.sub_diag, skipn_O.
    rewrite (skipn_all2 salt) by lia. cbn [app].
    rewrite firstn_app, Hi, Nat.sub_diag, firstn_O, app_nil_r.
    apply firstn_all2. lia.
  - rewrite app_assoc, skipn_app, length_app, Hs, Hi.
    change (28 - (16 + 12))%nat with 0%nat. rewrite skipn_O.
    rewrite skipn_all2 by (rewrite length_app; lia). reflexivity.
Qed.

Section WithPrimitives.
Context {P : Primitives} {E : Engine}.

Lemma saltOf_length (e : Entropy) : length (saltOf e) = 16%nat.
Proof. unfold saltOf. rewrite length_map, length_seq. reflexivity. Qed.

Lemma ivOf_length (e : Entropy) : length (ivOf e) = 12%nat.
Proof. unfold ivOf. rewrite length_map, length_seq. reflexivity. Qed.

Lemma spreadFromCharCode_fits (bs : octets) :
  Z.of_nat (length bs) <= maxArguments ->
  spreadFromCharCode bs = ok (fromCharCode bs).
Proof.
  intros H. unfold spreadFromCharCode.
  replace (Z.of_nat (length bs) <=? maxArguments) with true; [reflexivity|].
  symmetry. apply Z.leb_le. exact H.
Qed.

Lemma spreadFromCharCode_exceeds (bs : octets) :
  maxArguments < Z.of_nat (length bs) ->
  spreadFromCharCode bs = throw RangeError.
Proof.
  intros H. unfold spreadFromCharCode.
  replace (Z.of_nat (length bs) <=? maxArguments) with false; [reflexivity|].
  symmetry. apply Z.leb_gt. exact H.
Qed.

(** [encryptAES256] returns when the engine takes the bytes of [combined]
    as arguments of one call, with the envelope made of the salt, the iv
    and the sealed data; otherwise it rejects with the RangeError of the
    spread call. Both ways it has drawn the salt and the iv. *)
Lemma encryptAES256_spread (text password : jsstring) (e : Entropy) :
  encryptAES256 text password e =
  (if Z.of_nat (length (saltOf e ++ ivOf e ++ sealedOf text password e))
      <=? maxArguments
   then
     inr {| encrypted :=
              encode (fromCharCode
                        (saltOf e ++ ivOf e ++ sealedOf text password e));
            iv := Some (encode (fromCharCode (ivOf e)));
            salt := Some (encode (fromCharCode (saltOf e)));
            metadata := None |}
   else inl RangeError,
   fun i => e (16 + (12 + i))%nat).
Proof.
  unfold encryptAES256, bind, lift, getRandomValues, ret.
  cbn [importKey_PBKDF2 ok deriveKey_PBKDF2_AES_GCM allows usages existsb
       usage_eqb orb material encrypt_AES_GCM].
  rewrite combine_concat.
  change (gcm_seal _ _ _) with (sealedOf text password e).
  change (map (fun i => e (16 + i)%nat) (seq 0 12)) with (ivOf e).
  change (map e (seq 0 16)) with (saltOf e).
  destruct (Z.of_nat (length (saltOf e ++ ivOf e ++ sealedOf text password e))
            <=? maxArguments) eqn:Hfit.
  - apply Z.leb_le in Hfit.
    rewrite !length_app, saltOf_length, ivOf_length in Hfit.
    rewrite (spreadFromCharCode_fits
               (saltOf e ++ ivOf e ++ sealedOf text password e))
      by (rewrite !length_app, saltOf_length, ivOf_length; lia).
    rewrite (spreadFromCharCode_fits (saltOf e))
      by (rewrite saltOf_length; lia).
    rewrite (spreadFromCharCode_fits (ivOf e)) by (rewrite ivOf_length; lia).
    cbn [bindR ok]. rewrite !btoa_fromCharCode. reflexivity.
  - apply Z.leb_gt in Hfit.
    rewrite (spreadFromCharCode_exceeds
               (saltOf e ++ ivOf e ++ sealedOf text password e))
      by exact Hfit.
    reflexivity.
Qed.

(** On an envelope of a 16-byte salt, a 12-byte iv and data,
    [decryptAES256] derives the key from that salt and opens that data
    under that iv. *)
Lemma decryptAES256_envelope (salt iv data : octets) (password : jsstring) :
  length salt = 16%nat -> length iv = 12%nat ->
  decryptAES256 (encode (fromCharCode (salt ++ iv ++ data))) password =
  bindR (decrypt_AES_GCM iv
           {| material := AesGcmKey (keyOf password salt);
              usages := [Udecrypt] |} data)
        (fun decrypted => ok (TextDecoder_decode decrypted)).
Proof.
  intros Hs Hi. unfold decryptAES256.
  rewrite atob_encode_bytes. cbn [bindR ok].
  rewrite charCodes_fromCharCode.
  destruct (envelope_slices salt iv data Hs Hi) as (-> & -> & ->).
  reflexivity.
Qed.

Context {L : PrimitiveLaws P}.

Lemma decrypt_AES_GCM_sealed (key iv data : octets) :
  length key = 32%nat -> length iv = 12%nat ->
  decrypt_AES_GCM iv {| material := AesGcmKey key; usages := [Udecrypt] |}
    (gcm_seal key iv data) = ok data.
Proof.
  intros Hk Hi. unfold decrypt_AES_GCM.
  cbn [allows usages existsb usage_eqb orb material].
  rewrite gcm_seal_length.
  replace (length data + 16 <? 16)%nat with false
    by (symmetry; apply Nat.ltb_ge; lia).
  rewrite gcm_open_seal by assumption. reflexivity.
Qed.

Lemma envelope_size (text password : jsstring) (e : Entropy) :
  Z.of_nat (length (saltOf e ++ ivOf e ++ sealedOf text password e))
  = envelopeLength text.
Proof.
  unfold sealedOf, envelopeLength.
  rewrite !length_app, saltOf_length, ivOf_length, gcm_seal_length. lia.
Qed.

(** [encryptAES256] returns on a text whose envelope is within the
    argument limit. *)
Lemma encryptAES256_returns (text password : jsstring) (e : Entropy) :
  envelopeLength text <= maxArguments ->
  encryptAES256 text password e =
  (inr {| encrypted :=
            encode (fromCharCode
                      (saltOf e ++ ivOf e ++ sealedOf text password e));
          iv := Some (encode (fromCharCode (ivOf e)));
          salt := Some (encode (fromCharCode (saltOf e)));
          metadata := None |},
   fun i => e (16 + (12 + i))%nat).
Proof.
  intros Hfit. rewrite encryptAES256_spread, envelope_size.
  replace (envelopeLength text <=? maxArguments) with true; [reflexivity|].
  symmetry. apply Z.leb_le. exact Hfit.
Qed.

(** [encryptAES256] rejects a text whose envelope is above the argument
    limit. *)
Lemma encryptAES256_rejects (text password : jsstring) (e : Entropy) :
  maxArguments < envelopeLength text ->
  encryptAES256 text password e
  = (inl RangeError, fun i => e (16 + (12 + i))%nat).
Proof.
  intros Hfit. rewrite encryptAES256_spread, envelope_size.
  replace (envelopeLength text <=? maxArguments) with false; [reflexivity|].
  symmetry. apply Z.leb_gt. exact Hfit.
Qed.

(** Decrypting the envelope of [encryptAES256] with the same password
    gives what [TextDecoder] makes of the bytes of [TextEncoder]. *)
Lemma decryptAES256_encryptAES256 (text password : jsstring) (e : Entropy) :
  envelopeLength text <= maxArguments ->
  exists r e',
    encryptAES256 text password e = (inr r, e') /\
    decryptAES256 (encrypted r) password =
    ok (TextDecoder_decode (TextEncoder_encode text)).
Proof.
  intros Hfit.
  eexists; eexists. split; [apply encryptAES256_returns; exact Hfit|].
  cbn [encrypted].
  rewrite decryptAES256_envelope by (apply saltOf_length || apply ivOf_length).
  unfold sealedOf.
  rewrite decrypt_AES_GCM_sealed; [reflexivity| |apply ivOf_length].
  unfold keyOf. apply pbkdf2_length.
Qed.

End WithPrimitives.

End EnvelopeFacts.

(** * The reference instance meets the laws *)

Module ReferenceFacts.
Import Js Web Subtle Crypto.

Lemma octets_eqb_refl (a : octets) : octets_eqb a a = true.
Proof.
  induction a as [|x a IH]; [reflexivity|]. simpl.
  rewrite (Byte.byte_dec_lb (eq_refl x)), IH. reflexivity.
Qed.

Lemma refTag_length (k iv : octets) : length (refTag k iv) = 16%nat.
Proof.
  unfold refTag. apply firstn_length_le.
  rewrite !length_app, repeat_length. lia.
Qed.

Lemma skipn_length_app {A : Type} (a b : list A) : skipn (length a) (a ++ b) = b.
Proof.
  rewrite skipn_app, skipn_all, Nat.sub_diag. reflexivity.
Qed.

Lemma firstn_length_app {A : Type} (a b : list A) :
  firstn (length a) (a ++ b) = a.
Proof.
  rewrite firstn_app, firstn_all, Nat.sub_diag, firstn_O. apply app_nil_r.
Qed.

Lemma refPrimitives_laws : PrimitiveLaws refPrimitives.
Proof.
  constructor; cbn [pbkdf2 gcm_seal gcm_open spki_import spki_export
                    pkcs8_import pkcs8_export oaep_encrypt oaep_decrypt
                    rsa_generate refPrimitives].
  - intros pw salt it n. apply firstn_length_le.
    rewrite !length_app, repeat_length. lia.
  - intros k iv pt. rewrite length_app, refTag_length. reflexivity.
  - intros k iv pt _ _.
    rewrite length_app, refTag_length.
    replace (length pt + 16 - 16)%nat with (length pt) by lia.
    rewrite skipn_length_app, octets_eqb_refl, firstn_length_app.
    reflexivity.
  - reflexivity.
  - reflexivity.
  - intros bits e pk sk e' seed m _ Hgen Hseed _.
    injection Hgen as <- <- _.
    eexists. split; [reflexivity|]. split.
    + destruct seed; [discriminate|]. discriminate.
    + match goal with |- context [m ++ ?kk] => set (k := kk) end.
      assert (Hn : (length (firstn 1 seed ++ m ++ k) - length k
                    = length (firstn 1 seed ++ m))%nat).
      { rewrite !length_app. lia. }
      rewrite Hn, (app_assoc (firstn 1 seed) m k).
      rewrite skipn_length_app, octets_eqb_refl, firstn_length_app.
      destruct seed as [|s0 seed]; [discriminate|]. reflexivity.
Qed.

End ReferenceFacts.

(** * The symmetric cipher and the keyed digest: the claims *)

Module SymmetricFacts.
Import Js Web Base64 Utf8 Subtle Crypto Util WebFacts Base64Facts Utf8Facts
  EnvelopeFacts ReferenceFacts.

(** C4: whenever [encryptAES256] returns, its [encrypted] field is the
    base64 encoding of the 16-byte salt, then the 12-byte iv, then the
    ciphertext with its tag; [atob] gives these bytes back and the three
    slices of [decryptAES256] are the three fields. The call returns when
    the engine takes these 28 bytes and the ciphertext with its tag as
    the arguments of the spread call, and rejects with a RangeError
    otherwise. On any blob, [decryptAES256] takes bytes 0-15 of the
    decoded bytes as salt, bytes 16-27 as iv and all bytes from 28 on as
    the data to open. *)
Theorem envelope_layout (P : Primitives) (E : Engine) :
  (forall (text password : jsstring) (e : Entropy) (r : EncryptionResult)
          (e' : Entropy),
     encryptAES256 text password e = (inr r, e') ->
     exists (s i sealed : octets),
       length s = 16%nat /\ length i = 12%nat /\
       sealed = gcm_seal (pbkdf2 (TextEncoder_encode password) s 100000 32)
                  i (TextEncoder_encode text) /\
       btoa (fromCharCode (s ++ i ++ sealed)) = ok (encrypted r) /\
       atob (encrypted r) = ok (fromCharCode (s ++ i ++ sealed)) /\
       envelopeSalt (charCodes (fromCharCode (s ++ i ++ sealed))) = s /\
       envelopeIv (charCodes (fromCharCode (s ++ i ++ sealed))) = i /\
       envelopeData (charCodes (fromCharCode (s ++ i ++ sealed))) = sealed) /\
  (forall (text password : jsstring) (e : Entropy),
     (28 + Z.of_nat (length (sealedOf text password e)) <= maxArguments ->
      exists r e', encryptAES256 text password e = (inr r, e')) /\
     (maxArguments < 28 + Z.of_nat (length (sealedOf text password e)) ->
      fst (encryptAES256 text password e) = throw RangeError)) /\
  (forall blob password : jsstring,
     decryptAES256 blob password =
     bindR (atob blob) (fun bin =>
       let combined := charCodes bin in
       bindR (decrypt_AES_GCM
                (firstn 12 (skipn 16 combined))
                {| material :=
                     AesGcmKey (pbkdf2 (TextEncoder_encode password)
                                  (firstn 16 combined) 100000 32);
                   usages := [Udecrypt] |}
                (skipn 28 combined))
             (fun decrypted => ok (TextDecoder_decode decrypted)))).
Proof.
  assert (Hsize : forall text password e,
            Z.of_nat (length (saltOf e ++ ivOf e ++ sealedOf text password e))
            = 28 + Z.of_nat (length (sealedOf text password e))).
  { intros. rewrite !length_app, saltOf_length, ivOf_length. lia. }
  split; [|split].
  - intros text password e r e' Hrun.
    rewrite encryptAES256_spread in Hrun.
    destruct (Z.of_nat (length (saltOf e ++ ivOf e
                                ++ sealedOf text password e))
              <=? maxArguments); [|discriminate Hrun].
    assert (Hr : r = {| encrypted :=
                          encode (fromCharCode
                                    (saltOf e ++ ivOf e
                                     ++ sealedOf text password e));
                        iv := Some (encode (fromCharCode (ivOf e)));
                        salt := Some (encode (fromCharCode (saltOf e)));
                        metadata := None |}) by congruence.
    subst r. cbn [encrypted].
    exists (saltOf e), (ivOf e), (sealedOf text password e).
    split; [apply saltOf_length|]. split; [apply ivOf_length|].
    split; [reflexivity|].
    split; [apply btoa_fromCharCode|].
    split; [apply atob_encode_bytes|].
    rewrite charCodes_fromCharCode.
    apply envelope_slices; [apply saltOf_length|apply ivOf_length].
  - intros text password e. rewrite encryptAES256_spread, Hsize. split.
    + intros Hfit.
      replace (_ <=? maxArguments) with true
        by (symmetry; apply Z.leb_le; exact Hfit).
      eexists; eexists; reflexivity.
    + intros Hfit.
      replace (_ <=? maxArguments) with false
        by (symmetry; apply Z.leb_gt; exact Hfit).
      reflexivity.
  - intros blob password. unfold decryptAES256.
    destruct (atob blob) as [x|bin]; reflexivity.
Qed.

(** C1, the claim as stated, fails in two ways. On the one-character
    text U+FEFF, with any primitives that meet the laws, any engine that
    takes the 47 bytes of the envelope, any password and any randomness,
    [encryptAES256] returns and [decryptAES256] on its [encrypted] field
    returns the empty text. And on every text whose envelope has more
    bytes than the engine takes arguments, [encryptAES256] rejects with a
    RangeError. *)
Lemma round_trip_loses_BOM :
  (forall (P : Primitives), PrimitiveLaws P ->
   forall (E : Engine), 47 <= maxArguments ->
   forall (password : jsstring) (e : Entropy),
     exists r e', encryptAES256 [BOM] password e = (inr r, e') /\
                  decryptAES256 (encrypted r) password = ok []) /\
  (forall (P : Primitives), PrimitiveLaws P ->
   forall (E : Engine) (text password : jsstring) (e : Entropy),
     maxArguments < envelopeLength text ->
     fst (encryptAES256 text password e) = throw RangeError) /\
  ~ (forall (P : Primitives), PrimitiveLaws P ->
     forall (E : Engine) (text password : jsstring) (e : Entropy),
       wellFormed text -> password <> [] ->
       exists r e', encryptAES256 text password e = (inr r, e') /\
                    decryptAES256 (encrypted r) password = ok text).
Proof.
  assert (Hlost : forall (P : Primitives), PrimitiveLaws P ->
            forall (E : Engine), 47 <= maxArguments ->
            forall (password : jsstring) (e : Entropy),
              exists r e', encryptAES256 [BOM] password e = (inr r, e') /\
                           decryptAES256 (encrypted r) password = ok []).
  { intros P L E Hroom password e.
    destruct (decryptAES256_encryptAES256 [BOM] password e Hroom)
      as (r & e' & Henc & Hdec).
    exists r, e'. split; [exact Henc|]. rewrite Hdec.
    rewrite (decode_encode_BOM []); [reflexivity|].
    vm_compute. intuition discriminate. }
  split; [exact Hlost|]. split.
  - intros P L E text password e Hfit.
    rewrite (encryptAES256_rejects text password e Hfit). reflexivity.
  - intros H.
    destruct (Hlost refPrimitives refPrimitives_laws refEngine
                ltac:(vm_compute; discriminate) (lit "pw") countingEntropy)
      as (r & e' & Henc & Hdec).
    destruct (H refPrimitives refPrimitives_laws refEngine [BOM] (lit "pw")
                countingEntropy) as (r2 & e2 & Henc2 & Hdec2).
    + vm_compute. intuition discriminate.
    + discriminate.
    + rewrite Henc in Henc2. injection Henc2 as <- _.
      rewrite Hdec in Hdec2. discriminate.
Qed.

(** C1, amended: for every well-formed text (every surrogate paired) and
    every password: when the envelope of the text (its UTF-8 bytes and 44
    bytes of salt, iv and tag) has no more bytes than the engine takes
    arguments in a call, [encryptAES256] returns, and [decryptAES256] on
    its [encrypted] field with the same password returns exactly the text
    when the text does not begin with U+FEFF; when it does, that first
    character is dropped and the rest is returned. When the envelope has
    more bytes, [encryptAES256] rejects with a RangeError. *)
Theorem symmetric_round_trip (P : Primitives) (L : PrimitiveLaws P)
    (E : Engine) (text password : jsstring) (e : Entropy) :
  wellFormed text ->
  (envelopeLength text <= maxArguments ->
   exists r e',
     encryptAES256 text password e = (inr r, e') /\
     (hd 0 text <> BOM -> decryptAES256 (encrypted r) password = ok text) /\
     (forall rest, text = BOM :: rest ->
                   decryptAES256 (encrypted r) password = ok rest)) /\
  (maxArguments < envelopeLength text ->
   fst (encryptAES256 text password e) = throw RangeError).
Proof.
  intros Hwf. split.
  - intros Hfit.
    destruct (decryptAES256_encryptAES256 text password e Hfit)
      as (r & e' & Henc & Hdec).
    exists r, e'. split; [exact Henc|]. rewrite Hdec. split.
    + intros Hhd. rewrite decode_encode by assumption. reflexivity.
    + intros rest ->. rewrite decode_encode_BOM by assumption. reflexivity.
  - intros Hfit.
    rewrite (encryptAES256_rejects text password e Hfit). reflexivity.
Qed.

Lemma symmetric_round_trip_witness :
  exists r e',
    encryptAES256 (P := refPrimitives) (E := refEngine) (lit "attack at dawn")
      (lit "correct horse battery staple") countingEntropy = (inr r, e') /\
    (hd 0 (lit "attack at dawn") <> BOM ->
     decryptAES256 (P := refPrimitives) (encrypted r)
       (lit "correct horse battery staple") = ok (lit "attack at dawn")) /\
    (forall rest, lit "attack at dawn" = BOM :: rest ->
     decryptAES256 (P := refPrimitives) (encrypted r)
       (lit "correct horse battery staple") = ok rest).
Proof.
  apply (symmetric_round_trip refPrimitives refPrimitives_laws refEngine
           (lit "attack at dawn") (lit "correct horse battery staple")
           countingEntropy).
  - vm_compute. intuition discriminate.
  - vm_compute. discriminate.
Defined.

(** C3, the claim as stated, fails on the blob of 32 'A's: it decodes to
    24 zero bytes (a full salt, 8 bytes of iv, no data) and, with any
    primitives and any password, is rejected with the OperationError that
    a failed tag verification gives, not with an error of its own. *)
Lemma short_blob_not_distinct :
  (forall (P : Primitives) (password : jsstring),
     atob (lit "AAAAAAAAAAAAAAAAAAAAAAAAAAAAAAAA") = ok (repeat 0 24) /\
     decryptAES256 (lit "AAAAAAAAAAAAAAAAAAAAAAAAAAAAAAAA") password
     = throw OperationError) /\
  ~ (forall (P : Primitives), PrimitiveLaws P ->
     forall (blob password bin : jsstring),
       atob blob = ok bin -> (length bin < 28)%nat ->
       exists x, decryptAES256 blob password = throw x /\
                 x <> OperationError).
Proof.
  split; [intros P password; split; reflexivity|].
  intros H.
  destruct (H refPrimitives refPrimitives_laws
              (lit "AAAAAAAAAAAAAAAAAAAAAAAAAAAAAAAA") (lit "pw")
              (repeat 0 24))
    as (x & Hx & Hne); [reflexivity|simpl; lia|].
  change (throw (A := jsstring) OperationError = throw x) in Hx.
  injection Hx as <-. apply Hne. reflexivity.
Qed.

(** C3, amended: a blob whose decoded length is below 28 is rejected, with
    the OperationError of the platform's AES-GCM decryption (the data left
    after the two slices is empty, shorter than the tag); this is the same
    exception as the one of a tag that does not verify, so the two cases
    are not told apart. A blob that [atob] rejects fails with [atob]'s
    exception instead. *)
Theorem short_blob_rejected (P : Primitives) :
  (forall blob password bin : jsstring,
     atob blob = ok bin -> (length bin < 28)%nat ->
     decryptAES256 blob password = throw OperationError) /\
  (forall (s i data : octets) (password : jsstring),
     length s = 16%nat -> length i = 12%nat ->
     gcm_open (keyOf password s) i data = None ->
     decryptAES256 (encode (fromCharCode (s ++ i ++ data))) password
     = throw OperationError) /\
  (forall (blob password : jsstring) (x : exn),
     atob blob = throw x -> decryptAES256 blob password = throw x).
Proof.
  split; [|split].
  - intros blob password bin Hbin Hlen. unfold decryptAES256.
    rewrite Hbin. cbn [bindR ok importKey_PBKDF2 deriveKey_PBKDF2_AES_GCM
                       allows usages existsb usage_eqb orb material].
    unfold decrypt_AES_GCM.
    cbn [allows usages existsb usage_eqb orb material].
    assert (Hd : envelopeData (charCodes bin) = []).
    { unfold envelopeData, sliceFrom. apply skipn_all2.
      unfold charCodes. rewrite length_map. lia. }
    rewrite Hd. reflexivity.
  - intros s i data password Hs Hi Hopen.
    rewrite decryptAES256_envelope by assumption.
    unfold decrypt_AES_GCM.
    cbn [allows usages existsb usage_eqb orb material].
    rewrite Hopen. destruct (length data <? 16)%nat; reflexivity.
  - intros blob password x Hx. unfold decryptAES256. rewrite Hx. reflexivity.
Qed.

Lemma short_blob_rejected_witness :
  decryptAES256 (P := refPrimitives) (lit "AAAAAAAAAAAAAAAAAAAAAAAA")
    (lit "pw") = throw OperationError.
Proof.
  apply (proj1 (short_blob_rejected refPrimitives)
           (lit "AAAAAAAAAAAAAAAAAAAAAAAA") (lit "pw") (repeat 0 18)).
  - reflexivity.
  - simpl. lia.
Defined.

Lemma TextEncoder_encode_nonempty (s : jsstring) :
  s <> [] -> TextEncoder_encode s <> [].
Proof.
  intros Hs. destruct s as [|c s]; [congruence|].
  unfold TextEncoder_encode, encodeUtf8.
  assert (H : exists cp cps, toScalarValues (c :: s) = cp :: cps).
  { cbn [toScalarValues].
    destruct (isLead c); [destruct s as [|d s']; [|destruct (isTrail d)]|
                          destruct (isTrail c)]; eauto. }
  destruct H as (cp & cps & ->). cbn [flat_map].
  unfold encodeCodePoint.
  destruct (cp <? 128); [discriminate|].
  destruct (cp <? 2048); [discriminate|].
  destruct (cp <? 65536); discriminate.
Qed.

(** With a non-empty secret, [generateHMAC] returns. *)
Lemma generateHMAC_nonempty_secret (P : Primitives) (text secret : jsstring) :
  secret <> [] -> exists h, generateHMAC text secret = ok h.
Proof.
  intros Hs. unfold generateHMAC, importKey_HMAC.
  destruct (TextEncoder_encode secret) as [|b bs] eqn:E.
  - exfalso. apply (TextEncoder_encode_nonempty secret Hs). exact E.
  - cbn [length Nat.eqb bindR ok sign_HMAC allows usages existsb usage_eqb
         orb material]. eexists. reflexivity.
Qed.

Section WithPrimitives.
Context {P : Primitives}.

Lemma generateHMAC_throws (text secret : jsstring) (x : exn) :
  generateHMAC text secret = throw x -> secret = [] /\ x = DataError.
Proof.
  intros H. destruct secret as [|c s].
  - split; [reflexivity|]. change (throw (A := jsstring) DataError = throw x) in H.
    injection H as <-. reflexivity.
  - destruct (generateHMAC_nonempty_secret P text (c :: s)) as [h Hh];
      [discriminate|]. rewrite Hh in H. discriminate H.
Qed.

(** A key import that rejects its data gives the same exception in
    [decryptRSA]. *)
Lemma decryptRSA_bad_key (encryptedData privateKeyB64 bin : jsstring) :
  atob privateKeyB64 = ok bin -> pkcs8_import (charCodes bin) = None ->
  decryptRSA encryptedData privateKeyB64 = throw DataError.
Proof.
  intros Hbin Hkey. unfold decryptRSA, importKey_pkcs8.
  rewrite Hbin. cbn [bindR ok]. rewrite Hkey. reflexivity.
Qed.

End WithPrimitives.

(** C7, the claim as stated, fails: with an empty secret [generateHMAC]
    does fail for every message, but with no error of the layer (the
    source has no check of the secret and throws nothing itself): the
    exception is the DataError of the platform's key import. *)
Lemma generateHMAC_no_error_of_its_own :
  (forall (P : Primitives) (text : jsstring),
     generateHMAC text [] = throw DataError) /\
  ~ (forall (P : Primitives) (text : jsstring),
       exists message, generateHMAC text [] = throw (Error message)).
Proof.
  split; [reflexivity|]. intros H.
  destruct (H refPrimitives (lit "message")) as [message Hm].
  destruct (generateHMAC_throws _ _ _ Hm) as [_ Hx]. discriminate Hx.
Qed.

(** C7, amended: [generateHMAC] fails exactly when the secret is empty,
    for every message, and the failure is the DataError that the key
    import of the platform raises for key data of length zero: an
    exception of the platform, the same one that a key import raises for
    data that is no key elsewhere in the layer, and not an
    EmptySecretError of the layer. With a non-empty secret the call
    returns. *)
Theorem generateHMAC_empty_secret (P : Primitives) (text : jsstring) :
  generateHMAC text [] = throw DataError /\
  (forall (secret : jsstring) (x : exn),
     generateHMAC text secret = throw x -> secret = [] /\ x = DataError) /\
  (forall secret : jsstring,
     secret <> [] -> exists h, generateHMAC text secret = ok h) /\
  (forall encryptedData privateKeyB64 bin : jsstring,
     atob privateKeyB64 = ok bin -> pkcs8_import (charCodes bin) = None ->
     decryptRSA encryptedData privateKeyB64 = throw DataError).
Proof.
  split; [reflexivity|]. split; [|split].
  - intros secret x. apply generateHMAC_throws.
  - intros secret. apply generateHMAC_nonempty_secret.
  - apply decryptRSA_bad_key.
Qed.

End SymmetricFacts.

(** * The hybrid envelope *)

Module HybridFacts.
Import Js Web Base64 Utf8 Subtle Crypto Util WebFacts Base64Facts Utf8Facts
  EnvelopeFacts ReferenceFacts SymmetricFacts.

Lemma b64char_ascii (v : Z) : sextet v -> ascii (b64char v).
Proof.
  intros Hv. unfold ascii.
  assert (H : (0 <=? b64char v) && (b64char v <? 128) = true).
  { apply (forallb_below (fun v => (0 <=? b64char v) && (b64char v <? 128))
             64); [vm_compute; reflexivity|exact Hv]. }
  apply andb_prop in H. destruct H as [H1 H2].
  apply Z.leb_le in H1. apply Z.ltb_lt in H2. lia.
Qed.

(** Base64 text is ASCII. *)
Lemma encode_ascii (bs : list Z) :
  Forall (fun b => 0 <= b < 256) bs -> Forall ascii (encode bs).
Proof.
  intros Hbs. unfold encode. apply Forall_app. split.
  - pose proof (sextets_range bs Hbs) as Hsx.
    apply Forall_forall. intros c Hc. apply in_map_iff in Hc.
    destruct Hc as (v & <- & Hin). rewrite Forall_forall in Hsx.
    apply b64char_ascii. apply Hsx. exact Hin.
  - destruct (encode_shape bs) as [q [[_ ->]|[[_ ->]|[_ ->]]]];
      repeat constructor; unfold ascii; lia.
Qed.

Lemma encode_length_bound (bs : list Z) :
  (3 * length (encode bs) <= 4 * length bs + 8)%nat.
Proof.
  unfold encode. rewrite length_app, length_map.
  induction bs as [| a | a b | a b c rest IH] using list_ind3;
    cbn [sextets padding length] in *; lia.
Qed.

Lemma encode_nonempty (bs : list Z) : bs <> [] -> encode bs <> [].
Proof.
  destruct bs as [|a [|b [|c rest]]]; [congruence| | |];
    intros _; unfold encode; cbn [sextets map app]; discriminate.
Qed.

(** ASCII text is its own UTF-8 encoding and decodes to itself. *)
Lemma ascii_encodeUtf8 (s : jsstring) : Forall ascii s -> encodeUtf8 s = s.
Proof.
  unfold encodeUtf8, ascii.
  induction 1 as [|c s Hc _ IH]; [reflexivity|].
  cbn [toScalarValues].
  replace (isLead c) with false
    by (symmetry; apply isLead_false; lia).
  replace (isTrail c) with false
    by (symmetry; apply isTrail_false; lia).
  cbn [flat_map]. rewrite IH. unfold encodeCodePoint.
  replace (c <? 128) with true by (symmetry; apply Z.ltb_lt; lia).
  reflexivity.
Qed.

Lemma ascii_wellFormed (s : jsstring) :
  Forall ascii s -> wellFormed s /\ hd 0 s <> BOM.
Proof.
  unfold ascii. intros H. split.
  - induction H as [|c s Hc _ IH]; [exact I|].
    cbn [wellFormed]. split; [lia|].
    replace (isLead c) with false
      by (symmetry; apply isLead_false; lia).
    split; [apply isTrail_false; lia|exact IH].
  - destruct H as [|c s Hc _]; unfold BOM; simpl; lia.
Qed.

Lemma ascii_decode_encode (s : jsstring) :
  Forall ascii s -> TextDecoder_decode (TextEncoder_encode s) = s.
Proof.
  intros H. destruct (ascii_wellFormed s H). apply decode_encode; assumption.
Qed.

Lemma ascii_encode_length (s : jsstring) :
  Forall ascii s -> length (TextEncoder_encode s) = length s.
Proof.
  intros H. unfold TextEncoder_encode.
  rewrite length_map, ascii_encodeUtf8 by exact H. reflexivity.
Qed.

Section WithPrimitives.
Context {P : Primitives}.

(** [generateRSAKeyPair] always returns, with the two exported keys in
    base64. *)
Lemma generateRSAKeyPair_returns (bits : Z) (now : jsstring) (e : Entropy) :
  generateRSAKeyPair bits now e =
  (inr {| publicKey :=
            encode (fromCharCode
                      (spki_export (fst (fst (rsa_generate bits e)))));
          privateKey :=
            encode (fromCharCode
                      (pkcs8_export (snd (fst (rsa_generate bits e)))));
          keySize := bits;
          created := now |},
   snd (rsa_generate bits e)).
Proof.
  unfold generateRSAKeyPair, bind, generateKey_RSA_OAEP.
  destruct (rsa_generate bits e) as [[pk sk] e'].
  cbn [fst snd lift exportKey_spki exportKey_pkcs8 material ok].
  rewrite !btoa_fromCharCode. reflexivity.
Qed.

Context {L : PrimitiveLaws P}.

(** [encryptRSA] under the public key of a generated pair, for a text
    whose bytes are within the ceiling of the modulus. *)
Lemma encryptRSA_generated (bits : Z) (e0 e1 : Entropy)
    (pk : rsa_public) (sk : rsa_private) (text : jsstring) (e : Entropy) :
  bits = 2048 \/ bits = 4096 ->
  rsa_generate bits e0 = ((pk, sk), e1) ->
  Z.of_nat (length (TextEncoder_encode text)) <= bits / 8 - 66 ->
  exists c e',
    encryptRSA text (encode (fromCharCode (spki_export pk))) e
    = (inr (encode (fromCharCode c)), e') /\
    c <> [] /\
    oaep_decrypt sk c = Some (TextEncoder_encode text).
Proof.
  intros Hbits Hgen Hlen.
  set (seed := map e (seq 0 32)).
  assert (Hseed : length seed = 32%nat)
    by (unfold seed; rewrite length_map, length_seq; reflexivity).
  destruct (oaep_decrypt_encrypt bits e0 pk sk e1 seed
              (TextEncoder_encode text) Hbits Hgen Hseed Hlen)
    as (c & Henc & Hne & Hdec).
  exists c, (fun i => e (32 + i)%nat).
  split; [|split; assumption].
  unfold encryptRSA. cbv zeta.
  rewrite atob_encode_bytes, bind_lift_ok, charCodes_fromCharCode.
  unfold importKey_spki. rewrite spki_import_export, bind_lift_ok.
  unfold encrypt_RSA_OAEP at 1.
  cbn [allows usages existsb usage_eqb orb material].
  rewrite (bind_returns _ _ e (fun i => e (32 + i)%nat) c).
  - rewrite btoa_fromCharCode. reflexivity.
  - rewrite bind_getRandomValues. fold seed. rewrite Henc. reflexivity.
Qed.

Lemma decryptRSA_opens (c m : octets) (sk : rsa_private) :
  oaep_decrypt sk c = Some m ->
  decryptRSA (encode (fromCharCode c))
    (encode (fromCharCode (pkcs8_export sk)))
  = ok (TextDecoder_decode m).
Proof.
  intros Hdec. unfold decryptRSA.
  rewrite !atob_encode_bytes. cbn [bindR ok].
  rewrite !charCodes_fromCharCode. unfold importKey_pkcs8.
  rewrite pkcs8_import_export. cbn [bindR ok].
  unfold decrypt_RSA_OAEP.
  cbn [allows usages existsb usage_eqb orb material].
  rewrite Hdec. reflexivity.
Qed.

(** The session key of [hybridEncrypt] in base64: 32 bytes give at most
    45 characters, all ASCII. *)
Lemma sessionKey_fits (aesKey : octets) (bits : Z) :
  length aesKey = 32%nat -> bits = 2048 \/ bits = 4096 ->
  Forall ascii (encode (fromCharCode aesKey)) /\
  Z.of_nat (length (TextEncoder_encode (encode (fromCharCode aesKey))))
  <= bits / 8 - 66.
Proof.
  intros Hlen Hbits.
  assert (Ha : Forall ascii (encode (fromCharCode aesKey)))
    by (apply encode_ascii, fromCharCode_bytes).
  split; [exact Ha|].
  rewrite ascii_encode_length by exact Ha.
  pose proof (encode_length_bound (fromCharCode aesKey)) as Hb.
  rewrite fromCharCode_length, Hlen in Hb.
  destruct Hbits as [-> | ->].
  - change (2048 / 8 - 66) with 190. lia.
  - change (4096 / 8 - 66) with 446. lia.
Qed.

Context {E : Engine}.

(** The hybrid envelope opens to what [TextDecoder] makes of the UTF-8
    bytes of the text, when the envelope is within the argument limit. *)
Lemma hybridDecrypt_hybridEncrypt (bits : Z) (now : jsstring)
    (e0 e1 : Entropy) (K : KeyPair) (text : jsstring) (e : Entropy) :
  bits = 2048 \/ bits = 4096 ->
  generateRSAKeyPair bits now e0 = (inr K, e1) ->
  envelopeLength text <= maxArguments ->
  exists r e',
    hybridEncrypt text (publicKey K) e = (inr r, e') /\
    hybridDecrypt (encrypted r) (privateKey K) (metadata r) =
    ok (TextDecoder_decode (TextEncoder_encode text)).
Proof.
  intros Hbits Hgen Hfit.
  rewrite generateRSAKeyPair_returns in Hgen.
  destruct (rsa_generate bits e0) as [[pk sk] e0'] eqn:Hrsa.
  cbn [fst snd] in Hgen. injection Hgen as <- _.
  cbn [publicKey privateKey].
  set (aesKey := map e (seq 0 32)).
  set (aesKeyB64 := encode (fromCharCode aesKey)).
  assert (Hk : length aesKey = 32%nat)
    by (unfold aesKey; rewrite length_map, length_seq; reflexivity).
  destruct (sessionKey_fits aesKey bits Hk Hbits) as [Hascii Hfits].
  fold aesKeyB64 in Hascii, Hfits.
  destruct (decryptAES256_encryptAES256 text aesKeyB64
              (fun i => e (32 + i)%nat) Hfit) as (r1 & e2 & Henc & Hdec).
  destruct (encryptRSA_generated bits e0 e0' pk sk aesKeyB64 e2
              Hbits Hrsa Hfits) as (c & e3 & Hrsaenc & Hc & Hopen).
  exists {| encrypted := encrypted r1; iv := iv r1; salt := salt r1;
            metadata :=
              Some {| encryptedKey := Some (encode (fromCharCode c));
                      algorithm := Some (lit "hybrid") |} |}.
  exists e3. split.
  - unfold hybridEncrypt.
    rewrite bind_getRandomValues. fold aesKey.
    rewrite (spreadFromCharCode_fits aesKey)
      by (rewrite Hk; unfold envelopeLength in Hfit; lia).
    cbn [bindR ok]. rewrite btoa_fromCharCode, bind_lift_ok.
    fold aesKeyB64.
    rewrite (bind_returns _ _ _ _ _ Henc).
    rewrite (bind_returns _ _ _ _ _ Hrsaenc). reflexivity.
  - cbn [encrypted metadata]. unfold hybridDecrypt, missingKey.
    destruct (encode (fromCharCode c)) as [|x rest] eqn:Ec.
    + exfalso. apply (encode_nonempty (fromCharCode c)); [|exact Ec].
      destruct c; [congruence|discriminate].
    + rewrite <- Ec.
      rewrite (decryptRSA_opens c _ sk Hopen). cbn [bindR ok].
      rewrite ascii_decode_encode by exact Hascii.
      exact Hdec.
Qed.

(** [hybridEncrypt] rejects a text whose envelope is above the argument
    limit: at the spread call on the session key when the engine takes
    fewer than 32 arguments, at the one of [encryptAES256] otherwise. *)
Lemma hybridEncrypt_rejects (text publicKeyB64 : jsstring) (e : Entropy) :
  maxArguments < envelopeLength text ->
  fst (hybridEncrypt text publicKeyB64 e) = throw RangeError.
Proof.
  intros Hfit. unfold hybridEncrypt.
  rewrite bind_getRandomValues.
  assert (Hk : length (map e (seq 0 32)) = 32%nat)
    by (rewrite length_map, length_seq; reflexivity).
  destruct (Z_le_gt_dec 32 maxArguments) as [Hroom|Hroom].
  - rewrite (spreadFromCharCode_fits (map e (seq 0 32)))
      by (rewrite Hk; lia).
    cbn [bindR ok]. rewrite btoa_fromCharCode, bind_lift_ok.
    unfold bind at 1.
    rewrite (encryptAES256_rejects text _ _ Hfit). reflexivity.
  - rewrite (spreadFromCharCode_exceeds (map e (seq 0 32)))
      by (rewrite Hk; lia).
    reflexivity.
Qed.

End WithPrimitives.

(** C2, the claim as stated, fails in two ways, for the same reasons as
    for the symmetric cipher. On the one-character text U+FEFF, with any
    primitives that meet the laws, any engine that takes the 47 bytes of
    the envelope and any generated key pair, [hybridDecrypt] on the
    output of [hybridEncrypt] returns the empty text. And the text is not
    of arbitrary length: on every text whose envelope has more bytes than
    the engine takes arguments, [hybridEncrypt] rejects with a
    RangeError. *)
Lemma hybrid_round_trip_loses_BOM :
  (forall (P : Primitives), PrimitiveLaws P ->
   forall (E : Engine), 47 <= maxArguments ->
   forall (bits : Z) (now : jsstring) (e0 e1 : Entropy) (K : KeyPair)
          (e : Entropy),
     bits = 2048 \/ bits = 4096 ->
     generateRSAKeyPair bits now e0 = (inr K, e1) ->
     exists r e', hybridEncrypt [BOM] (publicKey K) e = (inr r, e') /\
                  hybridDecrypt (encrypted r) (privateKey K) (metadata r)
                  = ok []) /\
  (forall (P : Primitives), PrimitiveLaws P ->
   forall (E : Engine) (text publicKeyB64 : jsstring) (e : Entropy),
     maxArguments < envelopeLength text ->
     fst (hybridEncrypt text publicKeyB64 e) = throw RangeError) /\
  ~ (forall (P : Primitives), PrimitiveLaws P ->
     forall (E : Engine) (bits : Z) (now : jsstring) (e0 e1 : Entropy)
            (K : KeyPair) (text : jsstring) (e : Entropy),
       bits = 2048 \/ bits = 4096 ->
       generateRSAKeyPair bits now e0 = (inr K, e1) ->
       wellFormed text ->
       exists r e', hybridEncrypt text (publicKey K) e = (inr r, e') /\
                    hybridDecrypt (encrypted r) (privateKey K) (metadata r)
                    = ok text).
Proof.
  assert (Hlost : forall (P : Primitives), PrimitiveLaws P ->
            forall (E : Engine), 47 <= maxArguments ->
            forall (bits : Z) (now : jsstring) (e0 e1 : Entropy)
                   (K : KeyPair) (e : Entropy),
              bits = 2048 \/ bits = 4096 ->
              generateRSAKeyPair bits now e0 = (inr K, e1) ->
              exists r e',
                hybridEncrypt [BOM] (publicKey K) e = (inr r, e') /\
                hybridDecrypt (encrypted r) (privateKey K) (metadata r)
                = ok []).
  { intros P L E Hroom bits now e0 e1 K e Hbits Hgen.
    destruct (hybridDecrypt_hybridEncrypt bits now e0 e1 K [BOM] e
                Hbits Hgen Hroom) as (r & e' & Henc & Hdec).
    exists r, e'. split; [exact Henc|]. rewrite Hdec.
    rewrite (decode_encode_BOM []); [reflexivity|].
    vm_compute. intuition discriminate. }
  split; [exact Hlost|]. split.
  - intros P L E text publicKeyB64 e Hfit.
    apply hybridEncrypt_rejects. exact Hfit.
  - intros H.
    destruct (Hlost refPrimitives refPrimitives_laws refEngine
                ltac:(vm_compute; discriminate) 2048 (lit "now")
                countingEntropy _ _ countingEntropy
                (or_introl eq_refl) (generateRSAKeyPair_returns _ _ _))
      as (r & e' & Henc & Hdec).
    destruct (H refPrimitives refPrimitives_laws refEngine 2048 (lit "now")
                countingEntropy _ _ [BOM] countingEntropy
                (or_introl eq_refl) (generateRSAKeyPair_returns _ _ _))
      as (r2 & e2 & Henc2 & Hdec2).
    + vm_compute. intuition discriminate.
    + rewrite Henc in Henc2. injection Henc2 as <- _.
      rewrite Hdec in Hdec2. discriminate.
Qed.

(** C2, amended: for every key pair returned by [generateRSAKeyPair] for
    2048 or 4096 bits and every well-formed text: when the envelope of
    the text (its UTF-8 bytes and 44 bytes of salt, iv and tag) has no
    more bytes than the engine takes arguments in a call, whatever the
    ceiling of the RSA step, [hybridEncrypt] under the public key
    returns, and [hybridDecrypt] on its [encrypted] field with the
    private key and its metadata returns exactly the text when the text
    does not begin with U+FEFF; when it does, that first character is
    dropped and the rest is returned. When the envelope has more bytes,
    [hybridEncrypt] rejects with a RangeError. *)
Theorem hybrid_round_trip (P : Primitives) (L : PrimitiveLaws P)
    (E : Engine) (bits : Z) (now : jsstring) (e0 e1 : Entropy) (K : KeyPair)
    (text : jsstring) (e : Entropy) :
  bits = 2048 \/ bits = 4096 ->
  generateRSAKeyPair bits now e0 = (inr K, e1) ->
  wellFormed text ->
  (envelopeLength text <= maxArguments ->
   exists r e',
     hybridEncrypt text (publicKey K) e = (inr r, e') /\
     (hd 0 text <> BOM ->
      hybridDecrypt (encrypted r) (privateKey K) (metadata r) = ok text) /\
     (forall rest, text = BOM :: rest ->
      hybridDecrypt (encrypted r) (privateKey K) (metadata r) = ok rest)) /\
  (maxArguments < envelopeLength text ->
   fst (hybridEncrypt text (publicKey K) e) = throw RangeError).
Proof.
  intros Hbits Hgen Hwf. split.
  - intros Hfit.
    destruct (hybridDecrypt_hybridEncrypt bits now e0 e1 K text e Hbits Hgen
                Hfit) as (r & e' & Henc & Hdec).
    exists r, e'. split; [exact Henc|]. rewrite Hdec. split.
    + intros Hhd. rewrite decode_encode by assumption. reflexivity.
    + intros rest ->. rewrite decode_encode_BOM by assumption. reflexivity.
  - apply hybridEncrypt_rejects.
Qed.

Lemma hybrid_round_trip_witness :
  exists r e',
    hybridEncrypt (P := refPrimitives) (E := refEngine) (repeat 97 200)
      (publicKey refKeyPair) countingEntropy = (inr r, e') /\
    (hd 0 (repeat 97 200) <> BOM ->
     hybridDecrypt (P := refPrimitives) (encrypted r) (privateKey refKeyPair)
       (metadata r) = ok (repeat 97 200)) /\
    (forall rest, repeat 97 200 = BOM :: rest ->
     hybridDecrypt (P := refPrimitives) (encrypted r) (privateKey refKeyPair)
       (metadata r) = ok rest).
Proof.
  apply (hybrid_round_trip refPrimitives refPrimitives_laws refEngine 2048
           (lit "2026-01-01T00:00:00.000Z") countingEntropy
           (snd (generateRSAKeyPair (P := refPrimitives) 2048
                   (lit "2026-01-01T00:00:00.000Z") countingEntropy))
           refKeyPair (repeat 97 200) countingEntropy).
  - left. reflexivity.
  - reflexivity.
  - vm_compute; repeat split; (reflexivity || discriminate).
  - vm_compute. discriminate.
Defined.

End HybridFacts.

(** * The steganography codec: embedding and extraction together *)

Module StegoRoundTrip.
Import Js Stego StegoUi Util StegoFacts.

Lemma toDigits_binary : forall (fuel : nat) (n : Z) (acc : jsstring),
  Forall bitChar acc -> Forall bitChar (toDigits fuel 2 n acc).
Proof.
  induction fuel as [|f IH]; intros n acc Hacc; simpl; [exact Hacc|].
  assert (Hd : bitChar (digitChar (n mod 2))).
  { pose proof (Z.mod_pos_bound n 2 ltac:(lia)) as Hm.
    assert (Hc : n mod 2 = 0 \/ n mod 2 = 1) by lia.
    destruct Hc as [-> | ->]; [left|right]; reflexivity. }
  destruct (n / 2 =? 0); [|apply IH]; constructor; assumption.
Qed.

Lemma charBits_binary (c : Z) : Forall bitChar (charBits c).
Proof.
  unfold charBits, padStart. apply Forall_app. split.
  - apply Forall_forall. intros x Hx. apply repeat_spec in Hx. left; exact Hx.
  - apply toDigits_binary. constructor.
Qed.

Lemma textToBinary_binary (text : jsstring) :
  Forall bitChar (textToBinary text).
Proof.
  unfold textToBinary, textBits. apply Forall_app. split.
  - induction text as [|c t IH]; [constructor|].
    cbn [flat_map]. apply Forall_app. split; [apply charBits_binary|exact IH].
  - apply Forall_forall. intros x Hx.
    assert (H : forallb (fun c => (c =? 48) || (c =? 49)) endMarker = true)
      by reflexivity.
    rewrite forallb_forall in H. specialize (H x Hx).
    apply orb_prop in H. unfold bitChar.
    destruct H as [H|H]; apply Z.eqb_eq in H; auto.
Qed.

Lemma nth_bitChar (s : jsstring) (k : nat) :
  Forall bitChar s -> (k < length s)%nat -> bitChar (nth k s 0).
Proof.
  intros H Hk. rewrite Forall_forall in H. apply H. apply nth_In. exact Hk.
Qed.

(** Past the end of the bitstream the loop stores nothing. *)
Lemma hideLoop_beyond fuel binary : forall k i bi data,
  (length binary <= bi + k)%nat ->
  nth (i + 4 * k) (hideLoop fuel binary i bi data) 0
  = nth (i + 4 * k) data 0.
Proof.
  induction fuel as [|f IH]; intros k i bi data Hk; [reflexivity|].
  cbn [hideLoop].
  destruct ((i <? length data)%nat && (bi <? length binary)%nat) eqn:E;
    [|reflexivity].
  apply andb_prop in E. destruct E as [_ E]. apply Nat.ltb_lt in E.
  destruct k as [|k]; [lia|].
  replace (i + 4 * S k)%nat with (i + 4 + 4 * k)%nat by lia.
  rewrite IH by lia. apply nth_store_other. lia.
Qed.

(** Clearing the lowest bit and setting it to [b] leaves [b] as the lowest
    bit. *)
Lemma lsb_of_embedded (d b : Z) :
  b = 0 \/ b = 1 -> Z.land (Z.lor (Z.land d 254) b) 1 = b.
Proof.
  intros Hb. rewrite Z.land_lor_distr_l, <- Z.land_assoc.
  change (Z.land 254 1) with 0. rewrite Z.land_0_r, Z.lor_0_l.
  destruct Hb as [-> | ->]; reflexivity.
Qed.

Lemma toString_lsb (x : Z) : toString (Z.land x 1) = [48 + Z.land x 1].
Proof.
  change 1 with (Z.ones 1) at 1 2. rewrite Z.land_ones by lia.
  pose proof (Z.mod_pos_bound x (2 ^ 1) ltac:(lia)) as Hm.
  assert (Hc : x mod 2 ^ 1 = 0 \/ x mod 2 ^ 1 = 1) by lia.
  destruct Hc as [-> | ->]; reflexivity.
Qed.

(** The string read by [revealTextFromImage]: character [k] is the lowest
    bit of byte [4k]. *)
Lemma lsbBits_nth (data : bytes) : forall (fuel k i : nat),
  (k < fuel)%nat -> (i + 4 * k < length data)%nat ->
  (k < length (lsbBits fuel i data))%nat /\
  nth k (lsbBits fuel i data) 0 = 48 + Z.land (nth (i + 4 * k) data 0) 1.
Proof.
  induction fuel as [|f IH]; intros k i Hk Hi; [lia|].
  cbn [lsbBits].
  replace (i <? length data)%nat with true
    by (symmetry; apply Nat.ltb_lt; lia).
  rewrite toString_lsb. cbn [app length nth].
  destruct k as [|k].
  - replace (i + 4 * 0)%nat with i by lia. split; [lia|reflexivity].
  - replace (i + 4 * S k)%nat with (i + 4 + 4 * k)%nat by lia.
    destruct (IH k (i + 4)%nat ltac:(lia) ltac:(lia)) as [H1 H2].
    split; [lia|exact H2].
Qed.

Lemma lsbBits_length (data : bytes) : forall (fuel i : nat),
  (i <= length data + 3)%nat ->
  (i + 4 * length (lsbBits fuel i data) <= length data + 3)%nat.
Proof.
  induction fuel as [|f IH]; intros i Hi; [simpl; lia|].
  cbn [lsbBits].
  destruct (i <? length data)%nat eqn:E; [|simpl; lia].
  apply Nat.ltb_lt in E. rewrite toString_lsb. cbn [app length].
  specialize (IH (i + 4)%nat ltac:(lia)). lia.
Qed.

(** *** The first end marker of the extracted string *)

Lemma startsWith_app (pat rest : jsstring) : startsWith pat (pat ++ rest) = true.
Proof.
  induction pat as [|p pat IH]; [reflexivity|].
  simpl. rewrite Z.eqb_refl, IH. reflexivity.
Qed.

Lemma indexOf_from_unfold (i : Z) (pat s : jsstring) :
  indexOf_from i pat s =
  if startsWith pat s then i
  else match s with
       | [] => -1
       | _ :: s' => indexOf_from (i + 1) pat s'
       end.
Proof. destruct s; reflexivity. Qed.

Lemma indexOf_from_first (pat rest : jsstring) : forall (pre : jsstring) (i : Z),
  (forall a r, (length a < length pre)%nat ->
               pre ++ pat ++ rest <> a ++ pat ++ r) ->
  indexOf_from i pat (pre ++ pat ++ rest) = i + Z.of_nat (length pre).
Proof.
  induction pre as [|c pre IH]; intros i H.
  - cbn [app length]. rewrite indexOf_from_unfold, startsWith_app. lia.
  - cbn [app indexOf_from].
    destruct (startsWith pat (c :: pre ++ pat ++ rest)) eqn:E.
    + apply startsWith_true in E. destruct E as [r E].
      exfalso. apply (H [] r); [simpl; lia|exact E].
    + rewrite IH.
      * cbn [length]. lia.
      * intros a r Ha Heq. apply (H (c :: a) r); [simpl; lia|].
        cbn [app]. rewrite Heq. reflexivity.
Qed.

(** Before the end of the characters no end marker begins, also not one
    that runs into the appended marker. *)
Lemma textBits_first_endMarker (text rest : jsstring) :
  Forall (fun c => 0 <= c < 255) text ->
  forall a r, (length a < length (textBits text))%nat ->
  textBits text ++ endMarker ++ rest <> a ++ endMarker ++ r.
Proof.
  intros Hlt a r Ha Heq.
  assert (Hb : Forall (fun c => 0 <= c < 256) text).
  { eapply Forall_impl; [|exact Hlt]. simpl; intros; lia. }
  pose proof (textBits_length text Hb) as Hlen.
  set (s := textBits text ++ endMarker ++ rest) in *.
  set (p := length a) in *.
  assert (Hones : forall j, (j < 15)%nat -> nth (p + j) s 0 = 49).
  { intros j Hj. rewrite Heq. unfold p. rewrite app_nth2_plus.
    rewrite app_nth1 by (change (length endMarker) with 16%nat; lia).
    apply endMarker_ones. exact Hj. }
  assert (Hzero : nth (p + 15) s 0 = 48).
  { rewrite Heq. unfold p. rewrite app_nth2_plus.
    rewrite app_nth1 by (change (length endMarker) with 16%nat; lia).
    reflexivity. }
  set (g := ((p + 7) / 8)%nat).
  assert (Hg : (p <= 8 * g /\ 8 * g <= p + 7)%nat).
  { subst g. pose proof (Nat.div_mod_eq (p + 7) 8) as Hd.
    pose proof (Nat.mod_upper_bound (p + 7) 8). lia. }
  destruct (Nat.lt_ge_cases g (length text)) as [Hgt|Hge].
  - assert (Hc : 0 <= nth g text 0 < 255).
    { rewrite Forall_forall in Hlt. apply Hlt. apply nth_In. exact Hgt. }
    destruct (charBits_has_zero _ Hc) as (j & Hj & Hz).
    rewrite <- (textBits_nth text Hb g j Hgt Hj) in Hz.
    assert (Hs : nth (8 * g + j) s 0 = 48).
    { unfold s. rewrite app_nth1 by lia. exact Hz. }
    replace (8 * g + j)%nat with (p + (8 * g + j - p))%nat in Hs by lia.
    rewrite Hones in Hs by lia. discriminate.
  - assert (Hs : nth (p + 15) s 0 = 49).
    { unfold s. rewrite app_nth2 by lia.
      rewrite app_nth1 by (change (length endMarker) with 16%nat; lia).
      apply endMarker_ones. lia. }
    rewrite Hzero in Hs. discriminate.
Qed.

(** *** Decoding the groups *)

Lemma parseInt2_charBits (c : Z) : 0 <= c < 256 -> parseInt2 (charBits c) = c.
Proof.
  intros Hc. apply Z.eqb_eq.
  apply (forallb_below (fun c => parseInt2 (charBits c) =? c) 256);
    [vm_compute; reflexivity|exact Hc].
Qed.

Lemma decodeGroups_step (f : nat) (s : jsstring) :
  s <> [] ->
  decodeGroups (S f) s =
  if (length (firstn 8 s) =? 8)%nat
  then parseInt2 (firstn 8 s) :: decodeGroups f (skipn 8 s)
  else decodeGroups f (skipn 8 s).
Proof. destruct s; [congruence|reflexivity]. Qed.

Lemma decodeGroups_textBits (text : jsstring) :
  Forall (fun c => 0 <= c < 256) text ->
  forall fuel, (length text <= fuel)%nat ->
  decodeGroups fuel (textBits text) = text.
Proof.
  induction 1 as [|c t Hc _ IH]; intros fuel Hf.
  - destruct fuel; reflexivity.
  - destruct fuel as [|f]; [simpl in Hf; lia|].
    unfold textBits in *. cbn [flat_map].
    pose proof (charBits_length c Hc) as Hl.
    rewrite decodeGroups_step
      by (intros E; apply (f_equal (@length Z)) in E;
          rewrite length_app, Hl in E; simpl in E; lia).
    rewrite <- Hl.
    rewrite firstn_app, firstn_all, Nat.sub_diag, firstn_O, app_nil_r.
    rewrite skipn_app, skipn_all, Nat.sub_diag, skipn_O. cbn [app].
    rewrite Nat.eqb_refl, (parseInt2_charBits c Hc).
    rewrite IH by (simpl in Hf; lia). reflexivity.
Qed.

(** [binaryToText] on the characters, the end marker and anything after
    it. *)
Lemma binaryToText_textToBinary (text rest : jsstring) :
  Forall (fun c => 0 <= c < 255) text ->
  binaryToText (textToBinary text ++ rest) = text.
Proof.
  intros Hlt.
  assert (Hb : Forall (fun c => 0 <= c < 256) text).
  { eapply Forall_impl; [|exact Hlt]. simpl; intros; lia. }
  unfold binaryToText, textToBinary, indexOf.
  rewrite <- app_assoc.
  rewrite indexOf_from_first by (apply textBits_first_endMarker; exact Hlt).
  replace (0 + Z.of_nat (length (textBits text)) =? -1) with false
    by (symmetry; apply Z.eqb_neq; lia).
  rewrite Z.add_0_l, Nat2Z.id.
  rewrite firstn_app, firstn_all, Nat.sub_diag, firstn_O, app_nil_r.
  apply decodeGroups_textBits; [exact Hb|].
  rewrite (textBits_length text Hb). lia.
Qed.

(** The string extracted from an image with the text embedded begins with
    the embedded bitstream. *)
Lemma lsbBits_hideTextInImage (data : bytes) (text : jsstring) :
  (length (textToBinary text) <= samples data)%nat ->
  exists rest,
    lsbBits (S (length (hideTextInImage data text))) 0
      (hideTextInImage data text)
    = textToBinary text ++ rest.
Proof.
  intros Hcap.
  set (binary := textToBinary text) in *.
  set (out := hideTextInImage data text).
  set (L := lsbBits (S (length out)) 0 out).
  assert (Hlen : length out = length data) by apply hideLoop_length.
  assert (Hfit : forall k, (k < length binary)%nat ->
                           (4 * k < length data)%nat).
  { intros k Hk. unfold samples in Hcap.
    pose proof (Nat.Div0.mul_div_le (length data + 3) 4). lia. }
  assert (Hk : forall k, (k < length binary)%nat ->
             (k < length L)%nat /\ nth k L 0 = nth k binary 0).
  { intros k Hkb. specialize (Hfit k Hkb).
    destruct (lsbBits_nth out (S (length out)) k 0) as [H1 H2];
      [lia|lia|].
    split; [exact H1|]. fold L in H2. rewrite H2. cbn [Nat.add].
    unfold out, hideTextInImage.
    pose proof (hideLoop_sample (S (length data)) binary k 0 0 data
                  ltac:(lia) ltac:(simpl; lia) ltac:(simpl; lia)) as Hsamp.
    cbn [Nat.add] in Hsamp. fold binary. rewrite Hsamp.
    pose proof (nth_bitChar binary k (textToBinary_binary text) Hkb) as Hbit.
    rewrite lsb_of_embedded; unfold parseInt_digit;
      destruct Hbit as [-> | ->]; auto; reflexivity. }
  exists (skipn (length binary) L).
  rewrite <- (firstn_skipn (length binary) L) at 1. f_equal.
  assert (Hn : (length binary <= length L)%nat).
  { destruct (length binary) as [|m] eqn:E; [lia|].
    destruct (Hk m ltac:(lia)). lia. }
  apply (nth_ext _ _ 0 0).
  - rewrite firstn_length_le by exact Hn. reflexivity.
  - intros k Hkl. rewrite firstn_length_le in Hkl by exact Hn.
    rewrite nth_firstn.
    replace (k <? length binary)%nat with true
      by (symmetry; apply Nat.ltb_lt; exact Hkl).
    apply Hk. exact Hkl.
Qed.

Lemma revealTextFromImage_hideTextInImage (data : bytes) (text : jsstring) :
  Forall (fun c => 0 <= c < 255) text ->
  (length (textToBinary text) <= samples data)%nat ->
  revealTextFromImage (hideTextInImage data text) = text.
Proof.
  intros Hlt Hcap. unfold revealTextFromImage.
  destruct (lsbBits_hideTextInImage data text Hcap) as [rest ->].
  apply binaryToText_textToBinary. exact Hlt.
Qed.

(** X1: Extraction inverts embedding: for every text whose code units are all
    below 0xFF and every pixel buffer with at least as many stride-4
    samples as the bitstream has bits (8 per character and 16 for the end
    marker), [revealTextFromImage] on the buffer written by
    [hideTextInImage] returns the text, whatever the rest of the image
    holds. *)
Theorem reveal_hide_round_trip (data : bytes) (text : jsstring) :
  Forall (fun c => 0 <= c < 255) text ->
  (length (textToBinary text) <= samples data)%nat ->
  revealTextFromImage (hideTextInImage data text) = text.
Proof.
  intros Hlt Hcap. unfold revealTextFromImage.
  destruct (lsbBits_hideTextInImage data text Hcap) as [rest Hbits].
  rewrite Hbits. apply binaryToText_textToBinary. exact Hlt.
Qed.

Lemma reveal_hide_round_trip_witness :
  revealTextFromImage
    (hideTextInImage (repeat 200 480) (lit "hello world"))
  = lit "hello world".
Proof.
  apply (reveal_hide_round_trip (repeat 200 480) (lit "hello world")).
  - repeat constructor; vm_compute; intuition discriminate.
  - vm_compute. lia.
Defined.

(** X2: Embedding changes a pixel byte by at most its lowest bit and only in
    the red position of the pixels that carry a payload bit: on a buffer of
    bytes, the output is a buffer of bytes of the same length, every byte
    keeps its upper seven bits, and every byte at an index that is not a
    multiple of 4, or at an index [4k] with [k] past the bitstream, is
    unchanged. *)
Theorem hideTextInImage_fidelity (data : bytes) (text : jsstring) :
  Forall (fun b => 0 <= b < 256) data ->
  let out := hideTextInImage data text in
  length out = length data /\
  (forall j : nat, (j < length data)%nat ->
     0 <= nth j out 0 < 256 /\
     nth j out 0 / 2 = nth j data 0 / 2) /\
  (forall k r : nat, (1 <= r <= 3)%nat ->
     nth (4 * k + r) out 0 = nth (4 * k + r) data 0) /\
  (forall k : nat, (length (textToBinary text) <= k)%nat ->
     nth (4 * k) out 0 = nth (4 * k) data 0).
Proof.
  intros Hbytes out. subst out. unfold hideTextInImage.
  set (binary := textToBinary text).
  split; [apply hideLoop_length|].
  assert (Hun : forall k r : nat, (1 <= r <= 3)%nat ->
            nth (4 * k + r) (hideLoop (S (length data)) binary 0 0 data) 0
            = nth (4 * k + r) data 0).
  { intros k r Hr. apply hideLoop_untouched. intros k'. lia. }
  assert (Hbe : forall k : nat, (length binary <= k)%nat ->
            nth (4 * k) (hideLoop (S (length data)) binary 0 0 data) 0
            = nth (4 * k) data 0).
  { intros k Hk.
    pose proof (hideLoop_beyond (S (length data)) binary k 0 0 data
                  ltac:(simpl; lia)) as Hb.
    cbn [Nat.add] in Hb. exact Hb. }
  split; [|split; assumption].
  intros j Hj.
  assert (Hd : 0 <= nth j data 0 < 256).
  { rewrite Forall_forall in Hbytes. apply Hbytes. apply nth_In. exact Hj. }
  pose proof (Nat.div_mod_eq j 4) as Hdm.
  pose proof (Nat.mod_upper_bound j 4 ltac:(lia)) as Hm.
  remember (j / 4)%nat as k eqn:Ek. remember (j mod 4)%nat as r eqn:Er.
  clear Ek Er. subst j.
  destruct (Nat.eq_dec r 0) as [Hz|Hnz].
  - subst r. rewrite Nat.add_0_r in *.
    destruct (Nat.lt_ge_cases k (length binary)) as [Hlt|Hge].
    + pose proof (hideLoop_sample (S (length data)) binary k 0 0 data
                    ltac:(lia) ltac:(simpl; lia) ltac:(simpl; lia)) as Hsamp.
      cbn [Nat.add] in Hsamp. rewrite Hsamp.
      pose proof (nth_bitChar binary k (textToBinary_binary text) Hlt)
        as Hbit.
      set (d := nth (4 * k) data 0) in *.
      assert (Hland : Z.land d 254 = 2 * (d / 2)).
      { apply Z.eqb_eq.
        apply (forallb_below (fun d => Z.land d 254 =? 2 * (d / 2)) 256);
          [vm_compute; reflexivity|exact Hd]. }
      rewrite Hland.
      replace (2 * (d / 2)) with (d / 2 * 2 ^ 1) by lia.
      rewrite lor_disjoint
        by (try lia; unfold parseInt_digit; destruct Hbit as [-> | ->];
            simpl; lia).
      unfold parseInt_digit. change (2 ^ 1) with 2.
      destruct Hbit as [-> | ->]; split; divmod.
    + rewrite Hbe by exact Hge. split; [exact Hd|reflexivity].
  - rewrite Hun by lia. split; [exact Hd|reflexivity].
Qed.

Lemma hideTextInImage_fidelity_witness :
  let out := hideTextInImage [255; 10; 20; 30] (lit "a") in
  length out = length [255; 10; 20; 30] /\
  (forall j : nat, (j < length [255; 10; 20; 30]%Z)%nat ->
     0 <= nth j out 0 < 256 /\
     nth j out 0 / 2 = nth j [255; 10; 20; 30] 0 / 2) /\
  (forall k r : nat, (1 <= r <= 3)%nat ->
     nth (4 * k + r) out 0 = nth (4 * k + r) [255; 10; 20; 30] 0) /\
  (forall k : nat, (length (textToBinary (lit "a")) <= k)%nat ->
     nth (4 * k) out 0 = nth (4 * k) [255; 10; 20; 30] 0).
Proof.
  apply (hideTextInImage_fidelity [255; 10; 20; 30] (lit "a")).
  repeat constructor; lia.
Defined.

Lemma indexOf_from_short (pat s : jsstring) (i : Z) :
  (length s < length pat)%nat -> indexOf_from i pat s = -1.
Proof.
  intros H. apply indexOf_from_absent. intros pre rest Heq.
  apply (f_equal (@length Z)) in Heq. rewrite !length_app in Heq. lia.
Qed.

(** X3: An image with fewer than 16 stride-4 samples (fewer than 16 pixels)
    holds no end marker: [revealTextFromImage] returns the empty text. *)
Theorem revealTextFromImage_small_image (data : bytes) :
  (samples data < 16)%nat -> revealTextFromImage data = [].
Proof.
  intros Hs. unfold revealTextFromImage, binaryToText, indexOf.
  rewrite indexOf_from_short; [reflexivity|].
  change (length endMarker) with 16%nat.
  pose proof (lsbBits_length data (S (length data)) 0 ltac:(lia)) as Hl.
  unfold samples in Hs.
  assert (length data + 3 < 4 * 16)%nat.
  { pose proof (Nat.div_mod_eq (length data + 3) 4).
    pose proof (Nat.mod_upper_bound (length data + 3) 4). lia. }
  lia.
Qed.

Lemma revealTextFromImage_small_image_witness :
  revealTextFromImage (repeat 255 60) = [].
Proof.
  apply (revealTextFromImage_small_image (repeat 255 60)).
  vm_compute. lia.
Defined.

End StegoRoundTrip.

(** * The password gate of the steganography handlers *)

Module StegoGate.
Import Js Web Base64 Utf8 Stego StegoUi Util StegoFacts Base64Facts
  HybridFacts StegoRoundTrip.

Lemma strEq_spec (a b : jsstring) : strEq a b = true <-> a = b.
Proof.
  revert b; induction a as [|x a IH]; intros [|y b]; simpl;
    try (split; [discriminate|congruence]); [tauto|].
  rewrite andb_true_iff, Z.eqb_eq, IH. split.
  - intros [-> ->]. reflexivity.
  - intros H. injection H as -> ->. auto.
Qed.

Lemma strEq_refl (a : jsstring) : strEq a a = true.
Proof. apply strEq_spec. reflexivity. Qed.

Lemma split_nonempty (sep : Z) (s : jsstring) : split sep s <> [].
Proof.
  induction s as [|c s IH]; simpl; [discriminate|].
  destruct (c =? sep); [discriminate|].
  destruct (split sep s); [congruence|discriminate].
Qed.

(** A string without the separator is one part. *)
Lemma split_none (sep : Z) (s : jsstring) :
  ~ In sep s -> split sep s = [s].
Proof.
  induction s as [|c s IH]; intros H; [reflexivity|]. cbn [split].
  destruct (c =? sep) eqn:E.
  - apply Z.eqb_eq in E. exfalso. apply H. left. exact E.
  - rewrite IH by (intros Hin; apply H; right; exact Hin). reflexivity.
Qed.

(** The first part ends at the first separator. *)
Lemma split_first (sep : Z) (a rest : jsstring) :
  ~ In sep a -> split sep (a ++ sep :: rest) = a :: split sep rest.
Proof.
  induction a as [|c a IH]; intros H; cbn [app split].
  - rewrite Z.eqb_refl. reflexivity.
  - destruct (c =? sep) eqn:E.
    + apply Z.eqb_eq in E. exfalso. apply H. left. exact E.
    + rewrite IH by (intros Hin; apply H; right; exact Hin). reflexivity.
Qed.

(** There is one part more than there are separators. *)
Lemma split_length (sep : Z) (s : jsstring) :
  length (split sep s) = S (count_occ Z.eq_dec s sep).
Proof.
  induction s as [|c s IH]; [reflexivity|]. cbn [split count_occ].
  destruct (Z.eq_dec c sep) as [->|Hne].
  - rewrite Z.eqb_refl. cbn [length]. rewrite IH. reflexivity.
  - replace (c =? sep) with false by (symmetry; apply Z.eqb_neq; exact Hne).
    destruct (split sep s) as [|p ps] eqn:E.
    + exfalso. apply (split_nonempty sep s). exact E.
    + cbn [length] in *. exact IH.
Qed.

Lemma btoa_bytes (s : jsstring) :
  Forall (fun c => 0 <= c < 256) s -> btoa s = ok (encode s).
Proof.
  intros H. unfold btoa.
  replace (forallb (fun c => c <=? 255) s) with true; [reflexivity|].
  symmetry. apply forallb_forall. intros c Hc.
  rewrite Forall_forall in H. specialize (H c Hc). apply Z.leb_le. lia.
Qed.

Lemma encode_below_255 (s : jsstring) :
  Forall (fun c => 0 <= c < 256) s ->
  Forall (fun c => 0 <= c < 255) (encode s).
Proof.
  intros H. eapply Forall_impl; [|apply (encode_ascii s H)].
  unfold ascii. simpl. intros; lia.
Qed.

Lemma revealDecision_decoded (hiddenText password decoded : jsstring) :
  hiddenText <> [] -> password <> [] -> atob hiddenText = ok decoded ->
  revealDecision hiddenText password
  = if (length (split 124 decoded) =? 2)%nat
       && strEq (nth 1 (split 124 decoded) []) password
    then TextRevealed (nth 0 (split 124 decoded) [])
    else WrongPassword.
Proof.
  intros Hh Hp Ha. unfold revealDecision.
  destruct hiddenText as [|h0 h]; [congruence|].
  destruct password as [|p0 p]; [congruence|].
  rewrite Ha. reflexivity.
Qed.

Lemma revealDecision_no_password (hiddenText : jsstring) :
  hiddenText <> [] -> revealDecision hiddenText [] = TextRevealed hiddenText.
Proof. intros Hh. destruct hiddenText; [congruence|reflexivity]. Qed.

(** What hiding with a password writes and what extraction reads back. *)
Lemma hide_with_password (data : bytes) (secretText password : jsstring) :
  Forall (fun c => 0 <= c < 256) secretText ->
  Forall (fun c => 0 <= c < 256) password ->
  isBlank secretText = false -> password <> [] ->
  (length (textToBinary (encode (secretText ++ lit "|" ++ password)))
   <= samples data)%nat ->
  let hidden := encode (secretText ++ lit "|" ++ password) in
  handleHideText (Some data) secretText password
  = TextHidden (hideTextInImage data hidden)
               (Z.of_nat (length secretText)) /\
  revealTextFromImage (hideTextInImage data hidden) = hidden /\
  hidden <> [] /\
  atob hidden = ok (secretText ++ lit "|" ++ password).
Proof.
  intros Hs Hp Hblank Hpw Hcap hidden.
  assert (Hpayload : Forall (fun c => 0 <= c < 256)
                       (secretText ++ lit "|" ++ password)).
  { apply Forall_app. split; [exact Hs|]. apply Forall_app. split; [|exact Hp].
    repeat constructor; vm_compute; intuition discriminate. }
  split; [|split; [|split]].
  - unfold handleHideText. rewrite Hblank. unfold textToHide.
    destruct password as [|p0 pw]; [congruence|].
    rewrite (btoa_bytes _ Hpayload). reflexivity.
  - apply revealTextFromImage_hideTextInImage; [|exact Hcap].
    apply encode_below_255. exact Hpayload.
  - apply encode_nonempty. destruct secretText; discriminate.
  - apply atob_encode. exact Hpayload.
Qed.

(** X4: With a password, the secret comes back exactly when the same password
    is entered at extraction: for a non-blank secret and a non-empty
    password, both of characters up to U+00FF and without '|', hidden in
    an image with room for the bitstream, [handleRevealText] with a
    non-empty password shows the secret when the password is the one used
    for hiding, and reports a wrong password otherwise. *)
Theorem gated_reveal (data : bytes) (secretText password guess : jsstring) :
  Forall (fun c => 0 <= c < 256) secretText ->
  Forall (fun c => 0 <= c < 256) password ->
  ~ In 124 secretText -> ~ In 124 password ->
  isBlank secretText = false -> password <> [] -> guess <> [] ->
  (length (textToBinary (encode (secretText ++ lit "|" ++ password)))
   <= samples data)%nat ->
  exists image,
    handleHideText (Some data) secretText password
    = TextHidden image (Z.of_nat (length secretText)) /\
    handleRevealText (Some image) guess
    = if strEq password guess then TextRevealed secretText
      else WrongPassword.
Proof.
  intros Hs Hp Hns Hnp Hblank Hpw Hguess Hcap.
  destruct (hide_with_password data secretText password Hs Hp Hblank Hpw Hcap)
    as (Hhide & Hreveal & Hne & Hatob).
  eexists. split; [exact Hhide|].
  unfold handleRevealText.
  rewrite Hreveal, (revealDecision_decoded _ _ _ Hne Hguess Hatob).
  change (lit "|" ++ password) with (124 :: password).
  rewrite (split_first 124 secretText password Hns), (split_none 124 _ Hnp).
  reflexivity.
Qed.

Lemma gated_reveal_witness :
  exists image,
    handleHideText (Some (repeat 200 1000)) (lit "meet at noon") (lit "pw")
    = TextHidden image (Z.of_nat (length (lit "meet at noon"))) /\
    handleRevealText (Some image) (lit "pw")
    = if strEq (lit "pw") (lit "pw") then TextRevealed (lit "meet at noon")
      else WrongPassword.
Proof.
  apply (gated_reveal (repeat 200 1000) (lit "meet at noon") (lit "pw")
           (lit "pw"));
    [repeat constructor; lia | repeat constructor; lia | simpl; lia
  | simpl; lia | reflexivity | discriminate | discriminate
  | vm_compute; lia].
Defined.

(** X5: A '|' in the secret or in the password locks the secret for good: the
    decoded text then splits into more than two parts and
    [handleRevealText] reports a wrong password even for the password
    used for hiding. *)
Theorem gated_reveal_pipe (data : bytes) (secretText password : jsstring) :
  Forall (fun c => 0 <= c < 256) secretText ->
  Forall (fun c => 0 <= c < 256) password ->
  In 124 secretText \/ In 124 password ->
  isBlank secretText = false -> password <> [] ->
  (length (textToBinary (encode (secretText ++ lit "|" ++ password)))
   <= samples data)%nat ->
  exists image,
    handleHideText (Some data) secretText password
    = TextHidden image (Z.of_nat (length secretText)) /\
    handleRevealText (Some image) password = WrongPassword.
Proof.
  intros Hs Hp Hpipe Hblank Hpw Hcap.
  destruct (hide_with_password data secretText password Hs Hp Hblank Hpw Hcap)
    as (Hhide & Hreveal & Hne & Hatob).
  eexists. split; [exact Hhide|].
  unfold handleRevealText.
  rewrite Hreveal, (revealDecision_decoded _ _ _ Hne Hpw Hatob).
  assert (Hlen : (length (split 124 (secretText ++ lit "|" ++ password))
                  =? 2)%nat = false).
  { apply Nat.eqb_neq. rewrite split_length, !count_occ_app.
    change (count_occ Z.eq_dec (lit "|") 124) with 1%nat.
    destruct Hpipe as [Hin|Hin];
      apply (count_occ_In Z.eq_dec) in Hin; lia. }
  rewrite Hlen. reflexivity.
Qed.

Lemma gated_reveal_pipe_witness :
  exists image,
    handleHideText (Some (repeat 200 1000)) (lit "a|b") (lit "pw")
    = TextHidden image (Z.of_nat (length (lit "a|b"))) /\
    handleRevealText (Some image) (lit "pw") = WrongPassword.
Proof.
  apply (gated_reveal_pipe (repeat 200 1000) (lit "a|b") (lit "pw"));
  [repeat constructor; lia | repeat constructor; lia | simpl; lia
  | reflexivity | discriminate | vm_compute; lia].
Defined.

(** X6: The password is stored in the image in the clear: extraction without a
    password shows the hidden base64 text, and [atob] of it is the secret,
    a '|' and the password used for hiding. *)
Theorem gated_reveal_leaks_password (data : bytes)
    (secretText password : jsstring) :
  Forall (fun c => 0 <= c < 256) secretText ->
  Forall (fun c => 0 <= c < 256) password ->
  isBlank secretText = false -> password <> [] ->
  (length (textToBinary (encode (secretText ++ lit "|" ++ password)))
   <= samples data)%nat ->
  exists image shown,
    handleHideText (Some data) secretText password
    = TextHidden image (Z.of_nat (length secretText)) /\
    handleRevealText (Some image) [] = TextRevealed shown /\
    atob shown = ok (secretText ++ lit "|" ++ password).
Proof.
  intros Hs Hp Hblank Hpw Hcap.
  destruct (hide_with_password data secretText password Hs Hp Hblank Hpw Hcap)
    as (Hhide & Hreveal & Hne & Hatob).
  eexists. eexists. split; [exact Hhide|].
  unfold handleRevealText.
  rewrite Hreveal, (revealDecision_no_password _ Hne).
  split; [reflexivity|exact Hatob].
Qed.

Lemma gated_reveal_leaks_password_witness :
  exists image shown,
    handleHideText (Some (repeat 200 1000)) (lit "meet at noon") (lit "pw")
    = TextHidden image (Z.of_nat (length (lit "meet at noon"))) /\
    handleRevealText (Some image) [] = TextRevealed shown /\
    atob shown = ok (lit "meet at noon" ++ lit "|" ++ lit "pw").
Proof.
  apply (gated_reveal_leaks_password (repeat 200 1000) (lit "meet at noon")
           (lit "pw"));
    [repeat constructor; lia | repeat constructor; lia | reflexivity
  | discriminate | vm_compute; lia].
Defined.

End StegoGate.

(** * The rest of the crypto module: RSA, digests, the padded-key cipher
      and the password generator *)

Module CryptoRestFacts.
Import Js Web Base64 Utf8 Subtle Crypto Checksum Password CryptoRest Util
  WebFacts Base64Facts Utf8Facts EnvelopeFacts ReferenceFacts ChecksumFacts
  SymmetricFacts HybridFacts.

(** X7: RSA on its own: for a key pair returned by [generateRSAKeyPair] for
    2048 or 4096 bits and a well-formed text without a leading U+FEFF
    whose UTF-8 encoding is within the OAEP ceiling of [bits / 8 - 66]
    bytes, [encryptRSA] under the public key returns and [decryptRSA] with
    the private key returns the text. *)
Theorem rsa_round_trip (P : Primitives) (L : PrimitiveLaws P)
    (bits : Z) (now : jsstring) (e0 e1 : Entropy) (K : KeyPair)
    (text : jsstring) (e : Entropy) :
  bits = 2048 \/ bits = 4096 ->
  generateRSAKeyPair bits now e0 = (inr K, e1) ->
  wellFormed text -> hd 0 text <> BOM ->
  Z.of_nat (length (TextEncoder_encode text)) <= bits / 8 - 66 ->
  exists c e',
    encryptRSA text (publicKey K) e = (inr c, e') /\
    decryptRSA c (privateKey K) = ok text.
Proof.
  intros Hbits Hgen Hwf Hhd Hfit.
  rewrite generateRSAKeyPair_returns in Hgen.
  destruct (rsa_generate bits e0) as [[pk sk] e0'] eqn:Hrsa.
  cbn [fst snd] in Hgen. injection Hgen as <- _.
  cbn [publicKey privateKey].
  destruct (encryptRSA_generated bits e0 e0' pk sk text e Hbits Hrsa Hfit)
    as (c & e' & Henc & _ & Hopen).
  exists (encode (fromCharCode c)), e'. split; [exact Henc|].
  rewrite (decryptRSA_opens c _ sk Hopen).
  rewrite decode_encode by assumption. reflexivity.
Qed.

Lemma rsa_round_trip_witness :
  exists c e',
    encryptRSA (P := refPrimitives) (lit "attack at dawn")
      (publicKey refKeyPair) countingEntropy = (inr c, e') /\
    decryptRSA (P := refPrimitives) c (privateKey refKeyPair)
    = ok (lit "attack at dawn").
Proof.
  apply (rsa_round_trip refPrimitives refPrimitives_laws 2048
           (lit "2026-01-01T00:00:00.000Z") countingEntropy
           (snd (generateRSAKeyPair (P := refPrimitives) 2048
                   (lit "2026-01-01T00:00:00.000Z") countingEntropy))
           refKeyPair (lit "attack at dawn") countingEntropy).
  - left. reflexivity.
  - reflexivity.
  - vm_compute; repeat split; (reflexivity || discriminate).
  - vm_compute. discriminate.
  - vm_compute. discriminate.
Defined.

(** ** The hexadecimal rendering of digests and tags *)

Lemma hexByte (b : Byte.byte) :
  padStart 2 48 (toStringRadix 16 (Z_of_byte b))
  = [digitChar (Z_of_byte b / 16); digitChar (Z_of_byte b mod 16)].
Proof. destruct b; reflexivity. Qed.

Lemma hexOf_cons (b : Byte.byte) (bs : octets) :
  hexOf (b :: bs)
  = digitChar (Z_of_byte b / 16) :: digitChar (Z_of_byte b mod 16)
    :: hexOf bs.
Proof. unfold hexOf. cbn [flat_map]. rewrite hexByte. reflexivity. Qed.

Lemma hexOf_length (bs : octets) : length (hexOf bs) = (2 * length bs)%nat.
Proof.
  induction bs as [|b bs IH]; [reflexivity|].
  rewrite hexOf_cons. cbn [length]. rewrite IH. lia.
Qed.

Lemma hexOf_hex (bs : octets) : Forall isHexDigit (hexOf bs).
Proof.
  induction bs as [|b bs IH]; [constructor|].
  rewrite hexOf_cons. pose proof (Z_of_byte_range b) as Hb.
  constructor; [|constructor; [|exact IH]]; apply digitChar_hex; divmod.
Qed.

Lemma digitChar_injective (a b : Z) :
  0 <= a < 16 -> 0 <= b < 16 -> digitChar a = digitChar b -> a = b.
Proof.
  unfold digitChar. intros Ha Hb.
  destruct (a <? 10) eqn:Ea; destruct (b <? 10) eqn:Eb;
    try apply Z.ltb_lt in Ea; try apply Z.ltb_ge in Ea;
    try apply Z.ltb_lt in Eb; try apply Z.ltb_ge in Eb; lia.
Qed.

(** Different byte sequences are rendered differently. *)
Lemma hexOf_injective (a b : octets) : hexOf a = hexOf b -> a = b.
Proof.
  revert b; induction a as [|x a IH]; intros [|y b] H;
    rewrite ?hexOf_cons in H; try discriminate; [reflexivity|].
  injection H as Hh Hl Hrest.
  pose proof (Z_of_byte_range x) as Hx. pose proof (Z_of_byte_range y) as Hy.
  apply digitChar_injective in Hh; [|divmod|divmod].
  apply digitChar_injective in Hl; [|divmod|divmod].
  assert (Hxy : Z_of_byte x = Z_of_byte y) by divmod.
  f_equal; [|apply IH; exact Hrest].
  rewrite <- (byte_of_Z_of_byte x), <- (byte_of_Z_of_byte y), Hxy.
  reflexivity.
Qed.

(** X8: [hashSHA256] and [hashSHA512] return 64 and 128 lowercase hexadecimal
    digits for every text, and the rendering loses nothing: two texts
    have the same hash string only when their digests are the same
    bytes. *)
Theorem digest_rendering (D : Digests) (L : DigestLaws D)
    (text : jsstring) :
  length (hashSHA256 text) = 64%nat /\
  Forall isHexDigit (hashSHA256 text) /\
  length (hashSHA512 text) = 128%nat /\
  Forall isHexDigit (hashSHA512 text) /\
  (forall other : jsstring,
     hashSHA256 text = hashSHA256 other ->
     sha256 (TextEncoder_encode text) = sha256 (TextEncoder_encode other)) /\
  (forall other : jsstring,
     hashSHA512 text = hashSHA512 other ->
     sha512 (TextEncoder_encode text) = sha512 (TextEncoder_encode other)).
Proof.
  unfold hashSHA256, hashSHA512.
  rewrite !hexOf_length, sha256_length, sha512_length.
  repeat split; try apply hexOf_hex; intros other H;
    apply hexOf_injective; exact H.
Qed.

Lemma refDigests_laws : DigestLaws refDigests.
Proof.
  split; intros m; cbn [sha256 sha512 refDigests];
    rewrite length_firstn, !length_app, repeat_length; lia.
Qed.

Lemma digest_rendering_witness :
  length (@hashSHA256 refDigests (lit "abc")) = 64%nat /\
  Forall isHexDigit (@hashSHA256 refDigests (lit "abc")) /\
  length (@hashSHA512 refDigests (lit "abc")) = 128%nat /\
  Forall isHexDigit (@hashSHA512 refDigests (lit "abc")) /\
  (forall other : jsstring,
     @hashSHA256 refDigests (lit "abc") = @hashSHA256 refDigests other ->
     @sha256 refDigests (TextEncoder_encode (lit "abc"))
     = @sha256 refDigests (TextEncoder_encode other)) /\
  (forall other : jsstring,
     @hashSHA512 refDigests (lit "abc") = @hashSHA512 refDigests other ->
     @sha512 refDigests (TextEncoder_encode (lit "abc"))
     = @sha512 refDigests (TextEncoder_encode other)).
Proof. exact (digest_rendering refDigests refDigests_laws (lit "abc")). Defined.

Lemma generateHMAC_returns (P : Primitives) (text secret : jsstring) :
  secret <> [] ->
  generateHMAC text secret
  = ok (hexOf (hmac_sha256 (TextEncoder_encode secret)
                 (TextEncoder_encode text))).
Proof.
  intros Hs. unfold generateHMAC, importKey_HMAC.
  destruct (TextEncoder_encode secret) as [|b bs] eqn:E.
  - exfalso. apply (TextEncoder_encode_nonempty secret Hs). exact E.
  - reflexivity.
Qed.

(** X9: With a non-empty secret [generateHMAC] returns the tag of the
    platform, computed under the UTF-8 bytes of the secret over the UTF-8
    bytes of the text, as two lowercase hexadecimal digits per byte. *)
Theorem generateHMAC_rendering (P : Primitives) (text secret : jsstring) :
  secret <> [] ->
  let tag := hmac_sha256 (TextEncoder_encode secret)
               (TextEncoder_encode text) in
  generateHMAC text secret = ok (hexOf tag) /\
  length (hexOf tag) = (2 * length tag)%nat /\
  Forall isHexDigit (hexOf tag).
Proof.
  intros Hs tag. subst tag.
  split; [apply generateHMAC_returns; exact Hs|].
  split; [apply hexOf_length|apply hexOf_hex].
Qed.

Lemma generateHMAC_rendering_witness :
  let tag := @hmac_sha256 refPrimitives
               (TextEncoder_encode (lit "key"))
               (TextEncoder_encode (lit "message")) in
  generateHMAC (P := refPrimitives) (lit "message") (lit "key")
  = ok (hexOf tag) /\
  length (hexOf tag) = (2 * length tag)%nat /\
  Forall isHexDigit (hexOf tag).
Proof.
  apply (generateHMAC_rendering refPrimitives (lit "message") (lit "key")).
  discriminate.
Defined.

(** ** The functions named after ChaCha20 *)

Lemma padEnd_length (n : nat) (fill : Z) (s : jsstring) :
  length (padEnd n fill s) = Nat.max n (length s).
Proof. unfold padEnd. rewrite length_app, repeat_length. lia. Qed.

Lemma encodeCodePoint_length (cp : Z) :
  (1 <= length (encodeCodePoint cp))%nat /\
  (128 <= cp -> (2 <= length (encodeCodePoint cp))%nat).
Proof.
  unfold encodeCodePoint.
  destruct (cp <? 128) eqn:E1; [apply Z.ltb_lt in E1; simpl; lia|].
  destruct (cp <? 2048); [simpl; lia|].
  destruct (cp <? 65536); simpl; lia.
Qed.

Lemma encodeCodePoint_replacement : length (encodeCodePoint replacement) = 3%nat.
Proof. reflexivity. Qed.

(** UTF-8 never has fewer bytes than the string has code units, and has
    as many only for ASCII text. *)
Lemma encodeUtf8_length (n : nat) : forall s : jsstring,
  (length s <= n)%nat -> Forall codeUnit s ->
  (length s <= length (encodeUtf8 s))%nat /\
  (length (encodeUtf8 s) = length s -> Forall ascii s).
Proof.
  unfold encodeUtf8.
  induction n as [|n IH]; intros s Hn Hcu.
  - destruct s; [split; [simpl; lia|constructor]|simpl in Hn; lia].
  - destruct s as [|c s]; [split; [simpl; lia|constructor]|].
    simpl in Hn. inversion Hcu as [|? ? Hc Hs]; subst.
    cbn [toScalarValues].
    destruct (isLead c) eqn:El.
    + destruct s as [|d s'].
      * cbn [flat_map]. rewrite length_app, encodeCodePoint_replacement.
        simpl. split; [lia|intros; lia].
      * destruct (isTrail d) eqn:Et.
        -- inversion Hs as [|? ? Hd Hs']; subst. simpl in Hn.
           destruct (IH s' ltac:(lia) Hs') as [IH1 _].
           cbn [flat_map]. rewrite length_app.
           apply isLead_spec in El. apply isTrail_spec in Et.
           assert (Hcp : 65536 <= Z.shiftl (c - 55296) 10 + (d - 56320) + 65536).
           { rewrite Z.shiftl_mul_pow2 by lia. nia. }
           unfold encodeCodePoint at 1 3.
           replace (_ <? 128) with false by (symmetry; apply Z.ltb_ge; lia).
           replace (_ <? 2048) with false by (symmetry; apply Z.ltb_ge; lia).
           replace (_ <? 65536) with false by (symmetry; apply Z.ltb_ge; lia).
           cbn [length]. split; [lia|intros; lia].
        -- destruct (IH (d :: s') ltac:(simpl in *; lia) Hs) as [IH1 _].
           cbn [flat_map]. rewrite length_app, encodeCodePoint_replacement.
           cbn [length] in *. split; [lia|intros; lia].
    + destruct (IH s ltac:(lia) Hs) as [IH1 IH2].
      destruct (isTrail c) eqn:Et.
      * cbn [flat_map]. rewrite length_app, encodeCodePoint_replacement.
        cbn [length]. split; [lia|intros; lia].
      * cbn [flat_map]. rewrite length_app.
        destruct (encodeCodePoint_length c) as [H1 H2].
        cbn [length]. split; [lia|]. intros Heq.
        unfold codeUnit in Hc.
        constructor; [unfold ascii; lia|apply IH2; lia].
Qed.

Lemma TextEncoder_encode_length (s : jsstring) :
  length (TextEncoder_encode s) = length (encodeUtf8 s).
Proof. unfold TextEncoder_encode. apply length_map. Qed.

Lemma padEnd_ascii (password : jsstring) :
  Forall ascii password -> Forall ascii (padEnd 32 48 password).
Proof.
  intros H. unfold padEnd. apply Forall_app. split; [exact H|].
  apply Forall_forall. intros x Hx. apply repeat_spec in Hx. subst x.
  unfold ascii. lia.
Qed.

(** The key data is 32 bytes for an ASCII password of at most 32
    characters, and longer for every other password. *)
Lemma paddedKey_length (password : jsstring) :
  Forall ascii password -> (length password <= 32)%nat ->
  length (paddedKey password) = 32%nat.
Proof.
  intros Ha Hl. unfold paddedKey.
  rewrite ascii_encode_length by (apply padEnd_ascii; exact Ha).
  rewrite padEnd_length. lia.
Qed.

Lemma paddedKey_long (password : jsstring) :
  Forall codeUnit password ->
  ~ (Forall ascii password /\ (length password <= 32)%nat) ->
  (32 < length (paddedKey password))%nat.
Proof.
  intros Hcu Hnot. unfold paddedKey. rewrite TextEncoder_encode_length.
  assert (Hpad : Forall codeUnit (padEnd 32 48 password)).
  { unfold padEnd. apply Forall_app. split; [exact Hcu|].
    apply Forall_forall. intros x Hx. apply repeat_spec in Hx. subst x.
    unfold codeUnit. lia. }
  destruct (encodeUtf8_length _ (padEnd 32 48 password) (le_n _) Hpad)
    as [Hge Heq].
  rewrite padEnd_length in Hge, Heq.
  destruct (Nat.eq_dec (length (encodeUtf8 (padEnd 32 48 password)))
              (Nat.max 32 (length password))) as [E|E]; [|lia].
  destruct (le_lt_dec (length password) 32) as [Hle|Hgt]; [|lia].
  exfalso. apply Hnot. split; [|exact Hle].
  specialize (Heq E). unfold padEnd in Heq.
  apply Forall_app in Heq. tauto.
Qed.

Section WithPrimitives.
Context {P : Primitives}.

Lemma importKey_AES_GCM_256 (data : octets) (us : list usage) :
  length data = 32%nat ->
  importKey_AES_GCM data us = ok {| material := AesGcmKey data; usages := us |}.
Proof. intros H. unfold importKey_AES_GCM. rewrite H. reflexivity. Qed.

Lemma importKey_AES_GCM_long (data : octets) (us : list usage) :
  (32 < length data)%nat -> importKey_AES_GCM data us = throw DataError.
Proof.
  intros H. unfold importKey_AES_GCM.
  replace (length data =? 16)%nat with false
    by (symmetry; apply Nat.eqb_neq; lia).
  replace (length data =? 24)%nat with false
    by (symmetry; apply Nat.eqb_neq; lia).
  replace (length data =? 32)%nat with false
    by (symmetry; apply Nat.eqb_neq; lia).
  reflexivity.
Qed.

Context {E : Engine} {L : PrimitiveLaws P}.

(** With a key of 32 bytes, [encryptChaCha20] returns when the ciphertext
    with its tag is within the argument limit, and rejects with the
    RangeError of the spread call otherwise. *)
Lemma encryptChaCha20_spread (text password : jsstring) (e : Entropy) :
  length (paddedKey password) = 32%nat ->
  encryptChaCha20 text password e =
  (if Z.of_nat (length (TextEncoder_encode text)) + 16 <=? maxArguments
   then
     inr {| encrypted :=
              encode (fromCharCode
                        (gcm_seal (paddedKey password) (ivOf e)
                           (TextEncoder_encode text)));
            iv := Some (encode (fromCharCode (ivOf e)));
            salt := Some (encode (fromCharCode (saltOf e)));
            metadata := None |}
   else inl RangeError,
   fun i => e (16 + (12 + i))%nat).
Proof.
  intros Hk. unfold encryptChaCha20.
  rewrite bind_getRandomValues, (importKey_AES_GCM_256 _ _ Hk), bind_lift_ok.
  rewrite bind_getRandomValues.
  unfold bind, lift, ret.
  cbn [encrypt_AES_GCM allows usages existsb usage_eqb orb material ok].
  change (map (fun i => e (16 + i)%nat) (seq 0 12)) with (ivOf e).
  change (map e (seq 0 16)) with (saltOf e).
  set (sealed := gcm_seal (paddedKey password) (ivOf e)
                   (TextEncoder_encode text)).
  assert (Hlen : Z.of_nat (length sealed)
                 = Z.of_nat (length (TextEncoder_encode text)) + 16)
    by (unfold sealed; rewrite gcm_seal_length; lia).
  destruct (Z.of_nat (length (TextEncoder_encode text)) + 16
            <=? maxArguments) eqn:Hfit.
  - apply Z.leb_le in Hfit.
    rewrite (spreadFromCharCode_fits sealed) by lia.
    rewrite (spreadFromCharCode_fits (ivOf e)) by (rewrite ivOf_length; lia).
    rewrite (spreadFromCharCode_fits (saltOf e))
      by (rewrite saltOf_length; lia).
    cbn [bindR ok]. rewrite !btoa_fromCharCode. reflexivity.
  - apply Z.leb_gt in Hfit.
    rewrite (spreadFromCharCode_exceeds sealed) by lia. reflexivity.
Qed.

End WithPrimitives.

(** X10: The cipher named after ChaCha20 round-trips for an ASCII password
    of at most 32 characters and a well-formed text without a leading
    U+FEFF: when the ciphertext with its tag (the UTF-8 bytes of the text
    and 16) has no more bytes than the engine takes arguments in a call,
    [encryptChaCha20] returns, and [decryptChaCha20] on its [encrypted]
    and [iv] fields with the same password returns the text. The salt
    takes no part: any string may be passed for it. When the ciphertext
    has more bytes, [encryptChaCha20] rejects with a RangeError. *)
Theorem chacha20_round_trip (P : Primitives) (L : PrimitiveLaws P)
    (E : Engine) (text password anySalt : jsstring) (e : Entropy) :
  Forall ascii password -> (length password <= 32)%nat ->
  wellFormed text -> hd 0 text <> BOM ->
  (Z.of_nat (length (TextEncoder_encode text)) + 16 <= maxArguments ->
   exists r e' i,
     encryptChaCha20 text password e = (inr r, e') /\
     iv r = Some i /\
     decryptChaCha20 (encrypted r) password i anySalt = ok text) /\
  (maxArguments < Z.of_nat (length (TextEncoder_encode text)) + 16 ->
   fst (encryptChaCha20 text password e) = throw RangeError).
Proof.
  intros Ha Hl Hwf Hhd.
  pose proof (paddedKey_length password Ha Hl) as Hk.
  rewrite (encryptChaCha20_spread text password e Hk). split; intros Hfit.
  - replace (_ <=? maxArguments) with true
      by (symmetry; apply Z.leb_le; exact Hfit).
    eexists; eexists; eexists. split; [reflexivity|].
    cbn [iv encrypted]. split; [reflexivity|].
    unfold decryptChaCha20.
    rewrite (importKey_AES_GCM_256 _ _ Hk). cbn [bindR ok].
    rewrite !atob_encode_bytes. cbn [bindR ok].
    rewrite !charCodes_fromCharCode.
    rewrite decrypt_AES_GCM_sealed by (exact Hk || apply ivOf_length).
    cbn [bindR ok]. rewrite decode_encode by assumption. reflexivity.
  - replace (_ <=? maxArguments) with false
      by (symmetry; apply Z.leb_gt; exact Hfit).
    reflexivity.
Qed.

Lemma chacha20_round_trip_witness :
  exists r e' i,
    encryptChaCha20 (P := refPrimitives) (E := refEngine)
      (lit "attack at dawn") (lit "correct horse") countingEntropy
    = (inr r, e') /\
    iv r = Some i /\
    decryptChaCha20 (P := refPrimitives) (encrypted r) (lit "correct horse")
      i (lit "not the salt") = ok (lit "attack at dawn").
Proof.
  apply (chacha20_round_trip refPrimitives refPrimitives_laws refEngine
           (lit "attack at dawn") (lit "correct horse") (lit "not the salt")
           countingEntropy);
    [repeat constructor; unfold ascii; lia | simpl; lia
    | vm_compute; repeat split; (reflexivity || discriminate)
    | vm_compute; discriminate
    | vm_compute; discriminate].
Defined.

(** X11: A password that is longer than 32 characters or has a character
    outside ASCII cannot be used at all: the padded key data is then
    longer than 32 bytes, the key import rejects it with a DataError, and
    both [encryptChaCha20] and [decryptChaCha20] fail with it, whatever
    the text, the ciphertext and the iv. *)
Theorem chacha20_password_limit (P : Primitives) (E : Engine)
    (text password c i anySalt : jsstring) (e : Entropy) :
  Forall codeUnit password ->
  ~ (Forall ascii password /\ (length password <= 32)%nat) ->
  fst (encryptChaCha20 text password e) = throw DataError /\
  decryptChaCha20 c password i anySalt = throw DataError.
Proof.
  intros Hcu Hnot. pose proof (paddedKey_long password Hcu Hnot) as Hlong.
  split.
  - unfold encryptChaCha20. rewrite bind_getRandomValues.
    rewrite (importKey_AES_GCM_long _ _ Hlong). reflexivity.
  - unfold decryptChaCha20.
    rewrite (importKey_AES_GCM_long _ _ Hlong). reflexivity.
Qed.

Lemma chacha20_password_limit_witness :
  fst (encryptChaCha20 (P := refPrimitives) (E := refEngine)
         (lit "attack at dawn") [112; 97; 223] countingEntropy)
  = throw DataError /\
  decryptChaCha20 (P := refPrimitives) (lit "AAAA") [112; 97; 223]
    (lit "AAAA") (lit "AAAA") = throw DataError.
Proof.
  apply (chacha20_password_limit refPrimitives refEngine
           (lit "attack at dawn")
           [112; 97; 223] (lit "AAAA") (lit "AAAA") (lit "AAAA")
           countingEntropy).
  - repeat constructor; unfold codeUnit; lia.
  - intros [H _]. rewrite Forall_forall in H.
    specialize (H 223 ltac:(simpl; lia)). unfold ascii in H. lia.
Defined.

(** X12: Padding with '0' makes passwords equivalent: a password and the same
    password followed by '0' characters, up to 32 characters in all, give
    the same key, so each decrypts what the other encrypted and both
    encrypt alike. *)
Theorem chacha20_zero_padding (P : Primitives) (E : Engine)
    (password : jsstring) (k : nat) :
  (length password + k <= 32)%nat ->
  (forall (text : jsstring) (e : Entropy),
     encryptChaCha20 text (password ++ repeat 48 k) e
     = encryptChaCha20 text password e) /\
  (forall c i anySalt : jsstring,
     decryptChaCha20 c (password ++ repeat 48 k) i anySalt
     = decryptChaCha20 c password i anySalt).
Proof.
  intros Hl.
  assert (Hkey : paddedKey (password ++ repeat 48 k) = paddedKey password).
  { unfold paddedKey, padEnd. f_equal.
    rewrite <- app_assoc, <- repeat_app, length_app, repeat_length.
    do 2 f_equal. lia. }
  split; intros; unfold encryptChaCha20, decryptChaCha20; rewrite Hkey;
    reflexivity.
Qed.

Lemma chacha20_zero_padding_witness :
  (forall (text : jsstring) (e : Entropy),
     encryptChaCha20 (P := refPrimitives) (E := refEngine) text
       (lit "secret" ++ repeat 48 2) e
     = encryptChaCha20 (P := refPrimitives) (E := refEngine) text
         (lit "secret") e) /\
  (forall c i anySalt : jsstring,
     decryptChaCha20 (P := refPrimitives) c (lit "secret" ++ repeat 48 2) i
       anySalt
     = decryptChaCha20 (P := refPrimitives) c (lit "secret") i anySalt).
Proof.
  apply (chacha20_zero_padding refPrimitives refEngine (lit "secret") 2).
  simpl. lia.
Defined.

(** ** The legacy checksum: collisions *)

(** X13: [hashMD5] is the 31-multiplier rolling hash, so it collides by
    construction: two texts that differ in one pair of adjacent
    characters have the same checksum whenever [31 * x1 + x2] is the same
    for both pairs, whatever stands before and after the pair ("Aa" and
    "BB", for one). *)
Theorem hashMD5_collisions (before after : jsstring) (x1 x2 y1 y2 : Z) :
  31 * x1 + x2 = 31 * y1 + y2 ->
  hashMD5 (before ++ [x1; x2] ++ after)
  = hashMD5 (before ++ [y1; y2] ++ after).
Proof.
  intros Heq.
  assert (Hloop : hashLoop (before ++ [x1; x2] ++ after)
                  = hashLoop (before ++ [y1; y2] ++ after)).
  { rewrite !hashLoop_rolling31. unfold rolling31.
    rewrite !fold_left_app. cbn [fold_left]. f_equal.
    set (h := fold_left _ before 0).
    apply toInt32_congr.
    pose proof (toInt32_mod (31 * h + x1)) as H1.
    pose proof (toInt32_mod (31 * h + y1)) as H2.
    apply Z.mod_divide in H1; [|lia]. apply Z.mod_divide in H2; [|lia].
    destruct H1 as [k1 Hk1]. destruct H2 as [k2 Hk2].
    replace (31 * Int32.toInt32 (31 * h + x1) + x2
             - (31 * Int32.toInt32 (31 * h + y1) + y2))
      with (31 * (k1 - k2) * 2 ^ 32) by lia.
    apply Z.mod_mul. lia. }
  assert (Hlen : length (before ++ [x1; x2] ++ after)
                 = length (before ++ [y1; y2] ++ after))
    by (rewrite !length_app; reflexivity).
  unfold hashMD5. rewrite Hloop, Hlen. reflexivity.
Qed.

Lemma hashMD5_collisions_witness :
  hashMD5 (lit "pass" ++ lit "Aa" ++ lit "word")
  = hashMD5 (lit "pass" ++ lit "BB" ++ lit "word").
Proof.
  apply (hashMD5_collisions (lit "pass") (lit "word") 65 97 66 66).
  reflexivity.
Defined.

(** ** Password analysis: the accounting of score and feedback *)

Lemma score_scoreSum (password : jsstring) :
  score (analyzePasswordStrength password) = scoreSum password.
Proof.
  unfold analyzePasswordStrength, scoreSum.
  destruct (8 <=? Z.of_nat (length password)),
    (12 <=? Z.of_nat (length password)),
    (16 <=? Z.of_nat (length password)),
    (hasLower password), (hasUpper password), (hasDigit password),
    (hasSymbol password); reflexivity.
Qed.

(** X14: Every test of [analyzePasswordStrength] gives a point or, for the
    five tests that have one, a message: the score is between 0 and 7,
    score and number of messages add up to 5 plus the points for 12 and
    for 16 characters, there is no message exactly when the password has
    8 characters and all four classes, and the strength is [excellent]
    exactly when it has 16 characters and all four classes. *)
Theorem analyzePasswordStrength_accounting (password : jsstring) :
  let r := analyzePasswordStrength password in
  let len := Z.of_nat (length password) in
  0 <= score r <= 7 /\
  score r + Z.of_nat (length (feedback r))
  = 5 + b2z (12 <=? len) + b2z (16 <=? len) /\
  (feedback r = [] <->
   8 <= len /\ hasLower password = true /\ hasUpper password = true /\
   hasDigit password = true /\ hasSymbol password = true) /\
  (strength r = excellent <->
   16 <= len /\ hasLower password = true /\ hasUpper password = true /\
   hasDigit password = true /\ hasSymbol password = true).
Proof.
  cbv zeta. unfold analyzePasswordStrength.
  set (len := Z.of_nat (length password)).
  destruct (8 <=? len) eqn:E8;
    [apply Z.leb_le in E8 | apply Z.leb_gt in E8];
    (destruct (12 <=? len) eqn:E12;
       [apply Z.leb_le in E12 | apply Z.leb_gt in E12]);
    (destruct (16 <=? len) eqn:E16;
       [apply Z.leb_le in E16 | apply Z.leb_gt in E16]);
    try lia;
    destruct (hasLower password), (hasUpper password), (hasDigit password),
      (hasSymbol password);
    simpl; intuition (try lia; try congruence).
Qed.

(** X15: Adding characters never lowers the score: the score of a password
    with any text put before and after it is at least the score of the
    password. *)
Theorem analyzePasswordStrength_monotone (before password after : jsstring) :
  score (analyzePasswordStrength password)
  <= score (analyzePasswordStrength (before ++ password ++ after)).
Proof.
  rewrite !score_scoreSum. unfold scoreSum, hasLower, hasUpper, hasDigit,
    hasSymbol.
  rewrite !length_app, !existsb_app.
  assert (Hlen : forall n, b2z (n <=? Z.of_nat (length password))
                 <= b2z (n <=? Z.of_nat (length before
                              + (length password + length after)))).
  { intros n. destruct (n <=? Z.of_nat (length password)) eqn:E.
    - apply Z.leb_le in E.
      replace (n <=? _) with true; [reflexivity|].
      symmetry. apply Z.leb_le. lia.
    - unfold b2z. destruct (n <=? Z.of_nat (length before + _)); lia. }
  assert (Hex : forall a b c : bool, b2z b <= b2z (a || (b || c))).
  { intros [] [] []; unfold b2z; simpl; lia. }
  pose proof (Hlen 8). pose proof (Hlen 12). pose proof (Hlen 16).
  pose proof (Hex (existsb isLower before) (existsb isLower password)
                (existsb isLower after)).
  pose proof (Hex (existsb isUpper before) (existsb isUpper password)
                (existsb isUpper after)).
  pose proof (Hex (existsb isDigit before) (existsb isDigit password)
                (existsb isDigit after)).
  pose proof (Hex
    (existsb (fun c => negb (isUpper c || isLower c || isDigit c)) before)
    (existsb (fun c => negb (isUpper c || isLower c || isDigit c)) password)
    (existsb (fun c => negb (isUpper c || isLower c || isDigit c)) after)).
  lia.
Qed.

(** ** The password generator *)

Lemma charsetOf_empty (o : Options) :
  charsetOf o = [] <->
  orTrue (includeLowercase o) = false /\ orTrue (includeUppercase o) = false /\
  orTrue (includeNumbers o) = false /\ orTrue (includeSymbols o) = false.
Proof.
  unfold charsetOf.
  destruct (orTrue (includeLowercase o)), (orTrue (includeUppercase o)),
    (orTrue (includeNumbers o)), (orTrue (includeSymbols o));
    cbn [app]; (split; [try discriminate|intros (? & ? & ? & ?)]);
    try discriminate; auto.
Qed.

Lemma pick_In (charset : jsstring) (byte : Byte.byte) :
  charset <> [] -> In (pick charset byte) charset.
Proof.
  intros Hne. unfold pick, pickIndex. apply nth_In.
  assert (0 < Z.of_nat (length charset))
    by (destruct charset; [congruence|simpl; lia]).
  pose proof (Z.mod_pos_bound (Z_of_byte byte) (Z.of_nat (length charset))).
  lia.
Qed.

Section WithEngine.
Context {E : Engine}.

(** The two steps before the characters are picked: the array and the
    random bytes. *)
Lemma generateSecurePassword_steps (length : Z) (options : Options)
    (e : Entropy) :
  charsetOf options <> [] ->
  generateSecurePassword length options e =
  if (length <? 0) || (Z.min maxByteLength (2 ^ 53 - 1) <? length)
  then (inl RangeError, e)
  else if 65536 <? length then (inl QuotaExceededError, e)
  else (inr (map (pick (charsetOf options))
               (map e (seq 0 (Z.to_nat length)))),
        fun i => e (Z.to_nat length + i)%nat).
Proof.
  intros Hne. unfold generateSecurePassword.
  destruct (charsetOf options) as [|c0 cs]; [congruence|].
  unfold bind, lift, newUint8ArrayOf.
  destruct ((length <? 0) || (Z.min maxByteLength (2 ^ 53 - 1) <? length))
    eqn:Hrange; [reflexivity|].
  apply orb_false_elim in Hrange. destruct Hrange as [Hneg _].
  apply Z.ltb_ge in Hneg.
  unfold ok, getRandomValuesInto, newUint8Array.
  rewrite repeat_length, Z2Nat.id by exact Hneg.
  destruct (65536 <? length); reflexivity.
Qed.

Lemma generateSecurePassword_chars (length : Z) (options : Options)
    (e e' : Entropy) (password : jsstring) :
  generateSecurePassword length options e = (inr password, e') ->
  Forall (fun c => In c (charsetOf options)) password.
Proof.
  destruct (charsetOf options) as [|c0 cs] eqn:Ec.
  - unfold generateSecurePassword. rewrite Ec. discriminate.
  - rewrite generateSecurePassword_steps by (rewrite Ec; discriminate).
    destruct (_ || _); [discriminate|].
    destruct (65536 <? length); [discriminate|].
    intros H. injection H as <- _. rewrite Ec.
    apply Forall_forall. intros c Hc. apply in_map_iff in Hc.
    destruct Hc as (b & <- & _). apply pick_In. discriminate.
Qed.

End WithEngine.

(** X16: What [generateSecurePassword] does for every integer length and
    every choice of options, on an engine that creates typed arrays up to
    [maxByteLength] bytes (and never of [2^53] bytes or more): it throws
    its [Error] exactly when no character class is selected, whatever the
    length; otherwise a negative length and a length above what the
    engine creates are the RangeError of [new Uint8Array], a length that
    the engine creates but above 65536 is the QuotaExceededError of
    [crypto.getRandomValues], and any other length gives a password of
    exactly that many characters, each one of the selected character set,
    drawn from that many bytes of randomness. *)
Theorem generateSecurePassword_outcome (E : Engine) (length : Z)
    (options : Options) (e : Entropy) :
  let limit := Z.min maxByteLength (2 ^ 53 - 1) in
  match generateSecurePassword length options e with
  | (inl (Error message), e') =>
      charsetOf options = [] /\ e' = e /\
      message = lit "At least one character type must be selected"
  | (inl RangeError, e') =>
      charsetOf options <> [] /\ (length < 0 \/ limit < length) /\ e' = e
  | (inl QuotaExceededError, e') =>
      charsetOf options <> [] /\ 65536 < length <= limit /\ e' = e
  | (inl _, _) => False
  | (inr password, e') =>
      charsetOf options <> [] /\ 0 <= length <= 65536 /\ length <= limit /\
      Z.of_nat (List.length password) = length /\
      Forall (fun c => In c (charsetOf options)) password /\
      e' = (fun i => e (Z.to_nat length + i)%nat)
  end.
Proof.
  intros limit.
  destruct (charsetOf options) as [|c0 cs] eqn:Ec.
  - unfold generateSecurePassword. rewrite Ec. cbn [lift throw].
    repeat split.
  - assert (Hne : charsetOf options <> []) by (rewrite Ec; discriminate).
    rewrite (generateSecurePassword_steps length options e Hne).
    fold limit.
    destruct ((length <? 0) || (limit <? length)) eqn:Hrange.
    { split; [discriminate|]. split; [|reflexivity].
      apply orb_prop in Hrange.
      destruct Hrange as [H|H]; apply Z.ltb_lt in H; auto. }
    apply orb_false_elim in Hrange. destruct Hrange as [Hneg Hlim].
    apply Z.ltb_ge in Hneg. apply Z.ltb_ge in Hlim.
    destruct (65536 <? length) eqn:Hq.
    { apply Z.ltb_lt in Hq. split; [discriminate|]. split; [lia|reflexivity]. }
    apply Z.ltb_ge in Hq.
    split; [discriminate|]. split; [lia|]. split; [exact Hlim|].
    split; [rewrite !length_map, length_seq; lia|].
    split; [|reflexivity].
    rewrite <- Ec.
    apply Forall_forall. intros c Hc. apply in_map_iff in Hc.
    destruct Hc as (b & <- & _). apply pick_In. exact Hne.
Qed.

(** X17: The choice of characters is never uniform: for every choice of
    options with a character class selected, the first character of the
    character set is picked by one more byte value than the last one,
    because the size of the set (10 to 88) does not divide 256. *)
Theorem generateSecurePassword_bias (options : Options) :
  charsetOf options <> [] ->
  preimages (charsetOf options) 0
  = S (preimages (charsetOf options) (length (charsetOf options) - 1)).
Proof.
  intros Hne. revert Hne. unfold charsetOf.
  destruct (orTrue (includeLowercase options)),
    (orTrue (includeUppercase options)),
    (orTrue (includeNumbers options)), (orTrue (includeSymbols options));
    intros Hne; try (exfalso; apply Hne; reflexivity);
    vm_compute; reflexivity.
Qed.

Lemma generateSecurePassword_bias_witness :
  preimages (charsetOf noOptions) 0
  = S (preimages (charsetOf noOptions) (length (charsetOf noOptions) - 1)).
Proof. apply (generateSecurePassword_bias noOptions). discriminate. Defined.

Lemma class_members :
  forallb (fun c => isLower c && negb (isUpper c) && negb (isDigit c))
    lowercase = true /\
  forallb (fun c => isUpper c && negb (isLower c) && negb (isDigit c))
    uppercase = true /\
  forallb (fun c => isDigit c && negb (isLower c) && negb (isUpper c))
    numbers = true /\
  forallb (fun c => negb (isLower c) && negb (isUpper c) && negb (isDigit c))
    symbols = true.
Proof. repeat split; reflexivity. Qed.

(** A character of the selected set belongs to a selected class. *)
Lemma charsetOf_class (o : Options) (c : Z) :
  In c (charsetOf o) ->
  (isLower c = true -> orTrue (includeLowercase o) = true) /\
  (isUpper c = true -> orTrue (includeUppercase o) = true) /\
  (isDigit c = true -> orTrue (includeNumbers o) = true) /\
  (negb (isUpper c || isLower c || isDigit c) = true ->
   orTrue (includeSymbols o) = true).
Proof.
  destruct class_members as (Hl & Hu & Hd & Hs).
  rewrite forallb_forall in Hl, Hu, Hd, Hs.
  assert (Hin : In c (charsetOf o) ->
                (orTrue (includeLowercase o) = true /\ In c lowercase) \/
                (orTrue (includeUppercase o) = true /\ In c uppercase) \/
                (orTrue (includeNumbers o) = true /\ In c numbers) \/
                (orTrue (includeSymbols o) = true /\ In c symbols)).
  { unfold charsetOf.
    destruct (orTrue (includeLowercase o)), (orTrue (includeUppercase o)),
      (orTrue (includeNumbers o)), (orTrue (includeSymbols o));
      cbn [app]; rewrite ?in_app_iff; intuition auto.
    contradiction. }
  intros H. specialize (Hin H).
  destruct Hin as [[Ho Hc]|[[Ho Hc]|[[Ho Hc]|[Ho Hc]]]];
    [specialize (Hl c Hc) | specialize (Hu c Hc) | specialize (Hd c Hc)
    | specialize (Hs c Hc)];
    destruct (isLower c), (isUpper c), (isDigit c);
    simpl in *; try discriminate; repeat split; intros; congruence.
Qed.

Lemma existsb_none {A : Type} (f : A -> bool) (l : list A) :
  (forall x, In x l -> f x = false) -> existsb f l = false.
Proof.
  intros H. induction l as [|x l IH]; [reflexivity|]. cbn [existsb].
  rewrite (H x (or_introl eq_refl)), IH; [reflexivity|].
  intros y Hy. apply H. right. exact Hy.
Qed.

(** X18: Generator and analysis together: a generated password has characters
    of the selected classes only, so [analyzePasswordStrength] finds no
    class that was not selected and gives it at most three points for the
    length and one for each selected class. *)
Theorem generated_password_analysis (E : Engine) (length : Z)
    (options : Options) (e e' : Entropy) (password : jsstring) :
  generateSecurePassword length options e = (inr password, e') ->
  (hasLower password = true -> orTrue (includeLowercase options) = true) /\
  (hasUpper password = true -> orTrue (includeUppercase options) = true) /\
  (hasDigit password = true -> orTrue (includeNumbers options) = true) /\
  (hasSymbol password = true -> orTrue (includeSymbols options) = true) /\
  score (analyzePasswordStrength password)
  <= 3 + b2z (orTrue (includeLowercase options))
       + b2z (orTrue (includeUppercase options))
       + b2z (orTrue (includeNumbers options))
       + b2z (orTrue (includeSymbols options)).
Proof.
  intros Hgen.
  pose proof (generateSecurePassword_chars _ _ _ _ _ Hgen) as Hout.
  assert (Hcls : forall (f : Z -> bool) (b : bool),
            (forall c, In c (charsetOf options) -> f c = true -> b = true) ->
            existsb f password = true -> b = true).
  { intros f b Hf Hex. apply existsb_exists in Hex.
    destruct Hex as (c & Hc & Hfc). rewrite Forall_forall in Hout.
    apply (Hf c); [apply Hout; exact Hc|exact Hfc]. }
  assert (H1 : hasLower password = true ->
               orTrue (includeLowercase options) = true).
  { apply Hcls. intros c Hc. apply (charsetOf_class options c Hc). }
  assert (H2 : hasUpper password = true ->
               orTrue (includeUppercase options) = true).
  { apply Hcls. intros c Hc. apply (charsetOf_class options c Hc). }
  assert (H3 : hasDigit password = true ->
               orTrue (includeNumbers options) = true).
  { apply Hcls. intros c Hc. apply (charsetOf_class options c Hc). }
  assert (H4 : hasSymbol password = true ->
               orTrue (includeSymbols options) = true).
  { apply Hcls. intros c Hc. apply (charsetOf_class options c Hc). }
  repeat (split; [assumption|]).
  rewrite score_scoreSum. unfold scoreSum, b2z.
  destruct (hasLower password), (hasUpper password), (hasDigit password),
    (hasSymbol password);
    try rewrite (H1 eq_refl); try rewrite (H2 eq_refl);
    try rewrite (H3 eq_refl); try rewrite (H4 eq_refl);
    destruct (8 <=? _), (12 <=? _), (16 <=? _);
    destruct (orTrue (includeLowercase options)),
      (orTrue (includeUppercase options)),
      (orTrue (includeNumbers options)), (orTrue (includeSymbols options));
    lia.
Qed.

Lemma generated_password_analysis_witness :
  let options := {| includeLowercase := None; includeUppercase := Some false;
                    includeNumbers := None; includeSymbols := Some false |} in
  let password := lit "dkry5cjqx4bipw3a" in
  (hasLower password = true -> orTrue (includeLowercase options) = true) /\
  (hasUpper password = true -> orTrue (includeUppercase options) = true) /\
  (hasDigit password = true -> orTrue (includeNumbers options) = true) /\
  (hasSymbol password = true -> orTrue (includeSymbols options) = true) /\
  score (analyzePasswordStrength password)
  <= 3 + b2z (orTrue (includeLowercase options))
       + b2z (orTrue (includeUppercase options))
       + b2z (orTrue (includeNumbers options))
       + b2z (orTrue (includeSymbols options)).
Proof.
  apply (generated_password_analysis refEngine 16
           {| includeLowercase := None; includeUppercase := Some false;
              includeNumbers := None; includeSymbols := Some false |}
           countingEntropy (fun i => countingEntropy (16 + i)%nat)).
  reflexivity.
Defined.

(** ** The exceptions of the hybrid decryption *)

Lemma atob_throws (s : jsstring) (x : exn) :
  atob s = inl x -> x = InvalidCharacterError.
Proof.
  unfold atob.
  destruct (_ mod 4 =? 1)%nat; [intros H; injection H as <-; reflexivity|].
  destruct (values _); [discriminate|].
  intros H; injection H as <-; reflexivity.
Qed.

Section WithPrimitives.
Context {P : Primitives}.

Lemma decryptRSA_throws (encryptedData privateKeyB64 : jsstring) (x : exn) :
  decryptRSA encryptedData privateKeyB64 = inl x ->
  x = InvalidCharacterError \/ x = DataError \/ x = OperationError.
Proof.
  unfold decryptRSA.
  destruct (atob privateKeyB64) as [x1|bin] eqn:E1; cbn [bindR].
  { intros H; injection H as <-. apply atob_throws in E1. auto. }
  unfold importKey_pkcs8.
  destruct (pkcs8_import (charCodes bin)) as [sk|]; cbn [bindR ok throw];
    [|intros H; injection H as <-; auto].
  destruct (atob encryptedData) as [x2|bin'] eqn:E2; cbn [bindR].
  { intros H; injection H as <-. apply atob_throws in E2. auto. }
  unfold decrypt_RSA_OAEP.
  cbn [allows usages existsb usage_eqb orb material].
  destruct (oaep_decrypt sk (charCodes bin')); cbn [bindR ok throw];
    [discriminate|intros H; injection H as <-; auto].
Qed.

Lemma decryptAES256_throws (encryptedData password : jsstring) (x : exn) :
  decryptAES256 encryptedData password = inl x ->
  x = InvalidCharacterError \/ x = DataError \/ x = OperationError.
Proof.
  unfold decryptAES256.
  destruct (atob encryptedData) as [x1|bin] eqn:E1; cbn [bindR].
  { intros H; injection H as <-. apply atob_throws in E1. auto. }
  cbn [importKey_PBKDF2 ok bindR deriveKey_PBKDF2_AES_GCM allows usages
       existsb usage_eqb orb material].
  unfold decrypt_AES_GCM.
  cbn [allows usages existsb usage_eqb orb material].
  destruct (_ <? 16)%nat; cbn [bindR throw];
    [intros H; injection H as <-; auto|].
  destruct (gcm_open _ _ _); cbn [bindR ok throw];
    [discriminate|intros H; injection H as <-; auto].
Qed.

End WithPrimitives.

(** X19: [hybridDecrypt] throws its own [Error] exactly when the metadata has
    no encrypted key (no metadata, no [encryptedKey] field or an empty
    one), before anything is decoded; with a key, every failure is one of
    the platform: the InvalidCharacterError of [atob], the DataError of
    the key import or the OperationError of a decryption. *)
Theorem hybridDecrypt_exceptions (P : Primitives)
    (encryptedData privateKeyB64 : jsstring) (metadata : option Metadata) :
  (missingKey metadata = true ->
   hybridDecrypt encryptedData privateKeyB64 metadata
   = throw (Error (lit "Missing encrypted key in metadata"))) /\
  (missingKey metadata = false ->
   forall x : exn,
     hybridDecrypt encryptedData privateKeyB64 metadata = throw x ->
     x = InvalidCharacterError \/ x = DataError \/ x = OperationError).
Proof.
  unfold hybridDecrypt. split; intros Hm; rewrite Hm; [reflexivity|].
  intros x. destruct metadata as [[[key|] alg]|]; try discriminate Hm.
  destruct (decryptRSA key privateKeyB64) as [x1|aesKey] eqn:E1;
    cbn [bindR throw].
  - intros H; injection H as <-. apply (decryptRSA_throws _ _ _ E1).
  - apply decryptAES256_throws.
Qed.

End CryptoRestFacts.

(** * The encryption card: the legacy ciphers and [processText] *)

Module CardFacts.
Import Js Web Base64 Utf8 Subtle Crypto CryptoRest StegoUi Card Util
  WebFacts Base64Facts Utf8Facts EnvelopeFacts ReferenceFacts HybridFacts
  StegoGate.

Lemma isLetter_spec (c : Z) :
  isLetter c = true <-> 97 <= c <= 122 \/ 65 <= c <= 90.
Proof.
  unfold isLetter.
  rewrite orb_true_iff, !andb_true_iff, !Z.leb_le. tauto.
Qed.

Lemma isLetter_false (c : Z) :
  isLetter c = false <-> ~ (97 <= c <= 122 \/ 65 <= c <= 90).
Proof.
  rewrite <- isLetter_spec. destruct (isLetter c); split; congruence.
Qed.

(** The letter of [replaceLetters] as case base and offset. *)
Lemma letter_offset (c : Z) :
  isLetter c = true ->
  let start := if 97 <=? c then 97 else 65 in
  0 <= c - start <= 25 /\ (start = 97 \/ start = 65).
Proof.
  intros H. apply isLetter_spec in H. cbv zeta.
  destruct (97 <=? c) eqn:E; [apply Z.leb_le in E|apply Z.leb_gt in E]; lia.
Qed.

(** A letter shifted to an offset within the alphabet keeps its case. *)
Lemma shifted_letter (start o : Z) :
  start = 97 \/ start = 65 -> 0 <= o <= 25 ->
  isLetter (fromCharCode1 (o + start)) = true /\
  fromCharCode1 (o + start) = o + start /\
  (if 97 <=? fromCharCode1 (o + start) then 97 else 65) = start.
Proof.
  intros Hs Ho. unfold fromCharCode1.
  rewrite Z.mod_small by lia.
  split; [apply isLetter_spec; lia|]. split; [reflexivity|].
  destruct (97 <=? o + start) eqn:E;
    [apply Z.leb_le in E|apply Z.leb_gt in E]; lia.
Qed.

(** An integer below [2^53] in magnitude is a number as it is. *)
Lemma roundDouble_exact (z : Z) :
  - 2 ^ 53 < z < 2 ^ 53 -> roundDouble z = z.
Proof.
  intros H. unfold roundDouble.
  replace (Z.abs z <? 2 ^ 53) with true; [reflexivity|].
  symmetry. apply Z.ltb_lt. lia.
Qed.

Lemma addNumber_exact (a b : Z) :
  - 2 ^ 53 < a + b < 2 ^ 53 -> addNumber a b = a + b.
Proof. apply roundDouble_exact. Qed.

(** For a shift of magnitude up to [2^53 - 52] the additions of
    [caesarCipher] are exact. *)
Lemma caesarCipher_exact (text : jsstring) (shift : Z) (decrypt : bool) :
  - (2 ^ 53 - 52) <= shift <= 2 ^ 53 - 52 ->
  caesarCipher text shift decrypt
  = replaceLetters
      (fun char =>
         fromCharCode1
           (Z.rem (char - (if 97 <=? char then 97 else 65)
                   + (if decrypt then - shift else shift) + 26) 26
            + (if 97 <=? char then 97 else 65)))
      text.
Proof.
  intros Hs. unfold caesarCipher, replaceLetters. apply map_ext. intros c.
  destruct (isLetter c) eqn:Hc; [|reflexivity].
  destruct (letter_offset c Hc) as [Ho _]. cbv zeta in Ho |- *.
  assert (Ha : - (2 ^ 53 - 52) <= (if decrypt then - shift else shift)
               <= 2 ^ 53 - 52) by (destruct decrypt; lia).
  rewrite (addNumber_exact (c - _) _) by lia.
  rewrite addNumber_exact by lia. reflexivity.
Qed.

Lemma caesar_letter (c shift : Z) :
  - 26 <= shift <= 26 -> isLetter c = true ->
  let start := if 97 <=? c then 97 else 65 in
  let c' := fromCharCode1 (Z.rem (c - start + shift + 26) 26 + start) in
  isLetter c' = true /\
  fromCharCode1
    (Z.rem (c' - (if 97 <=? c' then 97 else 65) + - shift + 26) 26
     + (if 97 <=? c' then 97 else 65)) = c.
Proof.
  intros Hs Hc. cbv zeta.
  destruct (letter_offset c Hc) as [Ho Hstart].
  set (start := if 97 <=? c then 97 else 65) in *.
  rewrite Z.rem_mod_nonneg by lia.
  pose proof (Z.mod_pos_bound (c - start + shift + 26) 26 ltac:(lia)) as Hm.
  destruct (shifted_letter start ((c - start + shift + 26) mod 26) Hstart
              ltac:(lia)) as (Hl & Hv & Hst).
  split; [exact Hl|]. rewrite Hst, Hv.
  rewrite Z.rem_mod_nonneg by lia.
  replace ((c - start + shift + 26) mod 26 + start - start + - shift + 26)
    with ((c - start + shift + 26) mod 26 + (26 - shift)) by lia.
  rewrite Zplus_mod_idemp_l.
  replace (c - start + shift + 26 + (26 - shift)) with (c - start + 2 * 26)
    by lia.
  rewrite Z.mod_add by lia. rewrite Z.mod_small by lia.
  unfold fromCharCode1. rewrite Z.mod_small by lia. lia.
Qed.

Lemma caesarCipher_round_trip_on (text : jsstring) (shift : Z) :
  - 26 <= shift <= 26 ->
  caesarCipher (caesarCipher text shift false) shift true = text.
Proof.
  intros Hs. rewrite !caesarCipher_exact by lia.
  unfold replaceLetters. rewrite map_map.
  rewrite <- (map_id text) at 2. apply map_ext. intros c.
  destruct (isLetter c) eqn:Hc; [|rewrite Hc; reflexivity].
  destruct (caesar_letter c shift Hs Hc) as [Hl Hback].
  cbv zeta in Hl, Hback. rewrite Hl. exact Hback.
Qed.

(** X20: The Caesar cipher of the card decrypts what it encrypted for every
    text (letters shifted within their case, every other character
    kept), for a shift between -26 and 26. *)
Theorem caesarCipher_round_trip (text : jsstring) (shift : Z) :
  - 26 <= shift <= 26 ->
  caesarCipher (caesarCipher text shift false) shift true = text.
Proof.
  intros Hs. rewrite !caesarCipher_exact by lia.
  unfold replaceLetters. rewrite map_map.
  rewrite <- (map_id text) at 2. apply map_ext. intros c.
  destruct (isLetter c) eqn:Hc; [|rewrite Hc; reflexivity].
  destruct (caesar_letter c shift Hs Hc) as [Hl Hback].
  cbv zeta in Hl, Hback. rewrite Hl. exact Hback.
Qed.

Lemma caesarCipher_round_trip_witness :
  caesarCipher (caesarCipher (lit "Hello, World! xyz") 25 false) 25 true
  = lit "Hello, World! xyz".
Proof. apply (caesarCipher_round_trip (lit "Hello, World! xyz") 25). lia. Defined.

(** X21: Beyond 26 the Caesar cipher loses letters: for every shift above 26
    that is not a multiple of 26, up to [2^53 - 52] (where the additions
    of the shift are exact), the lowercase letter at offset
    [(- shift) mod 26] is encrypted to 'a', and decrypting gives the
    character [shift mod 26] places below 'a', not the letter. *)
Theorem caesarCipher_large_shift (shift : Z) :
  26 < shift <= 2 ^ 53 - 52 -> shift mod 26 <> 0 ->
  let letter := 97 + (- shift) mod 26 in
  isLetter letter = true /\
  caesarCipher [letter] shift false = [97] /\
  caesarCipher (caesarCipher [letter] shift false) shift true
  = [97 - shift mod 26] /\
  97 - shift mod 26 < 97 <= letter.
Proof.
  intros Hs Hm. cbv zeta.
  pose proof (Z.mod_pos_bound (- shift) 26 ltac:(lia)) as Hb.
  pose proof (Z.mod_pos_bound shift 26 ltac:(lia)) as Hb'.
  assert (Hl : isLetter (97 + (- shift) mod 26) = true)
    by (apply isLetter_spec; lia).
  assert (Henc : caesarCipher [97 + (- shift) mod 26] shift false = [97]).
  { rewrite caesarCipher_exact by lia.
    unfold replaceLetters. cbn [map]. rewrite Hl.
    replace (97 <=? 97 + (- shift) mod 26) with true
      by (symmetry; apply Z.leb_le; lia).
    rewrite Z.rem_mod_nonneg by lia.
    replace (97 + (- shift) mod 26 - 97 + shift + 26)
      with ((- shift) mod 26 + (shift + 26)) by lia.
    rewrite Zplus_mod_idemp_l.
    replace (- shift + (shift + 26)) with (1 * 26) by lia.
    rewrite Z.mod_mul by lia. reflexivity. }
  split; [exact Hl|]. split; [exact Henc|]. split.
  - rewrite Henc. rewrite caesarCipher_exact by lia.
    unfold replaceLetters. cbn [map].
    change (isLetter 97) with true. change (97 <=? 97) with true. cbv iota.
    replace (97 - 97 + - shift + 26) with (- (shift - 26)) by lia.
    rewrite Z.rem_opp_l by lia. rewrite Z.rem_mod_nonneg by lia.
    replace (shift - 26) with (shift + (-1) * 26) by lia.
    rewrite Z.mod_add by lia.
    unfold fromCharCode1. rewrite Z.mod_small by lia. f_equal. lia.
  - lia.
Qed.

Lemma caesarCipher_large_shift_witness :
  let letter := 97 + (- 27) mod 26 in
  isLetter letter = true /\
  caesarCipher [letter] 27 false = [97] /\
  caesarCipher (caesarCipher [letter] 27 false) 27 true = [97 - 27 mod 26] /\
  97 - 27 mod 26 < 97 <= letter.
Proof. apply (caesarCipher_large_shift 27); [lia|discriminate]. Defined.

(** X22: ROT13 is its own inverse on every text, and it is the Caesar cipher
    with shift 13 in either direction. *)
Theorem rot13Process_involution (text : jsstring) :
  rot13Process (rot13Process text) = text /\
  rot13Process text = caesarCipher text 13 false /\
  rot13Process text = caesarCipher text 13 true.
Proof.
  assert (Henc : rot13Process text = caesarCipher text 13 false).
  { rewrite caesarCipher_exact by lia.
    unfold rot13Process, replaceLetters. apply map_ext.
    intros c. destruct (isLetter c) eqn:Hc; [|reflexivity].
    destruct (letter_offset c Hc) as [Ho _]. cbv zeta in Ho |- *.
    rewrite !Z.rem_mod_nonneg by lia.
    replace (c - (if 97 <=? c then 97 else 65) + 13 + 26)
      with (c - (if 97 <=? c then 97 else 65) + 13 + 1 * 26) by lia.
    rewrite Z.mod_add by lia. reflexivity. }
  assert (Hdec : forall t, rot13Process t = caesarCipher t 13 true).
  { intros t. rewrite caesarCipher_exact by lia.
    unfold rot13Process, replaceLetters.
    apply map_ext. intros c. destruct (isLetter c) eqn:Hc; [|reflexivity].
    destruct (letter_offset c Hc) as [Ho _]. cbv zeta in Ho |- *.
    rewrite !Z.rem_mod_nonneg by lia.
    replace (c - (if 97 <=? c then 97 else 65) + - (13) + 26)
      with (c - (if 97 <=? c then 97 else 65) + 13) by lia.
    reflexivity. }
  split; [|split; [exact Henc|apply Hdec]].
  rewrite Hdec, Henc. apply caesarCipher_round_trip_on. lia.
Qed.

(** ** Base64 and the XOR cipher *)

(** X23: On text of characters up to U+00FF, decoding inverts encoding in
    [base64Process]. *)
Theorem base64Process_round_trip (text : jsstring) :
  Forall (fun c => 0 <= c < 256) text ->
  base64Process (base64Process text false) true = text.
Proof.
  intros H. unfold base64Process. cbv iota.
  rewrite (btoa_bytes text H). unfold ok. cbv iota.
  rewrite (atob_encode text H). reflexivity.
Qed.

Lemma base64Process_round_trip_witness :
  base64Process (base64Process (lit "caf" ++ [233]) false) true
  = lit "caf" ++ [233].
Proof.
  apply (base64Process_round_trip (lit "caf" ++ [233])).
  repeat constructor; lia.
Defined.

(** XOR stays within the bits of its operands. *)
Lemma lxor_below (n a b : Z) :
  0 < n -> 0 <= a < 2 ^ n -> 0 <= b < 2 ^ n -> 0 <= Z.lxor a b < 2 ^ n.
Proof.
  intros Hn Ha Hb.
  assert (H0 : 0 <= Z.lxor a b) by (apply Z.lxor_nonneg; lia).
  split; [exact H0|].
  destruct (Z.eq_dec (Z.lxor a b) 0) as [->|Hne];
    [apply Z.pow_pos_nonneg; lia|].
  apply Z.log2_lt_pow2; [lia|].
  eapply Z.le_lt_trans; [apply Z.log2_lxor; lia|].
  apply Z.max_lub_lt.
  - destruct (Z.eq_dec a 0) as [->|]; [simpl; lia|].
    apply Z.log2_lt_pow2; lia.
  - destruct (Z.eq_dec b 0) as [->|]; [simpl; lia|].
    apply Z.log2_lt_pow2; lia.
Qed.

(** XOR with a byte keeps the bits above the low eight. *)
Lemma lxor_high (c k : Z) :
  0 <= c -> 0 <= k < 256 -> Z.lxor c k / 256 = c / 256.
Proof.
  intros Hc Hk. change 256 with (2 ^ 8).
  rewrite <- !Z.shiftr_div_pow2 by lia. rewrite Z.shiftr_lxor.
  rewrite (Z.shiftr_div_pow2 k) by lia.
  rewrite (Z.div_small k) by (simpl; lia). apply Z.lxor_0_r.
Qed.

Lemma nth_byte (password : jsstring) (i : nat) :
  Forall (fun c => 0 <= c < 256) password -> 0 <= nth i password 0 < 256.
Proof.
  intros H. destruct (Nat.lt_ge_cases i (length password)) as [Hlt|Hge].
  - rewrite Forall_forall in H. apply H. apply nth_In. exact Hlt.
  - rewrite nth_overflow by exact Hge. lia.
Qed.

Lemma xorFrom_bytes (password : jsstring) :
  Forall (fun c => 0 <= c < 256) password ->
  forall (text : jsstring) (i : nat),
    Forall (fun c => 0 <= c < 256) text ->
    Forall (fun c => 0 <= c < 256) (xorFrom i text password) /\
    xorFrom i (xorFrom i text password) password = text.
Proof.
  intros Hp. induction text as [|c text IH]; intros i Ht;
    [split; [constructor|reflexivity]|].
  inversion Ht as [|? ? Hc Ht']; subst. cbn [xorFrom].
  set (k := nth (i mod length password) password 0).
  assert (Hk : 0 <= k < 256) by (apply nth_byte; exact Hp).
  pose proof (lxor_below 8 c k ltac:(lia) Hc Hk) as Hx.
  change (2 ^ 8) with 256 in Hx.
  assert (Hv : fromCharCode1 (Z.lxor c k) = Z.lxor c k)
    by (unfold fromCharCode1; apply Z.mod_small; lia).
  destruct (IH (S i) Ht') as [IH1 IH2].
  rewrite Hv. split; [constructor; assumption|].
  rewrite IH2, Z.lxor_assoc, Z.lxor_nilpotent, Z.lxor_0_r.
  unfold fromCharCode1. rewrite Z.mod_small by lia. reflexivity.
Qed.

(** X24: The XOR cipher round-trips on characters up to U+00FF: for a
    non-empty password and a text, both of such characters, [xorCipher]
    returns and [xorDecipher] with the same password gives the text
    back. *)
Theorem xorCipher_round_trip (text password : jsstring) :
  password <> [] ->
  Forall (fun c => 0 <= c < 256) text ->
  Forall (fun c => 0 <= c < 256) password ->
  exists encrypted,
    xorCipher text password = ok encrypted /\
    xorDecipher encrypted password = text.
Proof.
  intros Hne Ht Hp.
  destruct (xorFrom_bytes password Hp text 0 Ht) as [Hb Hback].
  exists (encode (xorFrom 0 text password)).
  unfold xorCipher, xorDecipher.
  destruct password as [|p0 pw]; [congruence|].
  rewrite (btoa_bytes _ Hb), (atob_encode _ Hb). split; [reflexivity|].
  exact Hback.
Qed.

Lemma xorCipher_round_trip_witness :
  exists encrypted,
    xorCipher (lit "attack at dawn") (lit "key") = ok encrypted /\
    xorDecipher encrypted (lit "key") = lit "attack at dawn".
Proof.
  apply (xorCipher_round_trip (lit "attack at dawn") (lit "key"));
    [discriminate | repeat constructor; lia | repeat constructor; lia].
Defined.

Lemma xorFrom_wide (password : jsstring) :
  Forall (fun c => 0 <= c < 256) password ->
  forall (text : jsstring) (i : nat),
    Forall codeUnit text -> Exists (fun c => 255 < c) text ->
    forallb (fun c => c <=? 255) (xorFrom i text password) = false.
Proof.
  intros Hp. induction text as [|c text IH]; intros i Ht Hex;
    [inversion Hex|].
  inversion Ht as [|? ? Hc Ht']; subst. cbn [xorFrom forallb].
  inversion Hex as [? ? Hwide|? ? Hrest]; subst.
  - set (k := nth (i mod length password) password 0).
    assert (Hk : 0 <= k < 256) by (apply nth_byte; exact Hp).
    unfold codeUnit in Hc.
    pose proof (lxor_below 16 c k ltac:(lia) ltac:(simpl; lia)
                  ltac:(simpl; lia)) as Hx.
    change (2 ^ 16) with 65536 in Hx.
    pose proof (lxor_high c k ltac:(lia) Hk) as Hh.
    unfold fromCharCode1. rewrite Z.mod_small by lia.
    replace (Z.lxor c k <=? 255) with false; [reflexivity|].
    symmetry. apply Z.leb_gt. divmod.
  - rewrite (IH (S i) Ht' Hrest). apply andb_false_r.
Qed.

Section WithPrimitives.
Context {P : Primitives} {E : Engine}.

(** X25: The XOR cipher cannot encrypt a text with a character above U+00FF
    under a password of characters up to U+00FF: [btoa] throws in
    [xorCipher], which has no handler, and [processText] shows the error
    text of its [catch] block in place of a ciphertext. *)
Theorem xorCipher_wide_text (st : CardState) (e : Entropy) :
  algorithm st = xor -> mode st = encrypt ->
  xorPassword st <> [] ->
  Forall (fun c => 0 <= c < 256) (xorPassword st) ->
  Forall codeUnit (inputText st) ->
  Exists (fun c => 255 < c) (inputText st) ->
  isBlank (inputText st) = false ->
  xorCipher (inputText st) (xorPassword st) = throw InvalidCharacterError /\
  processText st e = (lit "Error: Invalid input or operation failed", e).
Proof.
  intros Ha Hm Hne Hp Ht Hex Hblank.
  assert (Hx : xorCipher (inputText st) (xorPassword st)
               = throw InvalidCharacterError).
  { unfold xorCipher. destruct (xorPassword st) as [|p0 pw]; [congruence|].
    unfold btoa. rewrite (xorFrom_wide _ Hp _ 0 Ht Hex). reflexivity. }
  split; [exact Hx|].
  unfold processText, processResult. rewrite Hblank, Ha, Hm.
  cbn [isDecrypt]. rewrite Hx. reflexivity.
Qed.

End WithPrimitives.

Lemma xorCipher_wide_text_witness :
  let st := {| inputText := [8364; 49; 48]; mode := encrypt;
               algorithm := xor; caesarShift := 3;
               xorPassword := lit "key"; aesPassword := [];
               rsaPublicKey := []; rsaPrivateKey := [] |} in
  xorCipher (inputText st) (xorPassword st) = throw InvalidCharacterError /\
  processText (P := refPrimitives) (E := refEngine) st countingEntropy
  = (lit "Error: Invalid input or operation failed", countingEntropy).
Proof.
  apply (xorCipher_wide_text (P := refPrimitives) (E := refEngine)
           {| inputText := [8364; 49; 48]; mode := encrypt;
              algorithm := xor; caesarShift := 3;
              xorPassword := lit "key"; aesPassword := [];
              rsaPublicKey := []; rsaPrivateKey := [] |} countingEntropy);
    [reflexivity | reflexivity | discriminate | repeat constructor; lia
    | repeat constructor; unfold codeUnit; lia
    | left; simpl; lia | reflexivity].
Defined.

(** ** [processText] with AES-256 *)

Lemma b64char_not_space (v : Z) : sextet v -> isWhiteSpace (b64char v) = false.
Proof.
  intros Hv.
  assert (H : negb (isWhiteSpace (b64char v)) = true).
  { apply (forallb_below (fun v => negb (isWhiteSpace (b64char v))) 64);
      [vm_compute; reflexivity|exact Hv]. }
  apply negb_true_iff. exact H.
Qed.

(** Base64 text is never blank. *)
Lemma encode_not_blank (bs : list Z) :
  Forall (fun b => 0 <= b < 256) bs -> bs <> [] -> isBlank (encode bs) = false.
Proof.
  intros Hb Hne. pose proof (sextets_range bs Hb) as Hs.
  unfold encode, isBlank.
  destruct (sextets bs) as [|v vs] eqn:E.
  - destruct bs as [|a [|b [|c rest]]]; [congruence| | |]; discriminate E.
  - inversion Hs as [|? ? Hv _]; subst. cbn [map app forallb].
    rewrite (b64char_not_space v Hv). reflexivity.
Qed.

Lemma processText_aes256 (P : Primitives) (E : Engine) (st : CardState)
    (e : Entropy) :
  algorithm st = aes256 -> isBlank (inputText st) = false ->
  aesPassword st <> [] ->
  processText st e
  = match processResult st e with
    | (inr result, e') => (result, e')
    | (inl _, e') => (lit "Error: Invalid input or operation failed", e')
    end.
Proof.
  intros Ha Hblank Hpw. unfold processText. rewrite Hblank, Ha.
  destruct (aesPassword st); [congruence|]. destruct (mode st); reflexivity.
Qed.

(** X26: The card decrypts what it encrypted with AES-256, for an input that
    is not blank, is well formed and does not begin with U+FEFF, and a
    non-empty password: when the envelope of the input (its UTF-8 bytes
    and 44 bytes of salt, iv and tag) has no more bytes than the engine
    takes arguments in a call, [processText] in encrypt mode shows the
    envelope, and [processText] in decrypt mode on that envelope with the
    same password shows the input. When the envelope has more bytes,
    [encryptAES256] rejects and [processText] in encrypt mode shows the
    error text of its [catch] block. *)
Theorem processText_aes256_round_trip (P : Primitives) (L : PrimitiveLaws P)
    (E : Engine) (st : CardState) (e : Entropy) :
  algorithm st = aes256 -> mode st = encrypt ->
  isBlank (inputText st) = false -> aesPassword st <> [] ->
  wellFormed (inputText st) -> hd 0 (inputText st) <> BOM ->
  (envelopeLength (inputText st) <= maxArguments ->
   exists (envelope : jsstring) (e' : Entropy),
     processText st e = (envelope, e') /\
     forall e2 : Entropy,
       processText
         {| inputText := envelope; mode := decrypt; algorithm := aes256;
            caesarShift := caesarShift st; xorPassword := xorPassword st;
            aesPassword := aesPassword st; rsaPublicKey := rsaPublicKey st;
            rsaPrivateKey := rsaPrivateKey st |} e2
       = (inputText st, e2)) /\
  (maxArguments < envelopeLength (inputText st) ->
   fst (processText st e) = lit "Error: Invalid input or operation failed").
Proof.
  intros Ha Hm Hblank Hpw Hwf Hhd. split; intros Hfit.
  - pose proof (encryptAES256_returns (inputText st) (aesPassword st) e Hfit)
      as Henc.
    eexists; eexists. split.
    + rewrite (processText_aes256 P E st e Ha Hblank Hpw).
      unfold processResult. rewrite Ha, Hm.
      rewrite (bind_returns _ _ _ _ _ Henc). reflexivity.
    + intros e2. cbn [encrypted].
      rewrite processText_aes256; cbn [inputText algorithm aesPassword];
        [|reflexivity
         |apply encode_not_blank;
            [apply fromCharCode_bytes|unfold saltOf; discriminate]
         |exact Hpw].
      unfold processResult. cbn [inputText mode algorithm aesPassword].
      unfold lift.
      rewrite decryptAES256_envelope
        by (apply saltOf_length || apply ivOf_length).
      unfold sealedOf.
      rewrite decrypt_AES_GCM_sealed;
        [|unfold keyOf; apply pbkdf2_length|apply ivOf_length].
      cbn [bindR ok]. rewrite decode_encode by assumption. reflexivity.
  - rewrite (processText_aes256 P E st e Ha Hblank Hpw).
    unfold processResult. rewrite Ha, Hm. unfold bind.
    rewrite (encryptAES256_rejects (inputText st) (aesPassword st) e Hfit).
    reflexivity.
Qed.

Lemma processText_aes256_round_trip_witness :
  let st := {| inputText := lit "attack at dawn"; mode := encrypt;
               algorithm := aes256; caesarShift := 3; xorPassword := [];
               aesPassword := lit "correct horse";
               rsaPublicKey := []; rsaPrivateKey := [] |} in
  exists (envelope : jsstring) (e' : Entropy),
    processText (P := refPrimitives) (E := refEngine) st countingEntropy
    = (envelope, e') /\
    forall e2 : Entropy,
      processText (P := refPrimitives) (E := refEngine)
        {| inputText := envelope; mode := decrypt; algorithm := aes256;
           caesarShift := caesarShift st; xorPassword := xorPassword st;
           aesPassword := aesPassword st; rsaPublicKey := rsaPublicKey st;
           rsaPrivateKey := rsaPrivateKey st |} e2
      = (inputText st, e2).
Proof.
  apply (processText_aes256_round_trip refPrimitives refPrimitives_laws
           refEngine
           {| inputText := lit "attack at dawn"; mode := encrypt;
              algorithm := aes256; caesarShift := 3; xorPassword := [];
              aesPassword := lit "correct horse";
              rsaPublicKey := []; rsaPrivateKey := [] |} countingEntropy);
    [reflexivity | reflexivity | reflexivity | discriminate
    | vm_compute; repeat split; (reflexivity || discriminate)
    | vm_compute; discriminate
    | vm_compute; discriminate].
Defined.

End CardFacts.

(** * The hash suite: [processHash] *)

Module HashSuiteFacts.
Import Js Web Utf8 Subtle Crypto Checksum CryptoRest StegoUi HashSuite
  ChecksumFacts CryptoRestFacts.

Lemma hashMD5_hex (text : jsstring) : Forall isHexDigit (hashMD5 text).
Proof.
  unfold hashMD5. destruct (length text =? 0)%nat.
  - change (toString 0) with [48].
    constructor; [unfold isHexDigit; lia|constructor].
  - unfold padStart. apply Forall_app. split.
    + apply Forall_forall. intros x Hx. apply repeat_spec in Hx. subst x.
      left; lia.
    + apply toDigits_hex; [lia|constructor].
Qed.

Lemma abbreviate_length (inputText : jsstring) :
  (length (abbreviate inputText) <= 103)%nat.
Proof.
  unfold abbreviate. rewrite length_app, length_firstn.
  destruct (100 <? length inputText)%nat;
    [change (length (lit "...")) with 3%nat|cbn [length]]; lia.
Qed.

Lemma isBlank_nonempty (s : jsstring) : isBlank s = false -> s <> [].
Proof. intros H ->. discriminate H. Qed.

(** X27: [processHash] never reaches its [catch] block: the guards stop a
    blank input and, for HMAC, a blank secret, and past them every one of
    the four functions returns. The result is then made of lowercase
    hexadecimal digits, and the history is the new entry (with the result
    and at most 103 characters of the input) followed by the first nine
    entries of the old history: never more than ten. *)
Theorem processHash_outcome (P : Primitives) (D : Digests)
    (inputText : jsstring) (selectedAlgorithm : HashAlgorithm)
    (hmacSecret : jsstring) (hashHistory : list HashResult)
    (now : jsstring) :
  match processHash inputText selectedAlgorithm hmacSecret hashHistory now
  with
  | InputRequired => isBlank inputText = true
  | SecretRequired =>
      isBlank inputText = false /\ selectedAlgorithm = HMAC /\
      isBlank hmacSecret = true
  | HashGenerated hashResult history =>
      isBlank inputText = false /\
      Forall isHexDigit hashResult /\
      (exists entry : HashResult,
         history = entry :: firstn 9 hashHistory /\
         algorithm entry = selectedAlgorithm /\
         output entry = hashResult /\
         (length (input entry) <= 103)%nat /\
         timestamp entry = now) /\
      length history = Nat.min 10 (S (length hashHistory))
  | HashGenerationFailed => False
  end.
Proof.
  unfold processHash.
  destruct (isBlank inputText) eqn:Hblank; [reflexivity|].
  assert (Hgen : forall result : jsstring,
            Forall isHexDigit result ->
            false = false /\
            Forall isHexDigit result /\
            (exists entry : HashResult,
               {| algorithm := selectedAlgorithm;
                  input := abbreviate inputText;
                  output := result; timestamp := now |}
               :: firstn 9 hashHistory = entry :: firstn 9 hashHistory /\
               algorithm entry = selectedAlgorithm /\
               output entry = result /\
               (length (input entry) <= 103)%nat /\
               timestamp entry = now) /\
            length ({| algorithm := selectedAlgorithm;
                       input := abbreviate inputText;
                       output := result; timestamp := now |}
                    :: firstn 9 hashHistory)
            = Nat.min 10 (S (length hashHistory))).
  { intros result Hhex. split; [reflexivity|]. split; [exact Hhex|]. split.
    - eexists. split; [reflexivity|]. cbn [algorithm output input timestamp].
      repeat split. apply abbreviate_length.
    - cbn [length]. rewrite length_firstn. lia. }
  destruct selectedAlgorithm; cbn [andb hashOf ok].
  - apply Hgen. apply hexOf_hex.
  - apply Hgen. apply hexOf_hex.
  - apply Hgen. apply hashMD5_hex.
  - destruct (isBlank hmacSecret) eqn:Hsecret; [auto|].
    rewrite (generateHMAC_returns P inputText hmacSecret
               (isBlank_nonempty _ Hsecret)).
    apply Hgen. apply hexOf_hex.
Qed.

End HashSuiteFacts.

(** * The batch operation of the file handler *)

Module FileHandlerFacts.
Import Js Web Base64 Utf8 Subtle StegoUi FileHandler Util WebFacts
  Base64Facts Utf8Facts EnvelopeFacts ReferenceFacts.

Section WithPrimitives.
Context {P : Primitives} {E : Engine}.

Lemma startBatchOperation_runs (t : OperationType) (files : list FileItem)
    (selectedAlgorithm batchPassword : jsstring) (clock : nat -> jsstring)
    (e : Entropy) :
  files <> [] ->
  batchPassword <> [] \/ strEq selectedAlgorithm (lit "aes256") = false ->
  startBatchOperation t files selectedAlgorithm batchPassword clock e
  = let '((processedFiles, failed), e') :=
      processFiles t selectedAlgorithm batchPassword clock 0 files e in
    (BatchComplete processedFiles failed, e').
Proof.
  intros Hf Hg. unfold startBatchOperation.
  destruct files as [|f fs]; [congruence|].
  destruct Hg as [Hpw| ->].
  - destruct batchPassword; [congruence|]. reflexivity.
  - rewrite andb_false_r. reflexivity.
Qed.

(** With an algorithm other than 'aes256' the loop copies the files. *)
Lemma processFiles_other (t : OperationType)
    (selectedAlgorithm batchPassword : jsstring) (clock : nat -> jsstring)
    (files : list FileItem) :
  strEq selectedAlgorithm (lit "aes256") = false ->
  forall (i : nat) (e : Entropy),
  exists processedFiles,
    processFiles t selectedAlgorithm batchPassword clock i files e
    = ((processedFiles, []), e) /\
    map content processedFiles = map content files /\
    map name processedFiles = map name files /\
    Forall (fun f => encrypted f = isEncrypt t) processedFiles.
Proof.
  intros Halg. induction files as [|f fs IH]; intros i e.
  - exists []. repeat split; constructor.
  - destruct (IH (S i) e) as (done & Hrun & Hc & Hn & He).
    eexists. cbn [processFiles]. unfold processContent. rewrite Halg.
    cbn [ret]. rewrite Hrun. split; [reflexivity|].
    cbn [map content name]. rewrite Hc, Hn.
    repeat split. constructor; [reflexivity|exact He].
Qed.

Context {L : PrimitiveLaws P}.

(** The encryption pass on files whose envelopes are within the argument
    limit: every file gets an envelope that decrypts to what
    [TextDecoder] makes of the UTF-8 bytes of its content. *)
Lemma processFiles_encrypt (batchPassword : jsstring)
    (clock : nat -> jsstring) (files : list FileItem) :
  Forall (fun f => Crypto.envelopeLength (content f) <= maxArguments) files ->
  forall (i : nat) (e : Entropy),
  exists processedFiles e',
    processFiles encrypt (lit "aes256") batchPassword clock i files e
    = ((processedFiles, []), e') /\
    Forall2 (fun f f' =>
               name f' = name f /\ encrypted f' = true /\
               Crypto.decryptAES256 (content f') batchPassword
               = ok (TextDecoder_decode (TextEncoder_encode (content f))))
      files processedFiles.
Proof.
  induction 1 as [|f fs Hfit _ IH]; intros i e.
  - exists [], e. split; [reflexivity|constructor].
  - destruct (decryptAES256_encryptAES256 (content f) batchPassword e Hfit)
      as (r & e1 & Henc & Hdec).
    destruct (IH (S i) e1) as (done & e2 & Hrun & Hall).
    eexists; exists e2. cbn [processFiles]. unfold processContent.
    change (strEq (lit "aes256") (lit "aes256")) with true. cbv iota.
    rewrite (bind_returns _ _ _ _ _ Henc). cbn [ret]. rewrite Hrun.
    split; [reflexivity|].
    constructor; [|exact Hall]. cbn [name encrypted content isEncrypt].
    repeat split. exact Hdec.
Qed.

(** A file whose envelope is above the argument limit fails in the
    encryption pass and is reported. *)
Lemma processFiles_encrypt_large (batchPassword : jsstring)
    (clock : nat -> jsstring) (file : FileItem) (i : nat) (e : Entropy) :
  maxArguments < Crypto.envelopeLength (content file) ->
  fst (processFiles encrypt (lit "aes256") batchPassword clock i [file] e)
  = ([], [name file]).
Proof.
  intros Hfit. cbn [processFiles]. unfold processContent.
  change (strEq (lit "aes256") (lit "aes256")) with true. cbv iota.
  unfold bind.
  rewrite (encryptAES256_rejects (content file) batchPassword e Hfit).
  reflexivity.
Qed.

(** The decryption pass on files that decrypt. *)
Lemma processFiles_decrypt (batchPassword : jsstring)
    (clock : nat -> jsstring) (texts : list jsstring) :
  forall (files : list FileItem) (names : list jsstring) (i : nat)
         (e : Entropy),
  Forall2 (fun text f =>
             Crypto.decryptAES256 (content f) batchPassword = ok text)
    texts files ->
  exists processedFiles,
    processFiles decrypt (lit "aes256") batchPassword clock i files e
    = ((processedFiles, []), e) /\
    map content processedFiles = texts /\
    map name processedFiles = map name files /\
    Forall (fun f => encrypted f = false) processedFiles.
Proof.
  induction texts as [|text texts IH]; intros files names i e Hall;
    inversion Hall as [|? f ? fs Hdec Hrest]; subst.
  - exists []. repeat split; constructor.
  - destruct (IH fs names (S i) e Hrest) as (done & Hrun & Hc & Hn & He).
    eexists. cbn [processFiles]. unfold processContent.
    change (strEq (lit "aes256") (lit "aes256")) with true. cbv iota.
    unfold lift. rewrite Hdec. unfold ok. rewrite Hrun.
    split; [reflexivity|]. cbn [map content name]. rewrite Hc, Hn.
    repeat split. constructor; [reflexivity|exact He].
Qed.

(** The decryption pass in general: the files that decrypt are kept, in
    order, and the others are reported and left out. *)
Lemma processFiles_decrypt_filter (batchPassword : jsstring)
    (clock : nat -> jsstring) (files : list FileItem) :
  forall (i : nat) (e : Entropy),
  exists processedFiles failed,
    processFiles decrypt (lit "aes256") batchPassword clock i files e
    = ((processedFiles, failed), e) /\
    map name processedFiles = map name (filter (decrypts batchPassword) files)
    /\
    map (fun f => ok (content f)) processedFiles
    = map (fun f => Crypto.decryptAES256 (content f) batchPassword)
        (filter (decrypts batchPassword) files) /\
    failed
    = map name (filter (fun f => negb (decrypts batchPassword f)) files).
Proof.
  induction files as [|f fs IH]; intros i e.
  - exists [], []. repeat split.
  - destruct (IH (S i) e) as (done & failed & Hrun & Hn & Hc & Hf).
    cbn [processFiles filter]. unfold processContent.
    change (strEq (lit "aes256") (lit "aes256")) with true. cbv iota.
    unfold lift.
    destruct (Crypto.decryptAES256 (content f) batchPassword) as [x|text]
      eqn:Hdec.
    + assert (Hd : decrypts batchPassword f = false)
        by (unfold decrypts; rewrite Hdec; reflexivity).
      rewrite Hd, Hrun. cbn [negb map].
      exists done, (name f :: failed). rewrite Hf.
      split; [reflexivity|]. repeat split; assumption.
    + assert (Hd : decrypts batchPassword f = true)
        by (unfold decrypts; rewrite Hdec; reflexivity).
      rewrite Hd, Hrun. cbn [negb map].
      eexists; exists failed. split; [reflexivity|].
      cbn [map name content]. rewrite Hn, Hc, Hdec.
      repeat split. exact Hf.
Qed.

End WithPrimitives.

(** X28: A batch that is encrypted and then decrypted with the same password
    gives the files back: for a non-empty list of files whose contents
    are well formed, do not begin with U+FEFF and have envelopes (UTF-8
    bytes and 44) of no more bytes than the engine takes arguments in a
    call, and a non-empty password, the encryption batch processes every
    file and marks it encrypted, and the decryption batch on its result
    processes every file again, with the original contents and names,
    marked not encrypted. A file with a larger envelope fails in the
    encryption batch: it is reported and left out. *)
Theorem batch_round_trip (P : Primitives) (L : PrimitiveLaws P) (E : Engine)
    (files : list FileItem) (batchPassword : jsstring)
    (clock clock' : nat -> jsstring) (e : Entropy) :
  files <> [] -> batchPassword <> [] ->
  Forall (fun f => wellFormed (content f) /\ hd 0 (content f) <> BOM) files ->
  (Forall (fun f => Crypto.envelopeLength (content f) <= maxArguments) files ->
   exists encryptedFiles e',
     startBatchOperation encrypt files (lit "aes256") batchPassword clock e
     = (BatchComplete encryptedFiles [], e') /\
     map name encryptedFiles = map name files /\
     Forall (fun f => encrypted f = true) encryptedFiles /\
     forall e2 : Entropy,
     exists decryptedFiles,
       startBatchOperation decrypt encryptedFiles (lit "aes256")
         batchPassword clock' e2
       = (BatchComplete decryptedFiles [], e2) /\
       map content decryptedFiles = map content files /\
       map name decryptedFiles = map name files /\
       Forall (fun f => encrypted f = false) decryptedFiles) /\
  (forall file : FileItem,
     maxArguments < Crypto.envelopeLength (content file) ->
     fst (startBatchOperation encrypt [file] (lit "aes256") batchPassword
            clock e)
     = BatchComplete [] [name file]).
Proof.
  intros Hf Hpw Hwf. split.
  - intros Hfits.
    destruct (processFiles_encrypt batchPassword clock files Hfits 0 e)
      as (files1 & e1 & Hrun1 & Hall).
    exists files1, e1.
    assert (Hnames : map name files1 = map name files).
    { clear - Hall. induction Hall as [|f f1 fs fs1 (Hn & _) _ IH];
        [reflexivity|]. cbn [map]. rewrite Hn, IH. reflexivity. }
    split; [|split; [exact Hnames|split]].
    + rewrite startBatchOperation_runs by (auto || assumption).
      rewrite Hrun1. reflexivity.
    + clear - Hall.
      induction Hall as [|f f1 fs fs1 (_ & He & _) _ IH]; constructor; auto.
    + intros e2.
      assert (Hdec : Forall2 (fun text f =>
                        Crypto.decryptAES256 (content f) batchPassword
                        = ok text)
                       (map content files) files1).
      { clear - Hall Hwf L. revert Hwf.
        induction Hall as [|f f1 fs fs1 (_ & _ & Hd) _ IH]; intros Hwf;
          [constructor|].
        inversion Hwf as [|? ? [Hw Hh] Hwf']; subst. cbn [map].
        constructor; [|apply IH; exact Hwf'].
        rewrite Hd, decode_encode by assumption. reflexivity. }
      destruct (processFiles_decrypt batchPassword clock' _ files1 [] 0 e2
                  Hdec) as (files2 & Hrun2 & Hc & Hn & He).
      exists files2.
      rewrite startBatchOperation_runs;
        [|intros ->; destruct files; [congruence|discriminate Hnames]
         |left; exact Hpw].
      rewrite Hrun2. repeat split; [exact Hc|congruence|exact He].
  - intros file Hfit.
    rewrite startBatchOperation_runs by (auto || discriminate).
    pose proof (processFiles_encrypt_large batchPassword clock file 0 e Hfit)
      as Hrun.
    destruct (processFiles encrypt (lit "aes256") batchPassword clock 0
                [file] e) as [[done failed] e'].
    cbn [fst] in Hrun |- *. injection Hrun as -> ->. reflexivity.
Qed.

Lemma batch_round_trip_witness :
  let files :=
    [{| id := lit "1"; name := lit "a.txt"; size := 5; type := lit "text/plain";
        content := lit "hello"; encrypted := false; processedAt := lit "t0" |};
     {| id := lit "2"; name := lit "b.txt"; size := 5; type := lit "text/plain";
        content := lit "world"; encrypted := false; processedAt := lit "t0" |}]
  in
  exists encryptedFiles e',
    startBatchOperation (P := Crypto.refPrimitives) (E := Crypto.refEngine)
      encrypt files (lit "aes256") (lit "pw") (fun _ => lit "t1")
      Crypto.countingEntropy
    = (BatchComplete encryptedFiles [], e') /\
    map name encryptedFiles = map name files /\
    Forall (fun f => encrypted f = true) encryptedFiles /\
    forall e2 : Entropy,
    exists decryptedFiles,
      startBatchOperation (P := Crypto.refPrimitives)
        (E := Crypto.refEngine) decrypt encryptedFiles
        (lit "aes256") (lit "pw") (fun _ => lit "t2") e2
      = (BatchComplete decryptedFiles [], e2) /\
      map content decryptedFiles = map content files /\
      map name decryptedFiles = map name files /\
      Forall (fun f => encrypted f = false) decryptedFiles.
Proof.
  apply (batch_round_trip Crypto.refPrimitives refPrimitives_laws
           Crypto.refEngine
           [{| id := lit "1"; name := lit "a.txt"; size := 5;
               type := lit "text/plain"; content := lit "hello";
               encrypted := false; processedAt := lit "t0" |};
            {| id := lit "2"; name := lit "b.txt"; size := 5;
               type := lit "text/plain"; content := lit "world";
               encrypted := false; processedAt := lit "t0" |}]
           (lit "pw") (fun _ => lit "t1") (fun _ => lit "t2")
           Crypto.countingEntropy);
    [discriminate | discriminate
    | repeat constructor; vm_compute; (reflexivity || discriminate)
    | repeat constructor; vm_compute; discriminate].
Defined.

(** X29: Only 'aes256' encrypts: with any other algorithm of the selection
    (the list offers 'caesar' and 'base64'), the encryption batch needs
    no password, draws no randomness, fails on no file and leaves every
    content as it was, while it marks every file as encrypted. *)
Theorem batch_other_algorithm (P : Primitives) (E : Engine)
    (files : list FileItem)
    (selectedAlgorithm batchPassword : jsstring) (clock : nat -> jsstring)
    (e : Entropy) :
  files <> [] -> strEq selectedAlgorithm (lit "aes256") = false ->
  exists processedFiles,
    startBatchOperation encrypt files selectedAlgorithm batchPassword clock e
    = (BatchComplete processedFiles [], e) /\
    map content processedFiles = map content files /\
    map name processedFiles = map name files /\
    Forall (fun f => encrypted f = true) processedFiles.
Proof.
  intros Hf Halg.
  destruct (processFiles_other encrypt selectedAlgorithm batchPassword clock
              files Halg 0 e) as (done & Hrun & Hc & Hn & He).
  exists done. rewrite startBatchOperation_runs by (auto || assumption).
  rewrite Hrun. repeat split; assumption.
Qed.

Lemma batch_other_algorithm_witness :
  let files :=
    [{| id := lit "1"; name := lit "a.txt"; size := 5; type := lit "text/plain";
        content := lit "hello"; encrypted := false; processedAt := lit "t0" |}]
  in
  exists processedFiles,
    startBatchOperation (P := Crypto.refPrimitives) (E := Crypto.refEngine) encrypt files (lit "caesar") []
      (fun _ => lit "t1") Crypto.countingEntropy
    = (BatchComplete processedFiles [], Crypto.countingEntropy) /\
    map content processedFiles = map content files /\
    map name processedFiles = map name files /\
    Forall (fun f => encrypted f = true) processedFiles.
Proof.
  apply (batch_other_algorithm Crypto.refPrimitives Crypto.refEngine
           [{| id := lit "1"; name := lit "a.txt"; size := 5;
               type := lit "text/plain"; content := lit "hello";
               encrypted := false; processedAt := lit "t0" |}]
           (lit "caesar") [] (fun _ => lit "t1") Crypto.countingEntropy);
    [discriminate | reflexivity].
Defined.

(** X30: A decryption batch removes what it cannot decrypt: the new list of
    files holds exactly the files whose content [decryptAES256] opens
    under the password, in their order and with the decrypted content;
    every other file is reported by name and is no longer in the list. *)
Theorem batch_decrypt_drops (P : Primitives) (E : Engine)
    (files : list FileItem)
    (batchPassword : jsstring) (clock : nat -> jsstring) (e : Entropy) :
  files <> [] -> batchPassword <> [] ->
  exists processedFiles failed,
    startBatchOperation decrypt files (lit "aes256") batchPassword clock e
    = (BatchComplete processedFiles failed, e) /\
    map name processedFiles
    = map name (filter (decrypts batchPassword) files) /\
    map (fun f => ok (content f)) processedFiles
    = map (fun f => Crypto.decryptAES256 (content f) batchPassword)
        (filter (decrypts batchPassword) files) /\
    failed
    = map name (filter (fun f => negb (decrypts batchPassword f)) files) /\
    (length processedFiles + length failed = length files)%nat.
Proof.
  intros Hf Hpw.
  destruct (processFiles_decrypt_filter batchPassword clock files 0 e)
    as (done & failed & Hrun & Hn & Hc & Hfail).
  exists done, failed. rewrite startBatchOperation_runs by (auto || assumption).
  rewrite Hrun. repeat split; try assumption.
  apply (f_equal (@length _)) in Hn. rewrite !length_map in Hn.
  rewrite Hn, Hfail, length_map. clear.
  induction files as [|f fs IH]; [reflexivity|]. cbn [filter].
  destruct (decrypts batchPassword f); cbn [negb length]; lia.
Qed.

Lemma batch_decrypt_drops_witness :
  let files :=
    [{| id := lit "1"; name := lit "a.txt"; size := 5; type := lit "text/plain";
        content := lit "hello world"; encrypted := false;
        processedAt := lit "t0" |}]
  in
  exists processedFiles failed,
    startBatchOperation (P := Crypto.refPrimitives) (E := Crypto.refEngine) decrypt files (lit "aes256")
      (lit "pw") (fun _ => lit "t1") Crypto.countingEntropy
    = (BatchComplete processedFiles failed, Crypto.countingEntropy) /\
    map name processedFiles = map name (filter (decrypts (P := Crypto.refPrimitives) (lit "pw")) files) /\
    map (fun f => ok (content f)) processedFiles
    = map (fun f => Crypto.decryptAES256 (P := Crypto.refPrimitives) (content f) (lit "pw"))
        (filter (decrypts (P := Crypto.refPrimitives) (lit "pw")) files) /\
    failed = map name (filter (fun f => negb (decrypts (P := Crypto.refPrimitives) (lit "pw") f)) files) /\
    (length processedFiles + length failed = length files)%nat.
Proof.
  apply (batch_decrypt_drops Crypto.refPrimitives Crypto.refEngine
           [{| id := lit "1"; name := lit "a.txt"; size := 5;
               type := lit "text/plain"; content := lit "hello world";
               encrypted := false; processedAt := lit "t0" |}]
           (lit "pw") (fun _ => lit "t1") Crypto.countingEntropy);
    discriminate.
Defined.

End FileHandlerFacts.
